(** * Thoughtful AI support agent: the retrieval core, embedded in Rocq

    The development follows the JavaScript sources of the backend:
    - [ragService.js]      : [cosineSimilarity], [chunkText], [ingestContent],
                             [searchDocuments], [buildContext],
                             [getRelevantContext], [clearVectorStore];
    - [agentService.js]    : [calculateSimilarity], [findBestMatch],
                             [getOpenAIResponseWithRAG], [getAgentResponse];
    - [knowledgeService.js]: [initializeKnowledgeBase] and its single-flight
                             handle, [performInitialization],
                             [getKnowledgeBaseStatus];
    - [scraperService.js]  : [extractTextFromHtml], [parseContent],
                             [scrapePage], [scrapeAllPages];
    - [index.js]           : the handler of [POST /api/chat].

    Data is kept as the code has it.  A string is the sequence of its UTF-16
    code units, an array is a list, [null] is [None], a thrown error or a
    rejected promise is the left injection of a sum.  Relevance scores are
    binary64 numbers (Rocq's primitive floats, which follow IEEE 754 as
    JavaScript numbers do). *)

From Stdlib Require Import String Ascii.
From Stdlib Require Import List Bool Arith ZArith NArith Lia Sorted Permutation.
From Stdlib Require Import QArith Qminmax.
From Stdlib Require Import Floats.
From Stdlib Require Import Reals Lra.
From Stdlib Require Import DecimalString DecimalNat.
Import ListNotations.

Set Implicit Arguments.
Set Warnings "-inexact-float".
Close Scope Q_scope.

(* ================================================================== *)
(** * Part I: definitions *)
(* ================================================================== *)

(** ** JavaScript strings and arrays *)

Module JS.

(** A UTF-16 code unit. *)
Definition char := N.

(** [String]: [s.length] is [length s]. *)
Definition jsstring := list char.

(** A literal of the source, read as its code units (the literals used in
    this development are ASCII). *)
Definition js (s : string) : jsstring :=
  map N_of_ascii (list_ascii_of_string s).

Definition char_eqb (a b : char) : bool := N.eqb a b.

Fixpoint str_eqb (a b : jsstring) : bool :=
  match a, b with
  | [], [] => true
  | x :: a', y :: b' => char_eqb x y && str_eqb a' b'
  | _, _ => false
  end.

Definition space : char := 32%N.
Definition newline : char := 10%N.

(** The class [\s] of a regular expression, which is also the set of
    characters [String.prototype.trim] removes: WhiteSpace and
    LineTerminator code points. *)
Definition isWhiteSpace (c : char) : bool :=
  existsb (N.eqb c)
    [9; 10; 11; 12; 13; 32; 160; 5760; 8232; 8233; 8239; 8287; 12288; 65279]%N
  || (N.leb 8192 c && N.leb c 8202).

(** The class [[.!?]]. *)
Definition isSentenceEnd (c : char) : bool :=
  existsb (N.eqb c) [46; 33; 63]%N.

(** The class [\w], that is [[A-Za-z0-9_]]. *)
Definition isWordChar (c : char) : bool :=
  (N.leb 65 c && N.leb c 90) || (N.leb 97 c && N.leb c 122)
  || (N.leb 48 c && N.leb c 57) || N.eqb c 95.

Fixpoint dropWhile {A} (p : A -> bool) (l : list A) : list A :=
  match l with
  | [] => []
  | x :: r => if p x then dropWhile p r else l
  end.

Definition trimStart (s : jsstring) : jsstring := dropWhile isWhiteSpace s.
Definition trimEnd (s : jsstring) : jsstring :=
  rev (dropWhile isWhiteSpace (rev s)).

(** [s.trim()]. *)
Definition trim (s : jsstring) : jsstring := trimEnd (trimStart s).

(** Truthiness of a string: it is not empty. *)
Definition truthy (s : jsstring) : bool :=
  match s with [] => false | _ :: _ => true end.

(** Adds a character to the piece being read, the head of the result. *)
Definition consHead (c : char) (ps : list jsstring) : list jsstring :=
  match ps with
  | [] => [[c]]
  | p :: r => (c :: p) :: r
  end.

(** [s.split(sep)] for a separator of one character. *)
Fixpoint splitChar (sep : char) (s : jsstring) : list jsstring :=
  match s with
  | [] => [[]]
  | c :: r =>
      if char_eqb c sep then [] :: splitChar sep r
      else consHead c (splitChar sep r)
  end.

(** [parts.join(sep)]. *)
Fixpoint join (sep : jsstring) (parts : list jsstring) : jsstring :=
  match parts with
  | [] => []
  | [p] => p
  | p :: r => p ++ sep ++ join sep r
  end.

(** [arr.slice(start)]: a negative [start] counts from the end, and both
    ends are clamped to the array. *)
Definition sliceFrom {A} (start : Z) (l : list A) : list A :=
  let len := Z.of_nat (length l) in
  let k := if (start <? 0)%Z then Z.max (len + start) 0 else Z.min start len in
  skipn (Z.to_nat k) l.

(** [s.includes(t)]. *)
Fixpoint startsWith (t s : jsstring) : bool :=
  match t, s with
  | [], _ => true
  | x :: t', y :: s' => char_eqb x y && startsWith t' s'
  | _ :: _, [] => false
  end.

Fixpoint includes (s t : jsstring) : bool :=
  startsWith t s
  || match s with
     | [] => false
     | _ :: s' => includes s' t
     end.

(** [arr.includes(x)] for an array of strings. *)
Definition arrayIncludes (l : list jsstring) (x : jsstring) : bool :=
  existsb (str_eqb x) l.

(** [[...new Set(arr)]]: the first occurrence of each element, in order. *)
Fixpoint setOfAux (seen : list jsstring) (l : list jsstring) : list jsstring :=
  match l with
  | [] => []
  | x :: r =>
      if arrayIncludes seen x then setOfAux seen r
      else x :: setOfAux (x :: seen) r
  end.

Definition setOf (l : list jsstring) : list jsstring := setOfAux [] l.

(** The two ways a position is read by [/(?<=[.!?])\s+/]: inside a
    separator whose whitespace is being consumed, or inside a sentence,
    remembering whether the character before is one of [.!?]. *)
Inductive splitState := InSeparator | InSentence (afterEnd : bool).

Fixpoint splitSentencesFrom (st : splitState) (s : jsstring) : list jsstring :=
  match s with
  | [] => [[]]
  | c :: r =>
      match st with
      | InSeparator =>
          if isWhiteSpace c then splitSentencesFrom InSeparator r
          else consHead c (splitSentencesFrom (InSentence (isSentenceEnd c)) r)
      | InSentence afterEnd =>
          if afterEnd && isWhiteSpace c
          then [] :: splitSentencesFrom InSeparator r
          else consHead c (splitSentencesFrom (InSentence (isSentenceEnd c)) r)
      end
  end.

(** [text.split(/(?<=[.!?])\s+/)]. *)
Definition splitSentences (text : jsstring) : list jsstring :=
  splitSentencesFrom (InSentence false) text.

(** [s.split(/\s+/)]. *)
Fixpoint splitWhiteSpaceFrom (inSep : bool) (s : jsstring) : list jsstring :=
  match s with
  | [] => [[]]
  | c :: r =>
      if isWhiteSpace c
      then (if inSep then splitWhiteSpaceFrom true r
            else [] :: splitWhiteSpaceFrom true r)
      else consHead c (splitWhiteSpaceFrom false r)
  end.

Definition splitWhiteSpace (s : jsstring) : list jsstring :=
  splitWhiteSpaceFrom false s.

(** An ASCII reading of [s.toLowerCase()], for the examples; the
    development itself is parametric in the case mapping. *)
Definition toLowerCaseASCII (s : jsstring) : jsstring :=
  map (fun c => if N.leb 65 c && N.leb c 90 then (c + 32)%N else c) s.

(** [t] occurs in [s] as a run of consecutive characters. *)
Definition substring (t s : jsstring) : Prop :=
  exists a b, s = a ++ t ++ b.

End JS.
Import JS.

(** ** Errors, promises and the OpenAI client *)

Module Effects.

(** [new Error(message)], and the errors the runtime and the collaborators
    raise. *)
Inductive Error := mkError (message : string).

(** A chat message [{ role, content }]. *)
Record Message := { role : jsstring; content : jsstring }.

(** The body of an [async] function: it returns, it throws, or it awaits a
    request to the OpenAI client and goes on with the answer.  The two
    requests are the only collaborators of the query path:
    [openai.embeddings.create] and [openai.chat.completions.create]. *)
Inductive Async (A : Type) : Type :=
| Return (a : A)
| Throw (e : Error)
| EmbeddingsCreate (input : jsstring) (k : Error + list float -> Async A)
| ChatCompletionsCreate (messages : list Message)
    (k : Error + jsstring -> Async A).

Arguments Throw {A} e.

Fixpoint bind {A B} (p : Async A) (f : A -> Async B) : Async B :=
  match p with
  | Return a => f a
  | Throw e => Throw e
  | EmbeddingsCreate input k => EmbeddingsCreate input (fun r => bind (k r) f)
  | ChatCompletionsCreate messages k =>
      ChatCompletionsCreate messages (fun r => bind (k r) f)
  end.

(** [try { p } catch (error) { handler(error) }]. *)
Fixpoint tryCatch {A} (p : Async A) (handler : Error -> Async A) : Async A :=
  match p with
  | Return a => Return a
  | Throw e => handler e
  | EmbeddingsCreate input k =>
      EmbeddingsCreate input (fun r => tryCatch (k r) handler)
  | ChatCompletionsCreate messages k =>
      ChatCompletionsCreate messages (fun r => tryCatch (k r) handler)
  end.

(** [await] of a request: a rejection is thrown. *)
Definition settle {A} (r : Error + A) : Async A :=
  match r with
  | inl e => Throw e
  | inr a => Return a
  end.

Inductive Request :=
| EmbeddingRequest (input : jsstring)
| ChatRequest (messages : list Message).

(** A client is any behaviour of the two endpoints over a state [W] of the
    outside world: each request is answered or rejected, and may change
    the world. *)
Record Client (W : Type) := {
  createEmbedding : jsstring -> W -> (Error + list float) * W;
  createChatCompletion : list Message -> W -> (Error + jsstring) * W
}.

(** Running a computation against a client: the outcome, the world left
    behind, and the requests made, in order. *)
Fixpoint run {W A} (c : Client W) (p : Async A) (w : W)
    : (Error + A) * W * list Request :=
  match p with
  | Return a => (inr a, w, [])
  | Throw e => (inl e, w, [])
  | EmbeddingsCreate input k =>
      let '(r, w1) := createEmbedding c input w in
      let '(out, w2, reqs) := run c (k r) w1 in
      (out, w2, EmbeddingRequest input :: reqs)
  | ChatCompletionsCreate messages k =>
      let '(r, w1) := createChatCompletion c messages w in
      let '(out, w2, reqs) := run c (k r) w1 in
      (out, w2, ChatRequest messages :: reqs)
  end.

End Effects.
Import Effects.

(** ** ragService.js: chunking *)

Module RagService.

(** [words.slice(-Math.floor(overlap / 10)).join(' ')].  The two numbers
    [maxChunkSize] and [overlap] are integers. *)
Definition overlapSeed (overlap : Z) (currentChunk : jsstring) : jsstring :=
  let words := splitChar space currentChunk in
  join [space] (sliceFrom (- (overlap / 10))%Z words).

(** One turn of the loop of [chunkText] over the pair
    ([chunks], [currentChunk]). *)
Definition chunkStep (maxChunkSize overlap : Z)
    (st : list jsstring * jsstring) (sentence : jsstring)
    : list jsstring * jsstring :=
  let '(chunks, currentChunk) := st in
  if (Z.of_nat (length (currentChunk ++ sentence)) >? maxChunkSize)%Z
     && (0 <? length currentChunk)
  then (chunks ++ [trim currentChunk],
        overlapSeed overlap currentChunk ++ [space] ++ sentence)
  else (chunks,
        currentChunk ++ (if truthy currentChunk then [space] else []) ++ sentence).

Definition chunkLoop (maxChunkSize overlap : Z) (sentences : list jsstring)
    (st : list jsstring * jsstring) : list jsstring * jsstring :=
  fold_left (chunkStep maxChunkSize overlap) sentences st.

Definition chunkText (text : jsstring) (maxChunkSize overlap : Z)
    : list jsstring :=
  let sentences := splitSentences text in
  let '(chunks, currentChunk) :=
    chunkLoop maxChunkSize overlap sentences ([], []) in
  if truthy (trim currentChunk) then chunks ++ [trim currentChunk] else chunks.

(** The default arguments: [chunkText(text, maxChunkSize = 500, overlap = 50)]. *)
Definition chunkTextDefault (text : jsstring) : list jsstring :=
  chunkText text 500 50.


(** *** Numbers

    [cosineSimilarity] is written once over the arithmetic it uses and read
    twice: over binary64, which is what the program computes, and over the
    real numbers, which is what its formula means. *)

Record Arithmetic (T : Type) := {
  zero : T;
  add : T -> T -> T;
  mul : T -> T -> T;
  div : T -> T -> T;
  sqrt : T -> T;
  isZero : T -> bool          (* [x === 0] *)
}.

Definition binary64 : Arithmetic float := {|
  zero := 0%float;
  add := PrimFloat.add;
  mul := PrimFloat.mul;
  div := PrimFloat.div;
  sqrt := PrimFloat.sqrt;
  isZero := fun x => PrimFloat.eqb x 0%float
|}.

Definition exact : Arithmetic R := {|
  zero := 0%R;
  add := Rplus;
  mul := Rmult;
  div := Rdiv;
  sqrt := R_sqrt.sqrt;
  isZero := fun x => if Req_dec_T x 0%R then true else false
|}.

Section CosineSimilarity.
Context {T : Type} (A : Arithmetic T).

(** The body of the [for] loop, on ([dotProduct], [normA], [normB]). *)
Definition cosineStep (acc : T * T * T) (ab : T * T) : T * T * T :=
  let '(dotProduct, normA, normB) := acc in
  let '(a, b) := ab in
  (add A dotProduct (mul A a b),
   add A normA (mul A a a),
   add A normB (mul A b b)).

Definition cosineSums (vecA vecB : list T) : T * T * T :=
  fold_left cosineStep (combine vecA vecB) (zero A, zero A, zero A).

Definition cosineSimilarityIn (vecA vecB : list T) : Error + T :=
  if negb (length vecA =? length vecB)
  then inl (mkError "Vectors must have the same length")
  else
    let '(dotProduct, normA, normB) := cosineSums vecA vecB in
    if isZero A normA || isZero A normB then inr (zero A)
    else inr (div A dotProduct (mul A (sqrt A normA) (sqrt A normB))).
End CosineSimilarity.

(** [cosineSimilarity(vecA, vecB)] as the program computes it. *)
Definition cosineSimilarity : list float -> list float -> Error + float :=
  cosineSimilarityIn binary64.

(** The same code over the real numbers. *)
Definition cosineSimilarityExact : list R -> list R -> Error + R :=
  cosineSimilarityIn exact.

(** *** The vector store and the search *)

Module Metadata.
Record t := { pageName : jsstring; url : jsstring; scrapedAt : jsstring }.
End Metadata.

(** An entry of [vectorStore.documents]. *)
Record Document := {
  id : jsstring;
  text : jsstring;
  metadata : Metadata.t
}.

(** The module variable [vectorStore]: two parallel arrays and two flags. *)
Record VectorStore := {
  documents : list Document;
  embeddings : list (list float);
  initialized : bool;
  lastUpdated : option jsstring
}.

(** The initial value of [vectorStore], which [clearVectorStore] restores. *)
Definition emptyStore : VectorStore := {|
  documents := [];
  embeddings := [];
  initialized := false;
  lastUpdated := None
|}.

Definition isInitialized (vectorStore : VectorStore) : bool :=
  initialized vectorStore.

(** [{ ...doc, score }]. *)
Record ScoredDocument := { doc : Document; score : float }.

(** [generateEmbedding(text)]: one request, on the first 8000 code units. *)
Definition generateEmbedding (text : jsstring) : Async (list float) :=
  EmbeddingsCreate (firstn (Z.to_nat 8000) text) settle.

(** [vectorStore.documents.map((doc, index) => ...)], from [index] on.
    Reading [vectorStore.embeddings[index]] past the end gives [undefined],
    whose [length] [cosineSimilarity] cannot read. *)
Fixpoint scoreFrom (vectorStore : VectorStore) (queryEmbedding : list float)
    (index : nat) (docs : list Document) : Error + list ScoredDocument :=
  match docs with
  | [] => inr []
  | d :: rest =>
      match nth_error (embeddings vectorStore) index with
      | None =>
          inl (mkError "Cannot read properties of undefined (reading 'length')")
      | Some embedding =>
          match cosineSimilarity queryEmbedding embedding with
          | inl e => inl e
          | inr s =>
              match scoreFrom vectorStore queryEmbedding (S index) rest with
              | inl e => inl e
              | inr scored => inr ({| doc := d; score := s |} :: scored)
              end
          end
      end
  end.

Definition scoreDocuments (vectorStore : VectorStore)
    (queryEmbedding : list float) : Error + list ScoredDocument :=
  scoreFrom vectorStore queryEmbedding 0 (documents vectorStore).

(** The comparator [(a, b) => b.score - a.score]. *)
Definition byScoreDescending (a b : ScoredDocument) : float :=
  (score b - score a)%float.

(** [arr.sort(comparefn)], as V8 sorts an array: the array is read as a
    run, the longest start of it that does not go down in the order of the
    comparator, or that goes down all along and is then reversed, and each
    element after the run is put into it by binary insertion.  An array of
    64 elements or more is cut into such runs, which are merged; for a
    comparator that is a consistent ordering the result is the same, the
    one stable sort there is.  With a comparator that is not one, as
    [b.score - a.score] is when a score is [NaN], the language leaves the
    order to the engine. *)

(** [sortState.Compare(x, y) < 0]: a [NaN] from the comparator is read as
    [0], which is not below [0]. *)
Definition precedes {A} (comparefn : A -> A -> float) (x y : A) : bool :=
  (comparefn x y <? 0)%float.

(** The loop of [CountAndMakeRun]: the elements that continue the run
    after [previousElement], and the elements after the run. *)
Fixpoint runFrom {A} (comparefn : A -> A -> float) (isDescending : bool)
    (previousElement : A) (rest : list A) : list A * list A :=
  match rest with
  | [] => ([], [])
  | currentElement :: rest' =>
      if Bool.eqb (precedes comparefn currentElement previousElement) isDescending
      then
        let '(run, others) :=
          runFrom comparefn isDescending currentElement rest' in
        (currentElement :: run, others)
      else ([], rest)
  end.

(** [CountAndMakeRun]: the run, reversed when it goes down, and the
    elements after it. *)
Definition countAndMakeRun {A} (comparefn : A -> A -> float) (arr : list A)
    : list A * list A :=
  match arr with
  | elementHigh :: elementLow :: rest =>
      let isDescending := precedes comparefn elementLow elementHigh in
      let '(run, others) := runFrom comparefn isDescending elementLow rest in
      (if isDescending then rev (elementHigh :: elementLow :: run)
       else elementHigh :: elementLow :: run,
       others)
  | _ => (arr, [])
  end.

(** The search of [BinaryInsertionSort] for the place of [pivot] between
    [left] and [right]; [steps] bounds the turns of its loop, which are
    fewer than the places searched. *)
Fixpoint insertionPoint {A} (comparefn : A -> A -> float) (pivot : A)
    (work : list A) (steps left right : nat) : nat :=
  match steps with
  | 0 => left
  | S steps' =>
      if left <? right then
        let mid := left + (right - left) / 2 in
        match nth_error work mid with
        | Some element =>
            if precedes comparefn pivot element
            then insertionPoint comparefn pivot work steps' left mid
            else insertionPoint comparefn pivot work steps' (S mid) right
        | None => left
        end
      else left
  end.

(** One turn of [BinaryInsertionSort]: [pivot] is put into the sorted
    start [work] of the array. *)
Definition binaryInsert {A} (comparefn : A -> A -> float) (work : list A)
    (pivot : A) : list A :=
  let left :=
    insertionPoint comparefn pivot work (length work) 0 (length work) in
  firstn left work ++ pivot :: skipn left work.

Definition sortBy {A} (comparefn : A -> A -> float) (arr : list A) : list A :=
  let '(run, others) := countAndMakeRun comparefn arr in
  fold_left (binaryInsert comparefn) others run.

(** [searchDocuments(query, topK)].  [topK] is a number of results. *)
Definition searchDocuments (vectorStore : VectorStore) (query : jsstring)
    (topK : nat) : Async (list ScoredDocument) :=
  if negb (initialized vectorStore) || (length (documents vectorStore) =? 0)
  then Return []
  else
    tryCatch
      (bind (generateEmbedding query) (fun queryEmbedding =>
         match scoreDocuments vectorStore queryEmbedding with
         | inl e => Throw e
         | inr scored =>
             Return
               (filter (fun d => (0.3 <? score d)%float)
                  (firstn topK (sortBy byScoreDescending scored)))
         end))
      (fun error => Throw error).

(** [buildContext(searchResults)]. *)
Definition buildContext (searchResults : list ScoredDocument) : jsstring :=
  if length searchResults =? 0 then []
  else
    join ([newline; newline] ++ js "---" ++ [newline; newline])
      (map (fun d =>
              js "[Source: " ++ Metadata.pageName (metadata (doc d)) ++ js "]"
              ++ [newline] ++ text (doc d))
         searchResults).

Module Source.
Record t := { pageName : jsstring; url : jsstring; relevanceScore : float }.
End Source.

Record RagContext := {
  context : jsstring;
  sources : list Source.t;
  hasContext : bool
}.

(** [getRelevantContext(query)]. *)
Definition getRelevantContext (vectorStore : VectorStore) (query : jsstring)
    : Async RagContext :=
  bind (searchDocuments vectorStore query 5) (fun searchResults =>
    Return {|
      context := buildContext searchResults;
      sources :=
        map (fun r => {|
               Source.pageName := Metadata.pageName (metadata (doc r));
               Source.url := Metadata.url (metadata (doc r));
               Source.relevanceScore := score r |})
          searchResults;
      hasContext := 0 <? length searchResults
    |}).

(** [getStatus()]. *)
Record Status := {
  status_initialized : bool;
  documentCount : nat;
  status_lastUpdated : option jsstring
}.

Definition getStatus (vectorStore : VectorStore) : Status := {|
  status_initialized := initialized vectorStore;
  documentCount := length (documents vectorStore);
  status_lastUpdated := lastUpdated vectorStore
|}.

End RagService.
Import RagService.

(** ** agentService.js *)

Module AgentService.

Module QA.
(** An entry of [predefinedResponses.questions]. *)
Record t := { question : jsstring; answer : jsstring }.
End QA.

Module Match.
(** The value of [bestMatch].  The confidence is the quotient of two set
    sizes (or the constant [0.5]); it is kept as that exact ratio, and
    the comparisons of the program are made on it.  They agree with the
    comparisons of the rounded quotients as long as the word sets have
    fewer than 2^26 elements. *)
Record t := {
  answer : jsstring;
  matchedQuestion : jsstring;
  confidence : Q
}.
End Match.

Definition Qlt_bool (a b : Q) : bool := negb (Qle_bool b a).

Section Matching.

(** [String.prototype.toLowerCase], the case mapping of the engine. *)
Variable toLowerCase : jsstring -> jsstring.

(** [predefinedResponses.questions], the catalog of
    [data/predefinedResponses.js]. *)
Variable questions : list QA.t.

(** [str.toLowerCase().replace(/[^\w\s]/g, '').split(/\s+/)
       .filter(word => word.length > 2)]. *)
Definition normalize (str : jsstring) : list jsstring :=
  filter (fun word => 2 <? length word)
    (splitWhiteSpace
       (filter (fun c => isWordChar c || isWhiteSpace c) (toLowerCase str))).

(** The loop that counts the words of [words1] that [words2] has. *)
Definition countShared (words1 words2 : list jsstring) : nat :=
  length (filter (arrayIncludes words2) words1).

(** [calculateSimilarity(str1, str2)]. *)
Definition calculateSimilarity (str1 str2 : jsstring) : Q :=
  let words1 := setOf (normalize str1) in
  let words2 := setOf (normalize str2) in
  if (length words1 =? 0) || (length words2 =? 0) then 0%Q
  else
    let intersection := countShared words1 words2 in
    let union := length words1 + length words2 - intersection in
    Qmake (Z.of_nat intersection) (Pos.of_nat union).

Definition SIMILARITY_THRESHOLD : Q := (3 # 10)%Q.

(** The object [keywords], in the order [Object.entries] lists it. *)
Definition keywords : list (jsstring * nat) :=
  [ (js "eva", 0); (js "eligibility", 0); (js "verification", 0);
    (js "cam", 1); (js "claims", 1); (js "processing", 1);
    (js "phil", 2); (js "payment", 2); (js "posting", 2);
    (js "agents", 3); (js "thoughtful", 3);
    (js "benefits", 4); (js "advantages", 4) ].

(** The two variables of [findBestMatch]: [bestMatch] and [highestScore]. *)
Definition Best : Type := option Match.t * Q.

(** One turn of the first loop.  A keyword whose index is past the end
    of the catalog reads [undefined], whose [question] cannot be read. *)
Definition keywordStep (userQuery lowerQuery : jsstring)
    (st : Error + Best) (entry : jsstring * nat) : Error + Best :=
  match st with
  | inl e => inl e
  | inr (bestMatch, highestScore) =>
      let '(keyword, questionIndex) := entry in
      if includes lowerQuery keyword then
        match nth_error questions questionIndex with
        | None =>
            inl (mkError
                   "Cannot read properties of undefined (reading 'question')")
        | Some question =>
            let similarity := calculateSimilarity userQuery (QA.question question) in
            if Qlt_bool highestScore similarity then
              let highestScore' := Qmax similarity (1 # 2) in
              inr (Some {| Match.answer := QA.answer question;
                           Match.matchedQuestion := QA.question question;
                           Match.confidence := highestScore' |},
                   highestScore')
            else inr (bestMatch, highestScore)
        end
      else inr (bestMatch, highestScore)
  end.

(** One turn of the second loop. *)
Definition scanStep (userQuery : jsstring) (st : Best) (qa : QA.t) : Best :=
  let '(bestMatch, highestScore) := st in
  let similarity := calculateSimilarity userQuery (QA.question qa) in
  if Qlt_bool highestScore similarity then
    (Some {| Match.answer := QA.answer qa;
             Match.matchedQuestion := QA.question qa;
             Match.confidence := similarity |},
     similarity)
  else (bestMatch, highestScore).

(** [findBestMatch(userQuery)]. *)
Definition findBestMatch (userQuery : jsstring) : Error + option Match.t :=
  let lowerQuery := toLowerCase userQuery in
  match fold_left (keywordStep userQuery lowerQuery) keywords (inr (None, 0%Q)) with
  | inl e => inl e
  | inr afterKeywords =>
      let '(bestMatch, highestScore) :=
        fold_left (scanStep userQuery) questions afterKeywords in
      if Qle_bool SIMILARITY_THRESHOLD highestScore then inr bestMatch
      else inr None
  end.

End Matching.

(** *** The response waterfall *)

(** A number as an answer carries it: the exact ratio of a word-overlap
    score, or the binary64 value of a relevance score. *)
Inductive number := ratio (q : Q) | double (d : float).

Module Response.
(** The object [getAgentResponse] resolves to: [source] is one of
    ['predefined'], ['rag'] and ['openai'], and [ragSources] is set by the
    retrieval tier only. *)
Record t := {
  answer : jsstring;
  source : jsstring;
  confidence : option number;
  matchedQuestion : option jsstring;
  ragSources : option (list Source.t)
}.
End Response.

Definition basePrompt : jsstring := js
"You are a helpful customer support agent for Thoughtful AI, a company that provides AI-powered automation agents for healthcare revenue cycle management (RCM).

Thoughtful AI is now proudly part of Smarter Technologies.

Our main solutions include:
- Prior Authorization: AI-powered automation of the end-to-end prior authorization process
- Medical Coding: Fine-tuned generative AI for fast and accurate medical coding
- Accounts Receivable: AI that checks status claims, auto-corrects denials, and generates appeal letters
- Payment Posting: Automated reconciliation of payments and posting of remittances

Key benefits:
- 95%+ Accuracy Improvement
- Seamless Full RCM Coverage
- Unlimited Scalability Without Additional Cost
- Continuous Adaption to Regulatory Change
- Predictable and Fast Cash Flow

Be friendly, professional, and helpful. Provide accurate information based on the context provided. If the context doesn't contain relevant information, be honest about it while still trying to help.".

(** The system prompt: the context is added when [ragContext &&
    ragContext.hasContext]. *)
Definition systemPrompt (ragContext : option RagContext) : jsstring :=
  match ragContext with
  | Some c =>
      if hasContext c then
        basePrompt
        ++ [newline; newline]
        ++ js "--- RELEVANT INFORMATION FROM THOUGHTFUL.AI ---" ++ [newline]
        ++ context c ++ [newline]
        ++ js "--- END OF RELEVANT INFORMATION ---" ++ [newline; newline]
        ++ js "Use the above information to provide accurate and detailed responses. Cite specific details when relevant."
      else basePrompt
  | None => basePrompt
  end.

Definition chatMessages (userQuery : jsstring)
    (conversationHistory : list Message) (ragContext : option RagContext)
    : list Message :=
  {| role := js "system"; content := systemPrompt ragContext |}
  :: map (fun msg => {| role := role msg; content := content msg |})
       conversationHistory
  ++ [ {| role := js "user"; content := userQuery |} ].

(** [getOpenAIResponseWithRAG(userQuery, conversationHistory, ragContext)]:
    one chat request; [sources] is [ragContext?.sources || []]. *)
Definition getOpenAIResponseWithRAG (userQuery : jsstring)
    (conversationHistory : list Message) (ragContext : option RagContext)
    : Async (jsstring * list Source.t) :=
  ChatCompletionsCreate
    (chatMessages userQuery conversationHistory ragContext)
    (fun completion =>
       bind (settle completion) (fun content =>
         Return (content,
                 match ragContext with
                 | Some c => sources c
                 | None => []
                 end))).

(** [getOpenAIResponse(userQuery, conversationHistory)]. *)
Definition getOpenAIResponse (userQuery : jsstring)
    (conversationHistory : list Message) : Async jsstring :=
  bind (getOpenAIResponseWithRAG userQuery conversationHistory None)
    (fun result => Return (fst result)).

(** [Math.max(a, b)]: [NaN] if either is, and [+0] above [-0]. *)
Definition max2 (a b : float) : float :=
  if PrimFloat.is_nan a || PrimFloat.is_nan b then nan
  else if (a <? b)%float then b
  else if (b <? a)%float then a
  else if PrimFloat.get_sign a then b else a.

(** [Math.max(...values)], which is [-Infinity] of no value. *)
Definition mathMax (values : list float) : float :=
  fold_left max2 values neg_infinity.

Section Waterfall.

Variable toLowerCase : jsstring -> jsstring.
Variable questions : list QA.t.

(** The last tier: [getOpenAIResponse], tagged ['openai']. *)
Definition fallbackTier (userQuery : jsstring)
    (conversationHistory : list Message) : Async Response.t :=
  bind (getOpenAIResponse userQuery conversationHistory) (fun aiResponse =>
    Return {| Response.answer := aiResponse;
              Response.source := js "openai";
              Response.confidence := None;
              Response.matchedQuestion := None;
              Response.ragSources := None |}).

(** The body of the [try] block of the retrieval tier. *)
Definition ragTier (vectorStore : VectorStore) (userQuery : jsstring)
    (conversationHistory : list Message) : Async Response.t :=
  bind (getRelevantContext vectorStore userQuery) (fun ragContext =>
    bind (getOpenAIResponseWithRAG userQuery conversationHistory
            (Some ragContext))
      (fun ragResponse =>
         Return {|
           Response.answer := fst ragResponse;
           Response.source := if hasContext ragContext then js "rag" else js "openai";
           Response.confidence :=
             if hasContext ragContext
             then Some (double
                    (mathMax (map Source.relevanceScore (sources ragContext)
                              ++ [0%float])))
             else None;
           Response.matchedQuestion := None;
           Response.ragSources := Some (snd ragResponse) |})).

(** What follows the predefined tier: the retrieval tier when the store
    is initialized, whose failure is logged and falls through, then the
    last tier. *)
Definition laterTiers (vectorStore : VectorStore) (userQuery : jsstring)
    (conversationHistory : list Message) : Async Response.t :=
  if isInitialized vectorStore then
    tryCatch (ragTier vectorStore userQuery conversationHistory)
      (fun error => fallbackTier userQuery conversationHistory)
  else fallbackTier userQuery conversationHistory.

(** [getAgentResponse(userQuery, conversationHistory)], reading the
    module variable [vectorStore] of ragService.  Console output is not
    modelled. *)
Definition getAgentResponse (vectorStore : VectorStore)
    (userQuery : jsstring) (conversationHistory : list Message)
    : Async Response.t :=
  match findBestMatch toLowerCase questions userQuery with
  | inl e => Throw e
  | inr None => laterTiers vectorStore userQuery conversationHistory
  | inr (Some predefinedMatch) =>
      if Qlt_bool (6 # 10) (Match.confidence predefinedMatch) then
        Return {|
          Response.answer := Match.answer predefinedMatch;
          Response.source := js "predefined";
          Response.confidence :=
            Some (ratio (Match.confidence predefinedMatch));
          Response.matchedQuestion :=
            Some (Match.matchedQuestion predefinedMatch);
          Response.ragSources := None |}
      else laterTiers vectorStore userQuery conversationHistory
  end.

End Waterfall.

End AgentService.

(** ** knowledgeService.js *)

Module KnowledgeService.

Module Page.
(** What [scrapePage] returns. *)
Record t := {
  pageName : jsstring;
  url : jsstring;
  scrapedAt : jsstring;
  content : list jsstring;
  fullText : jsstring
}.
End Page.

(** What [ingestContent] returns. *)
Record Ingestion := {
  totalPages : nat;
  totalChunks : nat;
  ingestedAt : jsstring
}.

(** The values the promise of [initializeKnowledgeBase] is fulfilled with. *)
Inductive Value :=
| AlreadyInitialized (status : Status)
| InitializedNow (duration : Z) (pagesScraped : nat) (pages : list jsstring)
    (ingestion : Ingestion).

Inductive Settled := Fulfilled (v : Value) | Rejected (e : Error).

(** A promise returned by [performInitialization], named by the rank of
    the call that made it. *)
Definition Promise := nat.

(** The module variables of knowledgeService and of ragService, the number
    of calls of [performInitialization] so far (each one is one round of
    [scrapeAllPages] and [ingestContent]), the calls of
    [initializeKnowledgeBase] that wait for a promise, and the calls whose
    own promise is settled. *)
Record State := {
  vectorStore : VectorStore;
  initializationPromise : option Promise;
  initializationError : option Error;
  performed : nat;
  waiting : list (nat * Promise);
  settled : list (nat * Settled)
}.

Definition initial : State := {|
  vectorStore := emptyStore;
  initializationPromise := None;
  initializationError := None;
  performed := 0;
  waiting := [];
  settled := []
|}.

(** What the collaborators of one round hand back: the pages of
    [scrapeAllPages], the arrays and the result [ingestContent] builds
    from them, and the time the round took. *)
Record Round := {
  scrapedContent : list Page.t;
  ingestedDocuments : list Document;
  ingestedEmbeddings : list (list float);
  ingestionResult : Ingestion;
  elapsed : Z
}.

(** The end of [performInitialization]: no page is an error, raised before
    [ingestContent] is called. *)
Definition performInitializationEnd (r : Round) : Settled :=
  if length (scrapedContent r) =? 0
  then Rejected (mkError "No content was scraped from thoughtful.ai")
  else Fulfilled
         (InitializedNow (elapsed r) (length (scrapedContent r))
            (map Page.pageName (scrapedContent r)) (ingestionResult r)).

(** [initializeKnowledgeBase(force)] up to its [await], for the call
    [caller]: it answers at once, or returns the promise in flight, or
    starts [performInitialization] (which clears the store first when
    forced) and waits for it. *)
Definition call (caller : nat) (force : bool) (s : State) : State :=
  if isInitialized (vectorStore s) && negb force then
    {| vectorStore := vectorStore s;
       initializationPromise := initializationPromise s;
       initializationError := initializationError s;
       performed := performed s;
       waiting := waiting s;
       settled := settled s
                  ++ [(caller, Fulfilled (AlreadyInitialized (getStatus (vectorStore s))))] |}
  else
    match initializationPromise s with
    | Some p =>
        {| vectorStore := vectorStore s;
           initializationPromise := Some p;
           initializationError := initializationError s;
           performed := performed s;
           waiting := waiting s ++ [(caller, p)];
           settled := settled s |}
    | None =>
        let p := performed s in
        {| vectorStore := if force then emptyStore else vectorStore s;
           initializationPromise := Some p;
           initializationError := initializationError s;
           performed := S (performed s);
           waiting := waiting s ++ [(caller, p)];
           settled := settled s |}
    end.

(** [refreshKnowledgeBase()]. *)
Definition refresh (caller : nat) (s : State) : State := call caller true s.

(** The round in flight ends.  [ingestContent] has replaced the store if it
    ran; the promise settles; the call that started the round resumes
    after its [await], records or clears the error and, in [finally],
    clears the handle; every call waiting for the promise settles as the
    promise did.  These run within one turn of the event loop, before any
    other call. *)
Definition finish (r : Round) (s : State) : State :=
  match initializationPromise s with
  | None => s
  | Some p =>
      let outcome := performInitializationEnd r in
      {| vectorStore :=
           match outcome with
           | Fulfilled _ =>
               {| documents := ingestedDocuments r;
                  embeddings := ingestedEmbeddings r;
                  initialized := true;
                  lastUpdated := Some (ingestedAt (ingestionResult r)) |}
           | Rejected _ => vectorStore s
           end;
         initializationPromise := None;
         initializationError :=
           match outcome with
           | Fulfilled _ => None
           | Rejected e => Some e
           end;
         performed := performed s;
         waiting := filter (fun w => negb (snd w =? p)) (waiting s);
         settled :=
           settled s
           ++ map (fun w => (fst w, outcome))
                (filter (fun w => snd w =? p) (waiting s)) |}
  end.

Inductive Event := Call (caller : nat) (force : bool) | Finish (r : Round).

Definition step (s : State) (ev : Event) : State :=
  match ev with
  | Call caller force => call caller force s
  | Finish r => finish r s
  end.

(** The states the service goes through from its start. *)
Definition after (events : list Event) : State := fold_left step events initial.

(** [getKnowledgeBaseStatus()]. *)
Record KnowledgeBaseStatus := {
  kb_initialized : bool;
  kb_documentCount : nat;
  kb_lastUpdated : option jsstring;
  kb_error : option string;
  isInitializing : bool
}.

Definition getKnowledgeBaseStatus (s : State) : KnowledgeBaseStatus :=
  let ragStatus := getStatus (vectorStore s) in
  {| kb_initialized := status_initialized ragStatus;
     kb_documentCount := documentCount ragStatus;
     kb_lastUpdated := status_lastUpdated ragStatus;
     kb_error :=
       match initializationError s with
       | Some (mkError message) => Some message
       | None => None
       end;
     isInitializing :=
       match initializationPromise s with Some _ => true | None => false end |}.

End KnowledgeService.

(** ** scraperService.js *)

Module ScraperService.

(** The callbacks htmlparser2 makes while it reads the markup, in order. *)
Inductive ParserEvent :=
| OpenTag (name : jsstring)
| Text (text : jsstring)
| CloseTag (tagname : jsstring).

Definition tagsToSkip : list jsstring :=
  [js "script"; js "style"; js "nav"; js "footer"; js "header"; js "noscript"].

Definition contentTags : list jsstring :=
  [js "h1"; js "h2"; js "h3"; js "h4"; js "p"; js "li"; js "span"; js "div"; js "a"].

(** The variables the callbacks share. *)
Record Extractor := {
  textParts : list jsstring;
  currentTag : jsstring;
  skipContent : bool;
  currentText : jsstring
}.

Definition start : Extractor := {|
  textParts := [];
  currentTag := [];
  skipContent := false;
  currentText := []
|}.

Section Extraction.

Variable toLowerCase : jsstring -> jsstring.

Definition onopentag (name : jsstring) (x : Extractor) : Extractor :=
  let tag := toLowerCase name in
  {| textParts := textParts x;
     currentTag := tag;
     skipContent := if arrayIncludes tagsToSkip tag then true else skipContent x;
     currentText := [] |}.

Definition ontext (text : jsstring) (x : Extractor) : Extractor :=
  if negb (skipContent x) && arrayIncludes contentTags (currentTag x) then
    let trimmed := trim text in
    if truthy trimmed then
      {| textParts := textParts x;
         currentTag := currentTag x;
         skipContent := skipContent x;
         currentText := currentText x ++ trimmed ++ [space] |}
    else x
  else x.

Definition onclosetag (tagname : jsstring) (x : Extractor) : Extractor :=
  let tag := toLowerCase tagname in
  let trimmedText := trim (currentText x) in
  let minLength :=
    if arrayIncludes [js "h1"; js "h2"; js "h3"; js "h4"] tag then 3 else 10 in
  {| textParts :=
       if truthy trimmedText && (minLength <=? length trimmedText)
       then textParts x ++ [trimmedText]
       else textParts x;
     currentTag := [];
     skipContent := if arrayIncludes tagsToSkip tag then false else skipContent x;
     currentText := [] |}.

Definition handle (x : Extractor) (ev : ParserEvent) : Extractor :=
  match ev with
  | OpenTag name => onopentag name x
  | Text text => ontext text x
  | CloseTag tagname => onclosetag tagname x
  end.

(** [extractTextFromHtml(html)], on the callbacks the parser makes for
    [html]. *)
Definition extractTextFromHtml (events : list ParserEvent) : jsstring :=
  let uniqueTexts := setOf (textParts (fold_left handle events start)) in
  join [newline; newline] uniqueTexts.

End Extraction.

End ScraperService.

(* ================================================================== *)
(** * Part I, continued: the words of the specification, the notions of
      the proofs, and examples *)
(* ================================================================== *)

Import KnowledgeService ScraperService AgentService.

(** ** chunkText *)

(** The characters of the pieces, one more for each piece. *)
Definition spread (pieces : list jsstring) : nat :=
  fold_right (fun p n => S (length p) + n) 0 pieces.

(** What the loop has kept of a sentence: the sentence is in the buffer,
    or what [trim] leaves of it is in a chunk. *)
Definition kept (s : jsstring) (st : list jsstring * jsstring) : Prop :=
  substring s (snd st) \/ exists c, In c (fst st) /\ substring (trim s) c.

(** The buffer a sentence longer than [maxChunkSize] is put in: the
    sentence alone when the buffer before it is empty, and else the seed
    taken from that buffer, a space and the sentence. *)
Definition bufferOf (overlap : Z) (before sentence : jsstring) : jsstring :=
  if truthy before
  then overlapSeed overlap before ++ [space] ++ sentence
  else sentence.

(** ** cosineSimilarity *)

Section DotAndNorm.

Context {T : Type} (A : Arithmetic T).

(** [dot(a, b)], the sum of the products of the entries, and the square
    of the norm, the sum of the squares; [‖a‖] is its square root. *)
Definition dotIn (a b : list T) : T :=
  fold_left (fun acc ab => add A acc (mul A (fst ab) (snd ab)))
    (combine a b) (zero A).

Definition normSquaredIn (a : list T) : T :=
  fold_left (fun acc x => add A acc (mul A x x)) a (zero A).

Definition normIn (a : list T) : T := sqrt A (normSquaredIn a).

End DotAndNorm.

Definition isZeroVector (v : list float) : Prop :=
  Forall (fun x => (x =? 0)%float = true) v.

(** [expect(x).toBeCloseTo(1, 5)]. *)
Definition closeToOne (x : float) : bool :=
  (abs (x - 1) <? 0.000005)%float.

(** ** The matcher in the words of the specification *)

Section MatcherSpecification.

Variable toLowerCase : jsstring -> jsstring.
Variable questions : list QA.t.

(** [normalize(s)], as a set. *)
Definition normalizeSet (s : jsstring) : list jsstring :=
  setOf (normalize toLowerCase s).

Definition intersection (a b : list jsstring) : list jsstring :=
  filter (arrayIncludes b) a.

Definition union (a b : list jsstring) : list jsstring :=
  a ++ filter (fun x => negb (arrayIncludes a x)) b.

(** The Jaccard index of two sets, [0] if either is empty. *)
Definition jaccard (a b : list jsstring) : Q :=
  if (length a =? 0) || (length b =? 0) then 0%Q
  else Qmake (Z.of_nat (length (intersection a b)))
             (Pos.of_nat (length (union a b))).

Definition similarity (a b : jsstring) : Q :=
  jaccard (normalizeSet a) (normalizeSet b).

(** The score of the running best, [0] while there is none. *)
Definition currentScore (best : option Match.t) : Q :=
  match best with
  | Some m => Match.confidence m
  | None => 0%Q
  end.

(** Pass 1, for one entry of the keyword table. *)
Definition keywordPass (query : jsstring) (best : option Match.t)
    (entry : jsstring * nat) : option Match.t :=
  if includes (toLowerCase query) (fst entry) then
    match nth_error questions (snd entry) with
    | Some qa =>
        let s := similarity query (QA.question qa) in
        if Qlt_bool (currentScore best) s
        then Some {| Match.answer := QA.answer qa;
                     Match.matchedQuestion := QA.question qa;
                     Match.confidence := Qmax s (1 # 2) |}
        else best
    | None => best
    end
  else best.

(** Pass 2, for one entry of the catalog. *)
Definition fullScanPass (query : jsstring) (best : option Match.t)
    (qa : QA.t) : option Match.t :=
  let s := similarity query (QA.question qa) in
  if Qlt_bool (currentScore best) s
  then Some {| Match.answer := QA.answer qa;
               Match.matchedQuestion := QA.question qa;
               Match.confidence := s |}
  else best.

(** The two passes, and the final test of the confidence. *)
Definition findBestMatchSpecified (query : jsstring) : option Match.t :=
  let best :=
    fold_left (fullScanPass query) questions
      (fold_left (keywordPass query) keywords None) in
  match best with
  | Some m => if Qle_bool (3 # 10) (Match.confidence m) then Some m else None
  | None => None
  end.

End MatcherSpecification.

(** What the best match is known to be while the loops run: an entry of
    the catalog, with [highestScore] as its confidence, at most [1]. *)
Definition wellFormed (questions : list QA.t) (st : Best) : Prop :=
  match fst st with
  | Some m =>
      snd st = Match.confidence m
      /\ (exists qa, In qa questions
                     /\ Match.matchedQuestion m = QA.question qa
                     /\ Match.answer m = QA.answer qa)
      /\ (Match.confidence m <= 1)%Q
  | None => True
  end.

(** ** getAgentResponse *)

(** The answer of the last tier, for what the chat request came back with. *)
Definition fallbackAnswer (r : Error + jsstring) : Error + Response.t :=
  match r with
  | inl e => inl e
  | inr aiResponse =>
      inr {| Response.answer := aiResponse;
             Response.source := js "openai";
             Response.confidence := None;
             Response.matchedQuestion := None;
             Response.ragSources := None |}
  end.

(** ** searchDocuments *)

Definition signed (s : bool) (x : spec_float) : Prop :=
  (exists m e, x = S754_finite s m e) \/ x = S754_infinity s.

(** Each result has a score that is not below the score of any later one. *)
Definition descending (l : list ScoredDocument) : Prop :=
  StronglySorted (fun a b => (score b <=? score a)%float = true) l.

Definition numeric (d : ScoredDocument) : Prop :=
  PrimFloat.is_nan (score d) = false.

(** What [searchDocuments] returns of the scored documents. *)
Definition ranked (topK : nat) (scored : list ScoredDocument)
    : list ScoredDocument :=
  filter (fun d => (0.3 <? score d)%float)
    (firstn topK (sortBy byScoreDescending scored)).

(** ** extractTextFromHtml *)

(** The specification's reading of the callbacks: the text inside a noise
    element, counted with the noise elements still open, is left out. *)
Fixpoint withoutNoiseText (toLowerCase : jsstring -> jsstring) (noiseOpen : nat)
    (events : list ParserEvent) : list ParserEvent :=
  match events with
  | [] => []
  | OpenTag name :: rest =>
      OpenTag name
      :: withoutNoiseText toLowerCase
           (if arrayIncludes tagsToSkip (toLowerCase name)
            then S noiseOpen else noiseOpen) rest
  | CloseTag tagname :: rest =>
      CloseTag tagname
      :: withoutNoiseText toLowerCase
           (if arrayIncludes tagsToSkip (toLowerCase tagname)
            then pred noiseOpen else noiseOpen) rest
  | Text text :: rest =>
      if 0 <? noiseOpen then withoutNoiseText toLowerCase noiseOpen rest
      else Text text :: withoutNoiseText toLowerCase noiseOpen rest
  end.

(** ** Examples *)

(** A catalog of five questions, for the examples; the development is
    parametric in the catalog. *)
Definition exampleCatalog : list QA.t :=
  [ {| QA.question := js "What does the eligibility verification agent (EVA) do?";
       QA.answer := js "EVA automates the process of verifying a patient's eligibility and benefits information in real-time, eliminating manual data entry errors and reducing claim rejections." |};
    {| QA.question := js "What does the claims processing agent (CAM) do?";
       QA.answer := js "CAM streamlines the submission and management of claims, improving accuracy, reducing manual intervention, and accelerating reimbursements." |};
    {| QA.question := js "How does the payment posting agent (PHIL) work?";
       QA.answer := js "PHIL automates the posting of payments to patient accounts, ensuring fast, accurate reconciliation of payments and reducing administrative burden." |};
    {| QA.question := js "Tell me about Thoughtful AI's Agents.";
       QA.answer := js "Thoughtful AI provides a suite of AI-powered automation agents designed to streamline healthcare processes. These include Eligibility Verification (EVA), Claims Processing (CAM), and Payment Posting (PHIL), among others." |};
    {| QA.question := js "What are the benefits of using Thoughtful AI's agents?";
       QA.answer := js "Using Thoughtful AI's Agents can significantly reduce administrative costs, improve operational efficiency, and reduce errors in critical processes like claims management and payment posting." |} ].

(** A store of two chunks and a few clients, for the examples. *)
Definition exampleStore : VectorStore := {|
  documents :=
    [ {| id := js "Prior Authorization-0";
         text := js "Prior Authorization automates healthcare approval workflows.";
         metadata := {| Metadata.pageName := js "Prior Authorization";
                        Metadata.url := js "https://www.thoughtful.ai/prior-authorization";
                        Metadata.scrapedAt := js "2024-01-01T00:00:00.000Z" |} |};
      {| id := js "Payment Posting-1";
         text := js "Payment Posting handles financial reconciliation.";
         metadata := {| Metadata.pageName := js "Payment Posting";
                        Metadata.url := js "https://www.thoughtful.ai/payment-posting";
                        Metadata.scrapedAt := js "2024-01-01T00:00:00.000Z" |} |} ];
  embeddings := [ [0.6; 0.8]%float; [1; 0]%float ];
  initialized := true;
  lastUpdated := Some (js "2024-01-01T00:00:00.000Z")
|}.

(** A store of five chunks whose scores, for the query embedding [[0; 1]],
    are [0.8], [0], [1], [0.6] and [0.8]. *)
Definition rankedStore : VectorStore := {|
  documents :=
    map (fun name : string =>
           {| id := js name;
              text := js "Thoughtful AI automates the revenue cycle.";
              metadata := {| Metadata.pageName := js "Home";
                             Metadata.url := js "https://www.thoughtful.ai/";
                             Metadata.scrapedAt := js "2024-01-01T00:00:00.000Z" |} |})
      ["Home-0"; "Home-1"; "Home-2"; "Home-3"; "Home-4"]%string;
  embeddings := [ [0.6; 0.8]; [1; 0]; [0; 1]; [0.8; 0.6]; [3; 4] ]%float;
  initialized := true;
  lastUpdated := Some (js "2024-01-01T00:00:00.000Z")
|}.

(** The same chunks with other embeddings, the second one so large that
    its products overflow. *)
Definition overflowStore : VectorStore := {|
  documents := documents rankedStore;
  embeddings := [ [1; 0]; [1e308; 1e308]; [1; 1]; [1; -1]; [3; 1] ]%float;
  initialized := true;
  lastUpdated := Some (js "2024-01-01T00:00:00.000Z")
|}.

(** A client that embeds every text as [[2; 2]]. *)
Definition evenClient : Client unit := {|
  createEmbedding := fun _ w => (inr [2; 2]%float, w);
  createChatCompletion := fun _ w => (inr (js "Mocked OpenAI response"), w)
|}.

(** A client whose embeddings endpoint is down. *)
Definition embeddingsDown : Client unit := {|
  createEmbedding := fun _ w => (inl (mkError "Embedding API error"), w);
  createChatCompletion := fun _ w => (inr (js "Mocked OpenAI response"), w)
|}.

(** A client that embeds every text as [[0; 1]]. *)
Definition steadyClient : Client unit := {|
  createEmbedding := fun _ w => (inr [0; 1]%float, w);
  createChatCompletion := fun _ w => (inr (js "Mocked OpenAI response"), w)
|}.

Definition evaMatch : Match.t := {|
  Match.answer := js "EVA automates the process of verifying a patient's eligibility and benefits information in real-time, eliminating manual data entry errors and reducing claim rejections.";
  Match.matchedQuestion := js "What does the eligibility verification agent (EVA) do?";
  Match.confidence := 7 # 7
|}.

Definition exampleRound : Round := {|
  scrapedContent :=
    [ {| Page.pageName := js "Home";
         Page.url := js "https://www.thoughtful.ai/";
         Page.scrapedAt := js "2024-01-01T00:00:00.000Z";
         Page.content := [js "Thoughtful AI automates healthcare workflows."];
         Page.fullText := js "Thoughtful AI automates healthcare workflows." |} ];
  ingestedDocuments := documents exampleStore;
  ingestedEmbeddings := embeddings exampleStore;
  ingestionResult := {| totalPages := 1; totalChunks := 2;
                        ingestedAt := js "2024-01-01T00:00:00.000Z" |};
  elapsed := 1500
|}.

(** The callbacks for
    [<nav><a href="/">Home Link</a></nav><p>Main page content that is important.</p>]. *)
Definition navigationThenParagraph : list ParserEvent :=
  [ OpenTag (js "nav"); OpenTag (js "a"); Text (js "Home Link");
    CloseTag (js "a"); CloseTag (js "nav");
    OpenTag (js "p"); Text (js "Main page content that is important.");
    CloseTag (js "p") ].

(** The callbacks for
    [<nav><script>var x = 1;</script><p>Hidden navigation text</p></nav>]. *)
Definition scriptInsideNavigation : list ParserEvent :=
  [ OpenTag (js "nav");
    OpenTag (js "script"); Text (js "var x = 1;"); CloseTag (js "script");
    OpenTag (js "p"); Text (js "Hidden navigation text"); CloseTag (js "p");
    CloseTag (js "nav") ].

(* ================================================================== *)
(** * Part I, continued: ingestion, scraping and the server *)
(* ================================================================== *)

(** ** ragService.js: ingestion *)

Module RagIngestion.

(** The digits of a count, as a template literal writes it. *)
Definition numberToString (n : nat) : jsstring :=
  js (NilZero.string_of_uint (Nat.to_uint n)).

(** A [for ... of] loop whose body awaits, over the variables [s] of the
    loop. *)
Fixpoint forEach {A S} (body : S -> A -> Async S) (l : list A) (s : S)
    : Async S :=
  match l with
  | [] => Return s
  | x :: rest => bind (body s x) (forEach body rest)
  end.

(** The variables of [ingestContent]: [documents], [embeddings] and
    [totalChunks]. *)
Definition IngestState : Type := list Document * list (list float) * nat.

(** The body of the innermost loop.  A chunk shorter than 20 is skipped;
    a failure of the request is logged and the chunk is left out.  The
    pause after each request is not modelled. *)
Definition ingestChunk (page : Page.t) (st : IngestState) (chunk : jsstring)
    : Async IngestState :=
  let '(documents, embeddings, totalChunks) := st in
  if length chunk <? 20 then Return st
  else
    tryCatch
      (bind (generateEmbedding chunk) (fun embedding =>
         Return
           (documents
            ++ [ {| id := Page.pageName page ++ js "-"
                          ++ numberToString totalChunks;
                    text := chunk;
                    metadata :=
                      {| Metadata.pageName := Page.pageName page;
                         Metadata.url := Page.url page;
                         Metadata.scrapedAt := Page.scrapedAt page |} |} ],
            embeddings ++ [embedding],
            S totalChunks)))
      (fun error => Return st).

Definition ingestItem (page : Page.t) (st : IngestState)
    (contentItem : jsstring) : Async IngestState :=
  forEach (ingestChunk page) (chunkTextDefault contentItem) st.

Definition ingestPage (st : IngestState) (page : Page.t) : Async IngestState :=
  forEach (ingestItem page) (Page.content page) st.

(** The three loops of [ingestContent]. *)
Definition ingestLoop (scrapedPages : list Page.t) : Async IngestState :=
  forEach ingestPage scrapedPages ([], [], 0).

(** The end of [ingestContent]: the new value of [vectorStore] and the
    statistics returned, [now] being [new Date().toISOString()]. *)
Definition ingested (now : jsstring) (scrapedPages : list Page.t)
    (st : IngestState) : VectorStore * Ingestion :=
  let '(documents, embeddings, totalChunks) := st in
  ({| documents := documents;
      embeddings := embeddings;
      initialized := true;
      lastUpdated := Some now |},
   {| totalPages := length scrapedPages;
      totalChunks := totalChunks;
      ingestedAt := now |}).

(** [ingestContent(scrapedPages)]: the store it assigns to [vectorStore]
    and the statistics it returns. *)
Definition ingestContent (now : jsstring) (scrapedPages : list Page.t)
    : Async (VectorStore * Ingestion) :=
  bind (ingestLoop scrapedPages) (fun st =>
    Return (ingested now scrapedPages st)).

(** [clearVectorStore()]. *)
Definition clearVectorStore : VectorStore := emptyStore.

(** The chunks [ingestContent] asks an embedding for, in order. *)
Definition eligibleChunks (scrapedPages : list Page.t) : list jsstring :=
  flat_map (fun page =>
    flat_map (fun contentItem =>
      filter (fun chunk => negb (length chunk <? 20))
        (chunkTextDefault contentItem))
      (Page.content page))
    scrapedPages.

End RagIngestion.
Import RagIngestion.

(** ** scraperService.js: pages *)

Module ScraperPages.

(** [s.split(separator)] for a separator that is not empty: [skip] counts
    the characters of a separator still to pass. *)
Fixpoint splitFrom (separator : jsstring) (skip : nat) (s : jsstring)
    : list jsstring :=
  match s with
  | [] => [[]]
  | c :: r =>
      match skip with
      | S k => splitFrom separator k r
      | 0 =>
          if startsWith separator s
          then [] :: splitFrom separator (length separator - 1) r
          else consHead c (splitFrom separator 0 r)
      end
  end.

Definition splitString (separator s : jsstring) : list jsstring :=
  splitFrom separator 0 s.

(** [parseContent(content, pageName, url)], [now] being
    [new Date().toISOString()]. *)
Definition parseContent (now : jsstring) (content pageName url : jsstring)
    : Page.t :=
  let chunks :=
    filter (fun chunk => 20 <? length (trim chunk))
      (splitString [newline; newline] content) in
  {| Page.pageName := pageName;
     Page.url := url;
     Page.scrapedAt := now;
     Page.content := chunks;
     Page.fullText := content |}.

(** [PAGES_TO_SCRAPE], as pairs of [url] and [name]. *)
Definition PAGES_TO_SCRAPE : list (jsstring * jsstring) :=
  [ (js "https://www.thoughtful.ai/", js "Home");
    (js "https://www.thoughtful.ai/prior-authorization", js "Prior Authorization");
    (js "https://www.thoughtful.ai/accounts-receivable", js "Accounts Receivable");
    (js "https://www.thoughtful.ai/payment-posting", js "Payment Posting");
    (js "https://www.thoughtful.ai/about", js "About");
    (js "https://www.thoughtful.ai/trust-and-security", js "Trust and Security") ].

(** The outside world of the scraper: [axios.get(url, ...)], which answers
    with the markup in [response.data] or is rejected, and the clock. *)
Record Web (W : Type) := {
  get : jsstring -> W -> (Error + jsstring) * W;
  toISOString : W -> jsstring;
  dateNow : W -> Z
}.

Section Scraping.

Variable toLowerCase : jsstring -> jsstring.

(** htmlparser2: the callbacks it makes for a markup. *)
Variable parse : jsstring -> list ParserEvent.

Context {W : Type} (web : Web W).

(** [scrapePage(url, pageName)]: the error of the request is logged and
    thrown again. *)
Definition scrapePage (url pageName : jsstring) (w : W)
    : (Error + Page.t) * W :=
  let '(response, w1) := get web url w in
  match response with
  | inl error => (inl error, w1)
  | inr html =>
      let textContent := extractTextFromHtml toLowerCase (parse html) in
      (inr (parseContent (toISOString web w1) textContent pageName url), w1)
  end.

(** One turn of the loop of [scrapeAllPages], on [results], the world and
    the addresses asked for so far.  The pause after a page is not
    modelled. *)
Definition scrapeStep (st : list Page.t * W * list jsstring)
    (page : jsstring * jsstring) : list Page.t * W * list jsstring :=
  let '(results, w, asked) := st in
  let '(outcome, w1) := scrapePage (fst page) (snd page) w in
  (match outcome with
   | inr content => results ++ [content]
   | inl error => results
   end, w1, asked ++ [fst page]).

Definition scrapePages (pages : list (jsstring * jsstring)) (w : W)
    : list Page.t * W * list jsstring :=
  fold_left scrapeStep pages ([], w, []).

(** [scrapeAllPages()]. *)
Definition scrapeAllPages (w : W) : list Page.t * W * list jsstring :=
  scrapePages PAGES_TO_SCRAPE w.

(** [performInitialization(force)] of knowledgeService.js, on the value of
    [vectorStore]: the outcome, the store and the world it leaves, and the
    requests made to the OpenAI client. *)
Definition performInitialization (client : Client W) (force : bool)
    (vectorStore : VectorStore) (w : W)
    : (Error + Value) * VectorStore * W * list Request :=
  let startTime := dateNow web w in
  let cleared := if force then clearVectorStore else vectorStore in
  let '(scrapedContent, w1, _) := scrapeAllPages w in
  if length scrapedContent =? 0 then
    (inl (mkError "No content was scraped from thoughtful.ai"), cleared, w1, [])
  else
    let '(outcome, w2, requests) := run client (ingestLoop scrapedContent) w1 in
    match outcome with
    | inl error => (inl error, cleared, w2, requests)
    | inr st =>
        let '(store, ingestionResult) :=
          ingested (toISOString web w2) scrapedContent st in
        (inr (InitializedNow (dateNow web w2 - startTime)
                (length scrapedContent)
                (map Page.pageName scrapedContent) ingestionResult),
         store, w2, requests)
    end.

End Scraping.

End ScraperPages.
Import ScraperPages.

(** ** index.js: the chat endpoint *)

Module Server.

(** The field [message] of the body of a request: a string, or any other
    value ([undefined], [null], a number, ...). *)
Inductive Field := NotAString | AString (s : jsstring).

(** The bodies the chat endpoint answers with. *)
Inductive Reply :=
| Unavailable (error message : jsstring) (status : KnowledgeBaseStatus)
| Refused (error message : jsstring)
| Answered (success : bool) (data : Response.t).

(** A status code and a body. *)
Definition HttpResponse : Type := nat * Reply.

Section Chat.

Variable toLowerCase : jsstring -> jsstring.
Variable questions : list QA.t.

(** The handler of [POST /api/chat], on the state of knowledgeService and
    ragService when the request arrives; [conversationHistory] is an array
    of messages, empty when the body has none. *)
Definition postChat (s : State) (message : Field)
    (conversationHistory : list Message) : Async HttpResponse :=
  tryCatch
    (if negb (isInitialized (vectorStore s)) then
       Return (503,
               Unavailable (js "Service Unavailable")
                 (js "Knowledge base is still initializing. Please try again in a moment.")
                 (getKnowledgeBaseStatus s))
     else
       match message with
       | NotAString =>
           Return (400, Refused (js "Invalid input")
                          (js "Please provide a valid message"))
       | AString text =>
           if negb (truthy text) || negb (truthy (trim text)) then
             Return (400, Refused (js "Invalid input")
                            (js "Please provide a valid message"))
           else
             bind (getAgentResponse toLowerCase questions (vectorStore s)
                     (trim text) conversationHistory)
               (fun response => Return (200, Answered true response))
       end)
    (fun error =>
       Return (500, Refused (js "Internal server error")
                      (js "Failed to process your request. Please try again."))).

End Chat.

End Server.
Import Server.

(** ** Notions of the proofs *)

(** The request [generateEmbedding(text)] makes. *)
Definition embeddingRequest (text : jsstring) : Request :=
  EmbeddingRequest (firstn (Z.to_nat 8000) text).

(** The document [ingestContent] makes of a chunk of a page, for the place
    [k] of the store. *)
Definition documentOf (scrapedPages : list Page.t) (k : nat) (d : Document)
    : Prop :=
  exists page contentItem,
    In page scrapedPages
    /\ In contentItem (Page.content page)
    /\ In (text d) (chunkTextDefault contentItem)
    /\ 20 <= length (text d)
    /\ id d = Page.pageName page ++ js "-" ++ numberToString k
    /\ metadata d
       = {| Metadata.pageName := Page.pageName page;
            Metadata.url := Page.url page;
            Metadata.scrapedAt := Page.scrapedAt page |}.

(** The client has answered the request for [text] with [embedding]. *)
Definition answeredBy {W} (c : Client W) (text : jsstring)
    (embedding : list float) : Prop :=
  exists w w', createEmbedding c (firstn (Z.to_nat 8000) text) w
               = (inr embedding, w').

(** What the loops of [ingestContent] keep true of their variables. *)
Definition ingestInvariant {W} (c : Client W) (scrapedPages : list Page.t)
    (st : IngestState) : Prop :=
  let '(documents, embeddings, totalChunks) := st in
  length documents = totalChunks
  /\ length embeddings = totalChunks
  /\ forall k d, nth_error documents k = Some d ->
       documentOf scrapedPages k d
       /\ exists e, nth_error embeddings k = Some e /\ answeredBy c (text d) e.

(** The two strings have a word in common, after [normalize]. *)
Definition sharesWord (toLowerCase : jsstring -> jsstring) (a b : jsstring)
    : Prop :=
  exists word,
    In word (normalize toLowerCase a) /\ In word (normalize toLowerCase b).

(** What the two loops of [findBestMatch] keep true of [bestMatch] and
    [highestScore] for a query: the score is [0] while there is no match,
    and after that it is the confidence of the match, whose question has a
    positive similarity with the query, at most the confidence. *)
Definition tracked (toLowerCase : jsstring -> jsstring) (query : jsstring)
    (st : Best) : Prop :=
  match fst st with
  | Some m =>
      snd st = Match.confidence m
      /\ (0 < calculateSimilarity toLowerCase query (Match.matchedQuestion m)
          <= Match.confidence m)%Q
  | None => snd st = 0%Q
  end.

(** The object [getRelevantContext] makes of the results of a search. *)
Definition contextOf (searchResults : list ScoredDocument) : RagContext := {|
  context := buildContext searchResults;
  sources :=
    map (fun r => {|
           Source.pageName := Metadata.pageName (metadata (doc r));
           Source.url := Metadata.url (metadata (doc r));
           Source.relevanceScore := score r |})
      searchResults;
  hasContext := 0 <? length searchResults
|}.

(** The answer of the retrieval tier, for a context and what the chat
    request came back with. *)
Definition ragAnswer (ragContext : RagContext) (r : Error + jsstring)
    : Error + Response.t :=
  match r with
  | inl e => inl e
  | inr content =>
      inr {| Response.answer := content;
             Response.source :=
               if hasContext ragContext then js "rag" else js "openai";
             Response.confidence :=
               if hasContext ragContext
               then Some (double
                      (mathMax (map Source.relevanceScore (sources ragContext)
                                ++ [0%float])))
               else None;
             Response.matchedQuestion := None;
             Response.ragSources := Some (sources ragContext) |}
  end.

(** The chat request of a query, a history and a context. *)
Definition chatRequest (userQuery : jsstring)
    (conversationHistory : list Message) (ragContext : option RagContext)
    : Request :=
  ChatRequest (chatMessages userQuery conversationHistory ragContext).

(** The calls of [initializeKnowledgeBase] among the events. *)
Definition callsOf (events : list Event) : list nat :=
  flat_map (fun ev =>
              match ev with
              | Call caller _ => [caller]
              | Finish _ => []
              end) events.

(** Calls of [initializeKnowledgeBase(false)], one after the other. *)
Definition callAll (callers : list nat) (s : State) : State :=
  fold_left (fun st caller => call caller false st) callers s.

(** *** extractTextFromHtml *)

Section ElementText.

Variable toLowerCase : jsstring -> jsstring.

(** The variables the callbacks share, after the callbacks for [events]. *)
Definition extractor (events : list ParserEvent) : Extractor :=
  fold_left (handle toLowerCase) events start.

(** What [ontext] adds to [currentText] for the texts of an element. *)
Definition spaced (texts : list jsstring) : jsstring :=
  flat_map (fun text => if truthy (trim text) then trim text ++ [space] else [])
    texts.

(** An open tag or an end tag of one of the tags to skip. *)
Definition skippedTag (ev : ParserEvent) : bool :=
  match ev with
  | OpenTag name => arrayIncludes tagsToSkip (toLowerCase name)
  | CloseTag tagname => arrayIncludes tagsToSkip (toLowerCase tagname)
  | Text _ => false
  end.

(** The last of the tags to skip among [events] is an open tag.  Which
    element an end tag closes is not looked at: after
    [<nav><script></script>] the last tag to skip is an end tag, though
    the element [nav] is still open. *)
Definition skipping (events : list ParserEvent) : bool :=
  match find skippedTag (rev events) with
  | Some (OpenTag _) => true
  | _ => false
  end.

(** [part] is the text of an element of [events]: a content tag opens
    when the last of the tags to skip before it, if there is one, is an
    end tag; texts and nothing else follow up to the end of an element;
    and their trimmed pieces, a space after each, are [part] once trimmed,
    which is as long as the end tag asks for. *)
Definition elementText (events : list ParserEvent) (part : jsstring) : Prop :=
  exists before name texts tagname rest,
    events = before ++ OpenTag name :: map Text texts ++ CloseTag tagname :: rest
    /\ skipping before = false
    /\ arrayIncludes contentTags (toLowerCase name) = true
    /\ part = trim (spaced texts)
    /\ (if arrayIncludes [js "h1"; js "h2"; js "h3"; js "h4"] (toLowerCase tagname)
        then 3 else 10) <= length part.

End ElementText.

(** *** scrapeAllPages *)

(** [l1] is [l2] with some of its elements left out. *)
Inductive Subsequence {A : Type} : list A -> list A -> Prop :=
| Subsequence_nil : Subsequence [] []
| Subsequence_skip (x : A) (l1 l2 : list A) :
    Subsequence l1 l2 -> Subsequence l1 (x :: l2)
| Subsequence_keep (x : A) (l1 l2 : list A) :
    Subsequence l1 l2 -> Subsequence (x :: l1) (x :: l2).

(** The entry of [PAGES_TO_SCRAPE] a page was scraped for. *)
Definition entryOf (page : Page.t) : jsstring * jsstring :=
  (Page.url page, Page.pageName page).

(** [page] is what [scrapePage] makes of an answer to the request for its
    address. *)
Definition scrapedFrom {W : Type} (toLowerCase : jsstring -> jsstring)
    (parse : jsstring -> list ParserEvent) (web : Web W) (page : Page.t)
    : Prop :=
  exists v html v',
    get web (Page.url page) v = (inr html, v')
    /\ page = parseContent (toISOString web v')
                (extractTextFromHtml toLowerCase (parse html))
                (Page.pageName page) (Page.url page).

(** The answers to the requests for [urls], made one after the other,
    each with the world it leaves. *)
Fixpoint answersTo {W : Type} (web : Web W) (urls : list jsstring) (w : W)
    : list ((Error + jsstring) * W) :=
  match urls with
  | [] => []
  | url :: rest =>
      let '(response, w1) := get web url w in
      (response, w1) :: answersTo web rest w1
  end.

(** The pages [scrapePage] makes for the entries of [pages] whose request
    was answered, in the order of the entries; [answers] has the answer to
    the request of each entry. *)
Definition pagesOf {W : Type} (toLowerCase : jsstring -> jsstring)
    (parse : jsstring -> list ParserEvent) (web : Web W)
    (pages : list (jsstring * jsstring))
    (answers : list ((Error + jsstring) * W)) : list Page.t :=
  flat_map (fun entryAnswer : (jsstring * jsstring) * ((Error + jsstring) * W) =>
              match fst (snd entryAnswer) with
              | inr html =>
                  [parseContent (toISOString web (snd (snd entryAnswer)))
                     (extractTextFromHtml toLowerCase (parse html))
                     (snd (fst entryAnswer)) (fst (fst entryAnswer))]
              | inl _ => []
              end)
    (combine pages answers).

(** *** chunkText *)

(** The string has a character that is not whitespace. *)
Definition solid (s : jsstring) : bool :=
  existsb (fun c => negb (isWhiteSpace c)) s.

(** *** Examples of the scraper *)

(** The callbacks of the examples: the markup is read as the text of one
    paragraph. *)
Definition paragraphOf (html : jsstring) : list ParserEvent :=
  [OpenTag (js "p"); Text html; CloseTag (js "p")].

(** A site that answers every request but the one for the page "About". *)
Definition aboutMissing : Web unit := {|
  get := fun url w =>
    if str_eqb url (js "https://www.thoughtful.ai/about")
    then (inl (mkError "Request failed with status code 404"), w)
    else (inr (js "Thoughtful AI automates the revenue cycle."), w);
  toISOString := fun _ => js "2024-01-01T00:00:00.000Z";
  dateNow := fun _ => 0%Z
|}.

(* ================================================================== *)
(** * Part II: properties *)
(* ================================================================== *)

Unset Implicit Arguments.

(** ** Strings *)

Section StringFacts.

Lemma dropWhile_suffix {A} (p : A -> bool) (l : list A) :
  exists l0, l = l0 ++ dropWhile p l /\ forallb p l0 = true.
Proof.
  induction l as [|x l IH]; simpl.
  - exists []. auto.
  - destruct (p x) eqn:Hx.
    + destruct IH as (l0 & E & F). exists (x :: l0). simpl.
      rewrite Hx, F. split; [congruence | reflexivity].
    + exists []. auto.
Qed.

Lemma dropWhile_head {A} (p : A -> bool) (l : list A) x r :
  dropWhile p l = x :: r -> p x = false.
Proof.
  induction l as [|y l IH]; simpl; [discriminate|].
  destruct (p y) eqn:Hy; [exact IH|].
  intros E. injection E as -> _. exact Hy.
Qed.

Lemma dropWhile_nil {A} (p : A -> bool) (l : list A) :
  dropWhile p l = [] <-> forallb p l = true.
Proof.
  induction l as [|y l IH]; simpl; [tauto|].
  destruct (p y); simpl; [exact IH|]. split; discriminate.
Qed.

Lemma dropWhile_app_stop {A} (p : A -> bool) (a : list A) x t :
  p x = false -> dropWhile p (a ++ x :: t) = dropWhile p a ++ x :: t.
Proof.
  intros Hx. induction a as [|y a IH]; simpl.
  - now rewrite Hx.
  - destruct (p y); [exact IH | reflexivity].
Qed.

Lemma forallb_rev {A} (p : A -> bool) (l : list A) :
  forallb p (rev l) = forallb p l.
Proof.
  induction l as [|x l IH]; simpl; [reflexivity|].
  rewrite forallb_app, IH. simpl. rewrite andb_true_r. apply andb_comm.
Qed.

(** A trimmed string sits inside the string. *)
Lemma trim_inside (s : jsstring) : exists l r, s = l ++ trim s ++ r.
Proof.
  unfold trim, trimEnd, trimStart.
  destruct (dropWhile_suffix isWhiteSpace s) as (l & El & _).
  destruct (dropWhile_suffix isWhiteSpace (rev (dropWhile isWhiteSpace s)))
    as (r & Er & _).
  exists l, (rev r).
  rewrite El at 1. f_equal.
  rewrite <- rev_app_distr, <- Er. now rewrite rev_involutive.
Qed.

(** What [trim] leaves starts and ends with a character it does not
    remove. *)
Lemma trim_first (s : jsstring) x t :
  trim s = x :: t -> isWhiteSpace x = false.
Proof.
  unfold trim, trimEnd, trimStart. intros E.
  destruct (dropWhile_suffix isWhiteSpace (rev (dropWhile isWhiteSpace s)))
    as (r & Er & _).
  apply (f_equal (@rev char)) in Er. rewrite rev_involutive, rev_app_distr in Er.
  rewrite E in Er. simpl in Er.
  exact (dropWhile_head _ _ _ _ Er).
Qed.

Lemma trim_last (s : jsstring) t y :
  trim s = t ++ [y] -> isWhiteSpace y = false.
Proof.
  unfold trim, trimEnd. intros E.
  apply (f_equal (@rev char)) in E.
  rewrite rev_involutive, rev_app_distr in E. simpl in E.
  exact (dropWhile_head _ _ _ _ E).
Qed.

Lemma trim_nil (s : jsstring) :
  trim s = [] <-> forallb isWhiteSpace s = true.
Proof.
  unfold trim, trimEnd, trimStart. split.
  - intros E. apply (f_equal (@rev char)) in E.
    rewrite rev_involutive in E. simpl in E.
    apply dropWhile_nil in E. rewrite forallb_rev in E.
    destruct (dropWhile isWhiteSpace s) as [|x r] eqn:D.
    + now apply dropWhile_nil.
    + apply dropWhile_head in D. simpl in E. rewrite D in E. discriminate.
  - intros F. apply dropWhile_nil in F. now rewrite F.
Qed.

Lemma trim_has_char (s : jsstring) c :
  In c s -> isWhiteSpace c = false -> trim s <> [].
Proof.
  intros Hin Hc E. apply trim_nil in E.
  rewrite forallb_forall in E. specialize (E c Hin). congruence.
Qed.

(** Trimming a string does not reach into a run that starts and ends
    with characters [trim] keeps. *)
Lemma trim_around (a b t : jsstring) x t1 t2 y :
  t = x :: t1 -> t = t2 ++ [y] ->
  isWhiteSpace x = false -> isWhiteSpace y = false ->
  trim (a ++ t ++ b)
  = dropWhile isWhiteSpace a ++ t ++ rev (dropWhile isWhiteSpace (rev b)).
Proof.
  intros E1 E2 Hx Hy. unfold trim, trimEnd, trimStart.
  assert (S1 : dropWhile isWhiteSpace (a ++ t ++ b)
               = dropWhile isWhiteSpace a ++ t ++ b).
  { rewrite E1. simpl. now apply dropWhile_app_stop. }
  assert (S2 : rev (dropWhile isWhiteSpace a ++ t ++ b)
               = rev b ++ y :: (rev t2 ++ rev (dropWhile isWhiteSpace a))).
  { rewrite E2, !rev_app_distr. simpl. now rewrite <- !app_assoc. }
  rewrite S1, S2, (dropWhile_app_stop _ _ _ _ Hy).
  rewrite rev_app_distr. simpl. rewrite rev_app_distr, !rev_involutive.
  rewrite E2. now rewrite <- !app_assoc.
Qed.

Lemma nonempty_ends {A} (t : list A) :
  t <> [] -> (exists x t1, t = x :: t1) /\ (exists t2 y, t = t2 ++ [y]).
Proof.
  intros H. split.
  - destruct t as [|x t1]; [contradiction|]. eauto.
  - destruct (exists_last H) as (t2 & y & E). eauto.
Qed.

Lemma substring_trim (s c : jsstring) :
  substring s c -> trim s <> [] -> substring (trim s) (trim c).
Proof.
  intros (a & b & Ec) Hne.
  destruct (trim_inside s) as (l & r & Es).
  destruct (nonempty_ends _ Hne) as ((x & t1 & E1) & (t2 & y & E2)).
  assert (Ec' : c = (a ++ l) ++ trim s ++ (r ++ b)).
  { rewrite Ec. rewrite Es at 1. now rewrite <- !app_assoc. }
  rewrite Ec'.
  rewrite (trim_around (a ++ l) (r ++ b) _ _ _ _ _ E1 E2
             (trim_first _ _ _ E1) (trim_last _ _ _ E2)).
  now eexists _, _.
Qed.

Lemma substring_nonempty_trim (s c : jsstring) :
  substring s c -> trim s <> [] -> trim c <> [].
Proof.
  intros Hs Hne.
  destruct (substring_trim _ _ Hs Hne) as (a & b & E). rewrite E.
  destruct (trim s); [contradiction|]. now destruct a.
Qed.

Lemma truthy_true (s : jsstring) : truthy s = true <-> s <> [].
Proof. destruct s; simpl; split; congruence. Qed.

Lemma whitespace_not_sentence_end (c : char) :
  isWhiteSpace c = true -> isSentenceEnd c = false.
Proof.
  intros W. destruct (isSentenceEnd c) eqn:E; [|reflexivity].
  unfold isSentenceEnd in E. simpl in E.
  repeat (apply orb_prop in E; destruct E as [E|E]);
    try discriminate; apply N.eqb_eq in E; subst c; discriminate.
Qed.

End StringFacts.

(** ** chunkText *)

Section SplitFacts.

Lemma splitSentencesFrom_nonempty st s : splitSentencesFrom st s <> [].
Proof.
  revert st. induction s as [|c r IH]; intros st; simpl; [discriminate|].
  destruct st as [|afterEnd].
  - destruct (isWhiteSpace c); [apply IH|].
    specialize (IH (InSentence (isSentenceEnd c))).
    destruct (splitSentencesFrom _ r); simpl; discriminate.
  - destruct (afterEnd && isWhiteSpace c); [discriminate|].
    specialize (IH (InSentence (isSentenceEnd c))).
    destruct (splitSentencesFrom _ r); simpl; discriminate.
Qed.

Lemma spread_consHead c ps : ps <> [] -> spread (consHead c ps) = S (spread ps).
Proof. destruct ps; [contradiction | reflexivity]. Qed.

(** A separator takes at least one character of the text. *)
Lemma splitSentencesFrom_spread st s :
  spread (splitSentencesFrom st s) <= S (length s).
Proof.
  revert st. induction s as [|c r IH]; intros st; simpl; [lia|].
  destruct st as [|afterEnd].
  - destruct (isWhiteSpace c).
    + specialize (IH InSeparator). lia.
    + rewrite spread_consHead by apply splitSentencesFrom_nonempty.
      specialize (IH (InSentence (isSentenceEnd c))). lia.
  - destruct (afterEnd && isWhiteSpace c).
    + simpl. specialize (IH InSeparator). lia.
    + rewrite spread_consHead by apply splitSentencesFrom_nonempty.
      specialize (IH (InSentence (isSentenceEnd c))). lia.
Qed.

Lemma consHead_keeps c ps p x : In p ps -> In x p -> exists q, In q (consHead c ps) /\ In x q.
Proof.
  destruct ps as [|p0 r]; [contradiction|]. simpl.
  intros [->|Hp] Hx.
  - exists (c :: p). simpl. auto.
  - exists p. auto.
Qed.

(** Splitting removes whitespace only. *)
Lemma splitSentencesFrom_keeps st s x :
  In x s -> isWhiteSpace x = false ->
  exists p, In p (splitSentencesFrom st s) /\ In x p.
Proof.
  revert st. induction s as [|c r IH]; intros st Hin Hx; [contradiction|].
  assert (Hhead : forall st', c = x ->
            exists p, In p (consHead c (splitSentencesFrom st' r)) /\ In x p).
  { intros st' ->.
    pose proof (splitSentencesFrom_nonempty st' r) as Hne.
    destruct (splitSentencesFrom st' r) as [|p0 ps]; [contradiction|].
    exists (x :: p0). simpl. auto. }
  assert (Htail : forall st', In x r ->
            exists p, In p (consHead c (splitSentencesFrom st' r)) /\ In x p).
  { intros st' Hr. destruct (IH st' Hr Hx) as (p & Hp & Hxp).
    now apply consHead_keeps with p. }
  simpl. destruct st as [|afterEnd].
  - destruct (isWhiteSpace c) eqn:Hc.
    + destruct Hin as [->|Hr]; [congruence|]. now apply IH.
    + destruct Hin as [E|Hr]; [now apply Hhead | now apply Htail].
  - destruct (afterEnd && isWhiteSpace c) eqn:Hc.
    + apply andb_prop in Hc. destruct Hc as [_ Hc].
      destruct Hin as [->|Hr]; [congruence|].
      destruct (IH InSeparator Hr Hx) as (p & Hp & Hxp).
      exists p. simpl. auto.
    + destruct Hin as [E|Hr]; [now apply Hhead | now apply Htail].
Qed.

(** A text of whitespace has no sentence boundary. *)
Lemma splitSentences_whitespace s :
  forallb isWhiteSpace s = true -> splitSentences s = [s].
Proof.
  unfold splitSentences. induction s as [|c r IH]; simpl; [reflexivity|].
  intros H. apply andb_prop in H. destruct H as [Hc Hr].
  rewrite (whitespace_not_sentence_end c Hc), (IH Hr). reflexivity.
Qed.

(** Only the empty text starts with an empty sentence. *)
Lemma splitSentences_head_empty s l : splitSentences s = [] :: l -> s = [].
Proof.
  unfold splitSentences. destruct s as [|c r]; [reflexivity|]. simpl.
  pose proof (splitSentencesFrom_nonempty (InSentence (isSentenceEnd c)) r) as Hne.
  destruct (splitSentencesFrom _ r); [contradiction | discriminate].
Qed.

Lemma join_cons (sep p : jsstring) (l : list jsstring) :
  join sep (p :: l) = p ++ concat (map (fun q => sep ++ q) l).
Proof.
  revert p. induction l as [|q l IH]; intros p.
  - simpl. now rewrite app_nil_r.
  - change (join sep (p :: q :: l)) with (p ++ sep ++ join sep (q :: l)).
    rewrite IH. simpl. now rewrite <- app_assoc.
Qed.

Lemma join_keeps (sep : jsstring) (l : list jsstring) p x :
  In p l -> In x p -> In x (join sep l).
Proof.
  induction l as [|q l IH]; [contradiction|].
  intros Hp Hx. destruct l as [|q' l'].
  - destruct Hp as [->|[]]. exact Hx.
  - change (join sep (q :: q' :: l')) with (q ++ sep ++ join sep (q' :: l')).
    destruct Hp as [->|Hp].
    + apply in_or_app. now left.
    + apply in_or_app. right. apply in_or_app. right. now apply IH.
Qed.

End SplitFacts.

Section ChunkFacts.

Variables maxChunkSize overlap : Z.

Local Abbreviation step := (chunkStep maxChunkSize overlap).
Local Abbreviation loop := (chunkLoop maxChunkSize overlap).

Lemma chunkStep_keeps_new st x : kept x (step st x).
Proof.
  destruct st as [chunks cur]. unfold chunkStep, kept. left.
  destruct (_ && _); simpl.
  - now exists (overlapSeed overlap cur ++ [space]), []; rewrite app_nil_r, <- app_assoc.
  - exists (cur ++ (if truthy cur then [space] else [])), [].
    now rewrite app_nil_r, <- app_assoc.
Qed.

Lemma chunkStep_keeps_old s st x :
  trim s <> [] -> kept s st -> kept s (step st x).
Proof.
  destruct st as [chunks cur]. unfold chunkStep, kept. simpl.
  intros Hne [Hcur | (c & Hc & Hs)]; destruct (_ && _); simpl.
  - right. exists (trim cur). split; [apply in_or_app; simpl; auto|].
    now apply substring_trim.
  - left. destruct Hcur as (a & b & E).
    exists a, (b ++ (if truthy cur then [space] else []) ++ x).
    rewrite E. now rewrite <- !app_assoc.
  - right. exists c. split; [apply in_or_app; auto | exact Hs].
  - right. now exists c.
Qed.

Lemma chunkLoop_keeps_old s l st :
  trim s <> [] -> kept s st -> kept s (loop l st).
Proof.
  intros Hne. revert st. unfold chunkLoop.
  induction l as [|x l IH]; intros st H; simpl; [exact H|].
  apply IH. now apply chunkStep_keeps_old.
Qed.

Lemma chunkLoop_keeps s l st :
  In s l -> trim s <> [] -> kept s (loop l st).
Proof.
  intros Hin Hne. revert st. unfold chunkLoop.
  induction l as [|x l IH]; intros st; [contradiction|]. simpl.
  destruct Hin as [->|Hin].
  - apply (chunkLoop_keeps_old s l _ Hne). apply chunkStep_keeps_new.
  - now apply IH.
Qed.

(** A chunk, once pushed, stays. *)
Lemma chunkLoop_grows c l st : In c (fst st) -> In c (fst (loop l st)).
Proof.
  revert st. unfold chunkLoop.
  induction l as [|x l IH]; intros st H; simpl; [exact H|].
  apply IH. destruct st as [chunks cur]. unfold chunkStep.
  destruct (_ && _); simpl; [apply in_or_app; auto | exact H].
Qed.

Lemma chunkText_has_chunks text c :
  In c (fst (loop (splitSentences text) ([], []))) ->
  In c (chunkText text maxChunkSize overlap).
Proof.
  unfold chunkText. destruct (loop _ _) as [chunks cur]. simpl.
  intros H. destruct (truthy _); [apply in_or_app; auto | exact H].
Qed.

Lemma chunkText_has_buffer text :
  trim (snd (loop (splitSentences text) ([], []))) <> [] ->
  In (trim (snd (loop (splitSentences text) ([], []))))
     (chunkText text maxChunkSize overlap).
Proof.
  unfold chunkText. destruct (loop _ _) as [chunks cur]. simpl.
  intros H. apply truthy_true in H. rewrite H. apply in_or_app. simpl. auto.
Qed.

Lemma chunkStep_long chunks cur s :
  (Z.of_nat (length s) > maxChunkSize)%Z ->
  snd (step (chunks, cur) s) = bufferOf overlap cur s.
Proof.
  intros Hlong. unfold chunkStep, bufferOf.
  assert (Hgt : (Z.of_nat (length (cur ++ s)) >? maxChunkSize)%Z = true).
  { rewrite length_app. apply Z.gtb_lt. lia. }
  rewrite Hgt. destruct cur; reflexivity.
Qed.

Lemma bufferOf_substring before s : substring s (bufferOf overlap before s).
Proof.
  unfold bufferOf. destruct (truthy before).
  - exists (overlapSeed overlap before ++ [space]), [].
    now rewrite app_nil_r, <- app_assoc.
  - exists [], []. now rewrite app_nil_r.
Qed.

Lemma bufferOf_length before s : length s <= length (bufferOf overlap before s).
Proof.
  unfold bufferOf. destruct (truthy before); [|lia].
  rewrite !length_app. lia.
Qed.

(** While the text read so far fits, the loop only appends. *)
Lemma chunkLoop_fits l chunks cur :
  cur <> [] ->
  (Z.of_nat (length cur + spread l) <= maxChunkSize)%Z ->
  loop l (chunks, cur) = (chunks, cur ++ concat (map (fun q => [space] ++ q) l)).
Proof.
  revert cur. unfold chunkLoop.
  induction l as [|x l IH]; intros cur Hne Hfit; simpl.
  - now rewrite app_nil_r.
  - simpl in Hfit.
    assert (Hle : (Z.of_nat (length (cur ++ x)) >? maxChunkSize)%Z = false).
    { rewrite length_app, Z.gtb_ltb. apply Z.ltb_ge. lia. }
    rewrite Hle. simpl. apply truthy_true in Hne. rewrite Hne.
    rewrite IH.
    + now rewrite <- !app_assoc.
    + now destruct cur.
    + rewrite !length_app. simpl. lia.
Qed.

End ChunkFacts.

Example chunkText_four_sentences :
  chunkText (js "First sentence. Second sentence. Third sentence. Fourth sentence.") 50 10
  = [js "First sentence. Second sentence. Third sentence.";
     js "sentence. Fourth sentence."].
Proof. vm_compute. reflexivity. Qed.

Example chunkText_single_sentence :
  chunkText (js "This is a single sentence.") 100 10
  = [js "This is a single sentence."].
Proof. vm_compute. reflexivity. Qed.

Example chunkText_long_sentence_after_flush :
  chunkText (js "Aa bb. Cccccccccccc. Dd.") 8 10
  = [js "Aa bb."; js "bb. Cccccccccccc."; js "Cccccccccccc. Dd."].
Proof. vm_compute. reflexivity. Qed.

(** C1, as the claim states it, fails.  The first sentence of [" Hello."]
    is [" Hello."], with its leading space, and the only chunk is
    ["Hello."], which does not contain it.  A sentence longer than the size
    asked for is a chunk together with the overlap seed, not on its own,
    when a chunk was flushed before it; and it is dropped when it is all
    whitespace. *)
Lemma chunkText_trims_a_sentence :
  (exists s,
     In s (splitSentences (js " Hello."))
     /\ ~ exists c, In c (chunkText (js " Hello.") 500 50) /\ substring s c)
  /\ (In (js "Cccccccccccc.") (splitSentences (js "Aa bb. Cccccccccccc. Dd."))
      /\ (Z.of_nat (length (js "Cccccccccccc.")) > 8)%Z
      /\ chunkText (js "Aa bb. Cccccccccccc. Dd.") 8 10
         = [js "Aa bb."; js "bb. Cccccccccccc."; js "Cccccccccccc. Dd."])
  /\ (splitSentences (js "     ") = [js "     "]
      /\ (Z.of_nat (length (js "     ")) > 2)%Z
      /\ chunkText (js "     ") 2 10 = []).
Proof.
  split; [|repeat split; vm_compute; auto].
  exists (js " Hello."). split; [vm_compute; auto|].
  intros (c & Hc & a & b & E).
  vm_compute in Hc. destruct Hc as [<-|[]].
  apply (f_equal (@length char)) in E.
  rewrite !length_app in E.
  change (length (js " Hello.")) with 7 in E. simpl in E. lia.
Qed.

(** C1, as amended.  For every text, size and overlap: every sentence of
    the text that is not all whitespace is, once trimmed, a run of
    consecutive characters of some chunk (so a sentence with no whitespace
    at its ends is there verbatim); a sentence longer than [maxChunkSize]
    that is not all whitespace is neither cut nor dropped, for the buffer it
    is put in (the sentence alone, or the overlap seed, a space and the
    sentence) is a chunk once trimmed, with no later sentence added; and a
    text that is empty or all whitespace gives no chunk. *)
Theorem chunkText_keeps_sentences (text : jsstring) (maxChunkSize overlap : Z) :
  (forall s, In s (splitSentences text) -> trim s <> [] ->
     exists c, In c (chunkText text maxChunkSize overlap)
               /\ substring (trim s) c)
  /\ (forall before s rest,
        splitSentences text = before ++ s :: rest ->
        (Z.of_nat (length s) > maxChunkSize)%Z -> trim s <> [] ->
        In (trim (bufferOf overlap
                    (snd (chunkLoop maxChunkSize overlap before ([], []))) s))
           (chunkText text maxChunkSize overlap))
  /\ (trim text = [] -> chunkText text maxChunkSize overlap = []).
Proof.
  split; [|split].
  - intros s Hin Hne.
    pose proof (chunkLoop_keeps maxChunkSize overlap s _ ([], []) Hin Hne) as K.
    destruct K as [Hbuf | (c & Hc & Hs)].
    + exists (trim (snd (chunkLoop maxChunkSize overlap (splitSentences text) ([], [])))).
      split; [|now apply substring_trim].
      apply chunkText_has_buffer. now apply substring_nonempty_trim with s.
    + exists c. split; [now apply chunkText_has_chunks | exact Hs].
  - intros before s rest Hsplit Hlong Hne.
    set (st0 := chunkLoop maxChunkSize overlap before ([], [])).
    set (B := bufferOf overlap (snd st0) s).
    assert (HB : trim B <> []).
    { apply substring_nonempty_trim with s; [apply bufferOf_substring | exact Hne]. }
    assert (Hloop : chunkLoop maxChunkSize overlap (splitSentences text) ([], [])
                    = chunkLoop maxChunkSize overlap rest
                        (chunkStep maxChunkSize overlap st0 s)).
    { rewrite Hsplit. unfold chunkLoop, st0. now rewrite fold_left_app. }
    assert (Hsnd : snd (chunkStep maxChunkSize overlap st0 s) = B).
    { destruct st0 as [chunks0 cur0] eqn:E0. now apply chunkStep_long. }
    destruct (chunkStep maxChunkSize overlap st0 s) as [chunks1 cur1] eqn:E1.
    simpl in Hsnd. subst cur1.
    destruct rest as [|x rest'].
    + pose proof (chunkText_has_buffer maxChunkSize overlap text) as Hb.
      rewrite Hloop in Hb. simpl in Hb. now apply Hb.
    + apply chunkText_has_chunks. rewrite Hloop.
      unfold chunkLoop. simpl fold_left. apply chunkLoop_grows.
      assert (Hlen : length s <= length B) by apply bufferOf_length.
      assert (Hs : 0 < length s).
      { destruct s; [now elim Hne | simpl; lia]. }
      unfold chunkStep.
      assert (G1 : (Z.of_nat (length (B ++ x)) >? maxChunkSize)%Z = true).
      { rewrite length_app. apply Z.gtb_lt. lia. }
      assert (G2 : (0 <? length B) = true) by (apply Nat.ltb_lt; lia).
      rewrite G1, G2. simpl. apply in_or_app. simpl. auto.
  - intros Hws. apply trim_nil in Hws.
    unfold chunkText. rewrite (splitSentences_whitespace _ Hws).
    unfold chunkLoop, chunkStep. simpl. rewrite andb_false_r. simpl.
    apply trim_nil in Hws. now rewrite Hws.
Qed.

(** The three parts of C1, as amended, on a text whose second sentence is
    longer than the size asked for. *)
Lemma chunkText_keeps_sentences_witness :
  (exists c, In c (chunkText (js "Aa bb. Cccccccccccc. Dd.") 8 10)
             /\ substring (trim (js "Cccccccccccc.")) c)
  /\ In (js "bb. Cccccccccccc.") (chunkText (js "Aa bb. Cccccccccccc. Dd.") 8 10)
  /\ chunkText (js "   ") 8 10 = [].
Proof.
  split; [|split].
  - apply (proj1 (chunkText_keeps_sentences (js "Aa bb. Cccccccccccc. Dd.") 8 10)).
    + vm_compute. auto.
    + vm_compute. discriminate.
  - apply (proj1 (proj2 (chunkText_keeps_sentences (js "Aa bb. Cccccccccccc. Dd.") 8 10))
             [js "Aa bb."] (js "Cccccccccccc.") [js "Dd."]).
    + vm_compute. reflexivity.
    + vm_compute. reflexivity.
    + vm_compute. discriminate.
  - apply (proj2 (proj2 (chunkText_keeps_sentences (js "   ") 8 10))).
    vm_compute. reflexivity.
Defined.

(** C6, as the claim states it, fails: the two spaces after the first
    sentence of ["a.  b"] come back as one. *)
Lemma chunkText_rejoins_with_one_space :
  (Z.of_nat (length (js "a.  b")) < 100)%Z
  /\ trim (js "a.  b") <> []
  /\ chunkText (js "a.  b") 100 50 = [js "a. b"]
  /\ chunkText (js "a.  b") 100 50 <> [trim (js "a.  b")].
Proof.
  repeat split; try (vm_compute; reflexivity); vm_compute; discriminate.
Qed.

(** C6, as amended.  A text shorter than [maxChunkSize] that is not empty
    nor all whitespace gives exactly one chunk: its sentences joined by
    single spaces, trimmed.  That chunk is the trimmed text whenever the
    sentences so joined are the text, that is, whenever every sentence
    boundary of the text is one space. *)
Theorem chunkText_short_text (text : jsstring) (maxChunkSize overlap : Z) :
  (Z.of_nat (length text) < maxChunkSize)%Z ->
  trim text <> [] ->
  chunkText text maxChunkSize overlap
  = [trim (join [space] (splitSentences text))]
  /\ (join [space] (splitSentences text) = text ->
      chunkText text maxChunkSize overlap = [trim text]).
Proof.
  intros Hshort Hne.
  assert (Hmain : chunkText text maxChunkSize overlap
                  = [trim (join [space] (splitSentences text))]).
  { assert (Hchar : exists x, In x text /\ isWhiteSpace x = false).
    { destruct (forallb isWhiteSpace text) eqn:F.
      - apply trim_nil in F. contradiction.
      - assert (E : existsb (fun x => negb (isWhiteSpace x)) text = true).
        { clear -F. induction text as [|c r IH]; simpl in *; [discriminate|].
          destruct (isWhiteSpace c); simpl in *; auto. }
        apply existsb_exists in E. destruct E as (x & Hx & Hn).
        exists x. split; [exact Hx | now apply negb_true_iff]. }
    destruct Hchar as (x & Hx & Hnw).
    destruct (splitSentencesFrom_keeps (InSentence false) text x Hx Hnw)
      as (p & Hp & Hxp).
    fold (splitSentences text) in Hp.
    assert (Hjoin : trim (join [space] (splitSentences text)) <> []).
    { apply trim_has_char with x; [|exact Hnw]. now apply join_keeps with p. }
    pose proof (splitSentencesFrom_spread (InSentence false) text) as Hspread.
    fold (splitSentences text) in Hspread.
    unfold chunkText.
    destruct (splitSentences text) as [|s0 l] eqn:Esplit; [now elim Hp|].
    assert (Hs0 : s0 <> []).
    { intros ->. apply splitSentences_head_empty in Esplit. subst text.
      now apply Hne. }
    unfold chunkLoop. simpl fold_left. rewrite andb_false_r.
    change (fold_left (chunkStep maxChunkSize overlap) l ([], s0))
      with (chunkLoop maxChunkSize overlap l ([], s0)).
    rewrite chunkLoop_fits.
    - rewrite <- join_cons. apply truthy_true in Hjoin. now rewrite Hjoin.
    - exact Hs0.
    - simpl in Hspread. lia. }
  split; [exact Hmain|].
  intros E. now rewrite Hmain, E.
Qed.

Lemma chunkText_short_text_witness :
  chunkText (js "a.  b") 100 50
  = [trim (join [space] (splitSentences (js "a.  b")))]
  /\ (join [space] (splitSentences (js "a.  b")) = js "a.  b" ->
      chunkText (js "a.  b") 100 50 = [trim (js "a.  b")]).
Proof.
  apply (chunkText_short_text (js "a.  b") 100 50).
  - vm_compute. reflexivity.
  - vm_compute. discriminate.
Defined.

(** ** binary64 *)

Section Binary64Facts.

(** The product of two binary64 numbers does not depend on their order. *)
Lemma SFmul_comm (x y : spec_float) :
  SFmul prec emax x y = SFmul prec emax y x.
Proof.
  destruct x as [sx|sx| |sx mx ex], y as [sy|sy| |sy my ey]; simpl;
    try reflexivity; try (now rewrite xorb_comm).
  now rewrite xorb_comm, Pos.mul_comm, Z.add_comm.
Qed.

Lemma float_mul_comm (x y : float) : (x * y)%float = (y * x)%float.
Proof.
  apply Prim2SF_inj. rewrite !mul_spec. apply SFmul_comm.
Qed.

(** The numbers [=== 0] are [0] and [-0]. *)
Lemma float_is_zero (x : float) :
  (x =? 0)%float = true -> x = 0%float \/ x = (-0)%float.
Proof.
  rewrite eqb_spec. intros H.
  destruct (Prim2SF x) as [s|s| |s m e] eqn:E; simpl in H;
    try discriminate; try (destruct s; discriminate).
  apply (f_equal SF2Prim) in E. rewrite SF2Prim_Prim2SF in E.
  destruct s; [right | left]; rewrite E; reflexivity.
Qed.

End Binary64Facts.

(** *** The order of binary64 numbers *)

Section Binary64Order.

Lemma SFcompare_antisym (x y : spec_float) (c : comparison) :
  SFcompare x y = Some c -> SFcompare y x = Some (CompOpp c).
Proof.
  destruct x as [sx|sx| |sx mx ex], y as [sy|sy| |sy my ey]; simpl;
    try discriminate; intros E; injection E as <-;
    try (destruct sx; reflexivity); try (destruct sy; reflexivity);
    try (destruct sx, sy; reflexivity).
  change (PosDef.Pos.compare_cont Eq mx my) with (Pos.compare mx my).
  change (PosDef.Pos.compare_cont Eq my mx) with (Pos.compare my mx).
  rewrite (Z.compare_antisym ex ey), (Pos.compare_antisym mx my).
  destruct sx, sy; try reflexivity;
    destruct (ex ?= ey)%Z; simpl; try reflexivity;
    destruct (mx ?= my)%positive; reflexivity.
Qed.

Lemma SFcompare_None (x y : spec_float) :
  SFcompare x y = None -> x = S754_nan \/ y = S754_nan.
Proof.
  destruct x, y; simpl; try discriminate; auto.
Qed.

Lemma SFleb_trans (x y z : spec_float) :
  SFleb x y = true -> SFleb y z = true -> SFleb x z = true.
Proof.
  unfold SFleb.
  destruct x as [sx|sx| |sx mx ex], y as [sy|sy| |sy my ey],
           z as [sz|sz| |sz mz ez]; simpl; try discriminate;
    try (destruct sx; discriminate || reflexivity);
    try (destruct sy; discriminate || reflexivity);
    try (destruct sz; discriminate || reflexivity);
    try (destruct sx, sy; try discriminate; try reflexivity; fail);
    try (destruct sx, sz; try discriminate; try reflexivity; fail);
    try (destruct sy, sz; try discriminate; try reflexivity; fail);
    try (destruct sx, sy, sz; try discriminate; try reflexivity; fail).
  all: change PosDef.Pos.compare_cont with Pos.compare_cont.
  all: fold (Pos.compare mx my); fold (Pos.compare my mz); fold (Pos.compare mx mz).
  all: destruct sx, sy, sz; try discriminate; try reflexivity.
  all: destruct (Z.compare_spec ex ey), (Z.compare_spec ey ez), (Z.compare_spec ex ez);
       try lia; try discriminate; try reflexivity; subst.
  all: destruct (Pos.compare_spec mx my), (Pos.compare_spec my mz), (Pos.compare_spec mx mz);
       simpl; try lia; try discriminate; try reflexivity.
Qed.

Local Open Scope Z_scope.

Lemma iter_pos_nat {A} (f : A -> A) (p : positive) (x : A) :
  SpecFloat.iter_pos f p x = Nat.iter (Pos.to_nat p) f x.
Proof.
  revert x. induction p as [p IH|p IH|]; intros x.
  - change (SpecFloat.iter_pos f p~1 x)
      with (SpecFloat.iter_pos f p (SpecFloat.iter_pos f p (f x))).
    rewrite !IH, Pos2Nat.inj_xI, Nat.iter_succ_r.
    replace (2 * Pos.to_nat p)%nat with (Pos.to_nat p + Pos.to_nat p)%nat by lia.
    now rewrite Nat.iter_add.
  - change (SpecFloat.iter_pos f p~0 x)
      with (SpecFloat.iter_pos f p (SpecFloat.iter_pos f p x)).
    rewrite !IH, Pos2Nat.inj_xO.
    replace (2 * Pos.to_nat p)%nat with (Pos.to_nat p + Pos.to_nat p)%nat by lia.
    now rewrite Nat.iter_add.
  - reflexivity.
Qed.

Lemma shr_1_m (mrs : shr_record) :
  0 <= shr_m mrs -> shr_m (shr_1 mrs) = Z.div2 (shr_m mrs).
Proof.
  destruct mrs as [m r s]. simpl. destruct m as [|p|p]; try lia; intros _.
  - reflexivity.
  - destruct p; reflexivity.
Qed.

Lemma shr_iter_m (n : nat) (mrs : shr_record) :
  0 <= shr_m mrs ->
  shr_m (Nat.iter n shr_1 mrs) = shr_m mrs / 2 ^ Z.of_nat n.
Proof.
  intros H. induction n as [|n IH].
  - simpl. now rewrite Z.div_1_r.
  - rewrite Nat.iter_succ, shr_1_m.
    + rewrite IH, Z.div2_div, Nat2Z.inj_succ, Z.pow_succ_r by lia.
      rewrite Z.div_div by lia. f_equal. lia.
    + rewrite IH. apply Z.div_pos; lia.
Qed.

Lemma digits2_pos_bounds (p : positive) :
  2 ^ (Z.pos (digits2_pos p) - 1) <= Z.pos p < 2 ^ Z.pos (digits2_pos p).
Proof.
  induction p as [p IH|p IH|]; simpl digits2_pos.
  - rewrite Pos2Z.inj_succ.
    replace (Z.succ (Z.pos (digits2_pos p)) - 1) with (Z.succ (Z.pos (digits2_pos p) - 1)) by lia.
    rewrite !Z.pow_succ_r by lia. lia.
  - rewrite Pos2Z.inj_succ.
    replace (Z.succ (Z.pos (digits2_pos p)) - 1) with (Z.succ (Z.pos (digits2_pos p) - 1)) by lia.
    rewrite !Z.pow_succ_r by lia. lia.
  - simpl. lia.
Qed.

Lemma fexp_eq (e : Z) : fexp prec emax e = Z.max (e - 53) (-1074).
Proof. reflexivity. Qed.

Lemma shr_record_of_loc_m (m : Z) (l : location) :
  shr_m (shr_record_of_loc m l) = m.
Proof. destruct l as [|[]]; reflexivity. Qed.

(** Rounding a positive mantissa whose exponent is not below the least one
    keeps it positive. *)
Lemma shr_fexp_positive (m e : Z) (l : location) :
  0 < m -> -1074 <= e ->
  0 < shr_m (fst (shr_fexp prec emax m e l))
  /\ -1074 <= snd (shr_fexp prec emax m e l).
Proof.
  intros Hm He. unfold shr_fexp, shr. rewrite fexp_eq.
  destruct m as [|p|p]; try lia. simpl Zdigits2.
  pose proof (digits2_pos_bounds p) as [Hlo _].
  set (d := Z.pos (digits2_pos p)) in *.
  destruct (Z.max (d + e - 53) (-1074) - e) as [|n|n] eqn:En; simpl;
    rewrite ?shr_record_of_loc_m; try lia.
  rewrite iter_pos_nat, shr_iter_m by (rewrite shr_record_of_loc_m; lia).
  rewrite shr_record_of_loc_m, positive_nat_Z.
  split; [|lia].
  assert (Hn : Z.pos n = d - 53) by lia.
  apply Z.div_str_pos. split; [apply Z.pow_pos_nonneg; lia|].
  apply Z.le_trans with (2 ^ (d - 1)); [|exact Hlo].
  apply Z.pow_le_mono_r; lia.
Qed.

Lemma round_nearest_even_positive (m : Z) (l : location) :
  0 < m -> 0 < round_nearest_even m l.
Proof.
  intros H. unfold round_nearest_even.
  destruct l as [|[]]; try lia. destruct (IntDef.Z.even m); lia.
Qed.

Lemma binary_round_aux_signed (s : bool) (m e : Z) (l : location) :
  0 < m -> -1074 <= e -> signed s (binary_round_aux prec emax s m e l).
Proof.
  intros Hm He. unfold binary_round_aux.
  pose proof (shr_fexp_positive m e l Hm He) as [H1 H2].
  destruct (shr_fexp prec emax m e l) as [mrs' e']. simpl in H1, H2.
  pose proof (round_nearest_even_positive (shr_m mrs') (loc_of_shr_record mrs') H1) as H3.
  pose proof (shr_fexp_positive _ e' loc_Exact H3 H2) as [H4 H5].
  destruct (shr_fexp prec emax _ e' loc_Exact) as [mrs'' e'']. simpl in H4, H5.
  destruct (shr_m mrs'') as [|q|q]; try lia.
  destruct (e'' <=? emax - prec); [left; eauto | now right].
Qed.

Lemma shl_align_exponent (mx : positive) (ex ez : Z) :
  snd (shl_align mx ex ez) = Z.min ex ez.
Proof.
  unfold shl_align. destruct (ez - ex) eqn:E; simpl; lia.
Qed.

Lemma binary_round_signed (s : bool) (mx : positive) (ex : Z) :
  -1074 <= ex -> signed s (binary_round prec emax s mx ex).
Proof.
  intros He. unfold binary_round.
  pose proof (shl_align_exponent mx ex (fexp prec emax (Z.pos (digits2_pos mx) + ex))) as Hs.
  destruct (shl_align mx ex _) as [mz ez]. simpl in Hs.
  apply binary_round_aux_signed; [lia|]. rewrite fexp_eq in Hs. lia.
Qed.

Lemma shl_align_mantissa (mx : positive) (ex ez : Z) :
  ez <= ex -> Z.pos (fst (shl_align mx ex ez)) = Z.pos mx * 2 ^ (ex - ez).
Proof.
  intros H. unfold shl_align. destruct (ez - ex) as [|d|d] eqn:E; simpl fst.
  - replace (ex - ez) with 0 by lia. lia.
  - lia.
  - change (PosDef.Pos.iter xO mx d) with (shift_pos d mx).
    rewrite shift_pos_correct, Z.pow_pos_fold.
    replace (ex - ez) with (Z.pos d) by lia. lia.
Qed.

Lemma valid_exponent (s : bool) (m : positive) (e : Z) :
  valid_binary (S754_finite s m e) = true ->
  -1074 <= e /\ (Z.pos (digits2_pos m) <= 53)
  /\ (-1074 < e -> Z.pos (digits2_pos m) = 53).
Proof.
  simpl. unfold SpecFloat.bounded, canonical_mantissa. rewrite fexp_eq.
  intros H. apply andb_prop in H. destruct H as [H _].
  apply Z.eqb_eq in H. lia.
Qed.

Lemma binary_normalize_sign (d ez : Z) :
  -1074 <= ez ->
  SFltb (S754_zero false) (binary_normalize prec emax d ez false) = (0 <? d).
Proof.
  intros He. unfold binary_normalize. destruct d as [|p|p].
  - reflexivity.
  - destruct (binary_round_signed false p ez He) as [(m & e & ->) | ->]; reflexivity.
  - destruct (binary_round_signed true p ez He) as [(m & e & ->) | ->]; reflexivity.
Qed.

(** Two valid finite numbers of one sign are ordered as their mantissas
    are once brought to the lower of the two exponents. *)
Lemma aligned_order (sx sy : bool) (mx my : positive) (ex ey : Z) :
  valid_binary (S754_finite sx mx ex) = true ->
  valid_binary (S754_finite sy my ey) = true ->
  let ez := Z.min ex ey in
  let ax := Z.pos (fst (shl_align mx ex ez)) in
  let ay := Z.pos (fst (shl_align my ey ez)) in
  match (ey ?= ex) with
  | Eq => ax = Z.pos mx /\ ay = Z.pos my
  | Lt => ay < ax
  | Gt => ax < ay
  end.
Proof.
  intros Vx Vy ez ax ay.
  destruct (valid_exponent _ _ _ Vx) as (Ex & Dx & Nx).
  destruct (valid_exponent _ _ _ Vy) as (Ey & Dy & Ny).
  pose proof (digits2_pos_bounds mx) as [Lx Ux].
  pose proof (digits2_pos_bounds my) as [Ly Uy].
  assert (Ax : ax = Z.pos mx * 2 ^ (ex - ez))
    by (apply shl_align_mantissa; unfold ez; lia).
  assert (Ay : ay = Z.pos my * 2 ^ (ey - ez))
    by (apply shl_align_mantissa; unfold ez; lia).
  assert (Big : forall m d k : Z, d = 53 -> 2 ^ (d - 1) <= m -> 1 <= k ->
                 2 ^ 53 <= m * 2 ^ k).
  { intros m d k -> Hm Hk. change (2 ^ 53) with (2 ^ 52 * 2 ^ 1).
    apply Z.mul_le_mono_nonneg; try lia. apply Z.pow_le_mono_r; lia. }
  assert (Small : forall m d : Z, d <= 53 -> m < 2 ^ d -> m < 2 ^ 53).
  { intros m d Hd Hm. apply Z.lt_le_trans with (2 ^ d); [exact Hm|].
    apply Z.pow_le_mono_r; lia. }
  destruct (Z.compare_spec ey ex) as [E|L|G].
  - subst ey. replace (ex - ez) with 0 in * by (unfold ez; lia). lia.
  - replace (ey - ez) with 0 in Ay by (unfold ez; lia).
    pose proof (Big (Z.pos mx) _ (ex - ez) (Nx ltac:(lia)) Lx ltac:(unfold ez; lia)).
    pose proof (Small (Z.pos my) _ Dy Uy). lia.
  - replace (ex - ez) with 0 in Ax by (unfold ez; lia).
    pose proof (Big (Z.pos my) _ (ey - ez) (Ny ltac:(lia)) Ly ltac:(unfold ez; lia)).
    pose proof (Small (Z.pos mx) _ Dx Ux). lia.
Qed.

Lemma SFsub_sign (x y : spec_float) :
  valid_binary x = true -> valid_binary y = true ->
  SFltb (S754_zero false) (SFsub prec emax x y) = SFltb y x.
Proof.
  intros Vx Vy.
  destruct x as [sx|sx| |sx mx ex], y as [sy|sy| |sy my ey];
    try (destruct sx; reflexivity); try (destruct sy; reflexivity);
    try (destruct sx, sy; reflexivity); try reflexivity.
  unfold SFsub.
  change (IntDef.Z.min ex ey) with (Z.min ex ey).
  destruct (valid_exponent _ _ _ Vx) as (Ex & _).
  destruct (valid_exponent _ _ _ Vy) as (Ey & _).
  rewrite binary_normalize_sign by lia.
  pose proof (aligned_order sx sy mx my ex ey Vx Vy) as K. simpl in K.
  unfold SFltb, SFcompare.
  change (PosDef.Pos.compare_cont Eq my mx) with (Pos.compare my mx).
  set (ax := Z.pos (fst (shl_align mx ex (Z.min ex ey)))) in *.
  set (ay := Z.pos (fst (shl_align my ey (Z.min ex ey)))) in *.
  assert (Pax : 0 < ax) by (unfold ax; lia).
  assert (Pay : 0 < ay) by (unfold ay; lia).
  destruct sx, sy; unfold cond_Zopp.
  - destruct (ey ?= ex).
    + destruct K as [-> ->]. destruct (Pos.compare_spec my mx); cbn [CompOpp];
        [apply Z.ltb_ge | apply Z.ltb_ge | apply Z.ltb_lt]; lia.
    + apply Z.ltb_ge. lia.
    + apply Z.ltb_lt. lia.
  - apply Z.ltb_ge. lia.
  - apply Z.ltb_lt. lia.
  - destruct (ey ?= ex).
    + destruct K as [-> ->]. destruct (Pos.compare_spec my mx);
        [apply Z.ltb_ge | apply Z.ltb_lt | apply Z.ltb_ge]; lia.
    + apply Z.ltb_lt. lia.
    + apply Z.ltb_ge. lia.
Qed.

Lemma float_sub_positive (x y : float) :
  (0 <? x - y)%float = (y <? x)%float.
Proof.
  rewrite !ltb_spec, sub_spec.
  change (Prim2SF 0%float) with (S754_zero false).
  apply SFsub_sign; apply Prim2SF_valid.
Qed.

Lemma binary_normalize_negative (d ez : Z) :
  -1074 <= ez ->
  SFltb (binary_normalize prec emax d ez false) (S754_zero false) = (d <? 0).
Proof.
  intros He. unfold binary_normalize. destruct d as [|p|p].
  - reflexivity.
  - destruct (binary_round_signed false p ez He) as [(m & e & ->) | ->]; reflexivity.
  - destruct (binary_round_signed true p ez He) as [(m & e & ->) | ->]; reflexivity.
Qed.

Lemma SFsub_negative (x y : spec_float) :
  valid_binary x = true -> valid_binary y = true ->
  SFltb (SFsub prec emax x y) (S754_zero false) = SFltb x y.
Proof.
  intros Vx Vy.
  destruct x as [sx|sx| |sx mx ex], y as [sy|sy| |sy my ey];
    try (destruct sx; reflexivity); try (destruct sy; reflexivity);
    try (destruct sx, sy; reflexivity); try reflexivity.
  unfold SFsub.
  change (IntDef.Z.min ex ey) with (Z.min ex ey).
  destruct (valid_exponent _ _ _ Vx) as (Ex & _).
  destruct (valid_exponent _ _ _ Vy) as (Ey & _).
  rewrite binary_normalize_negative by lia.
  pose proof (aligned_order sx sy mx my ex ey Vx Vy) as K. simpl in K.
  unfold SFltb, SFcompare.
  change (PosDef.Pos.compare_cont Eq mx my) with (Pos.compare mx my).
  set (ax := Z.pos (fst (shl_align mx ex (Z.min ex ey)))) in *.
  set (ay := Z.pos (fst (shl_align my ey (Z.min ex ey)))) in *.
  assert (Pax : 0 < ax) by (unfold ax; lia).
  assert (Pay : 0 < ay) by (unfold ay; lia).
  rewrite (Z.compare_antisym ey ex).
  destruct sx, sy; unfold cond_Zopp.
  - destruct (ey ?= ex); cbn [CompOpp].
    + destruct K as [-> ->]. destruct (Pos.compare_spec mx my); cbn [CompOpp];
        [apply Z.ltb_ge | apply Z.ltb_ge | apply Z.ltb_lt]; lia.
    + apply Z.ltb_lt. lia.
    + apply Z.ltb_ge. lia.
  - apply Z.ltb_lt. lia.
  - apply Z.ltb_ge. lia.
  - destruct (ey ?= ex); cbn [CompOpp].
    + destruct K as [-> ->]. destruct (Pos.compare_spec mx my);
        [apply Z.ltb_ge | apply Z.ltb_lt | apply Z.ltb_ge]; lia.
    + apply Z.ltb_ge. lia.
    + apply Z.ltb_lt. lia.
Qed.

Lemma float_sub_negative (x y : float) :
  (x - y <? 0)%float = (x <? y)%float.
Proof.
  rewrite !ltb_spec, sub_spec.
  change (Prim2SF 0%float) with (S754_zero false).
  apply SFsub_negative; apply Prim2SF_valid.
Qed.

Local Close Scope Z_scope.

Lemma float_ltb_leb (x y : float) :
  (x <? y)%float = true -> (x <=? y)%float = true.
Proof.
  rewrite ltb_spec, leb_spec. unfold SFltb, SFleb.
  now destruct (SFcompare (Prim2SF x) (Prim2SF y)) as [[]|].
Qed.

Lemma float_not_nan (x : float) :
  PrimFloat.is_nan x = false -> Prim2SF x <> S754_nan.
Proof.
  unfold PrimFloat.is_nan. rewrite eqb_spec. intros H E.
  rewrite E in H. discriminate.
Qed.

(** Two numbers are comparable unless one is [NaN]. *)
Lemma float_leb_total (x y : float) :
  PrimFloat.is_nan x = false -> PrimFloat.is_nan y = false ->
  (x <? y)%float = false -> (y <=? x)%float = true.
Proof.
  intros Nx Ny. rewrite ltb_spec, leb_spec. unfold SFltb, SFleb.
  destruct (SFcompare (Prim2SF x) (Prim2SF y)) as [c|] eqn:E.
  - rewrite (SFcompare_antisym _ _ _ E). now destruct c.
  - apply SFcompare_None in E.
    destruct E as [E|E]; [now apply float_not_nan in Nx | now apply float_not_nan in Ny].
Qed.

Lemma float_leb_trans (x y z : float) :
  (x <=? y)%float = true -> (y <=? z)%float = true -> (x <=? z)%float = true.
Proof. rewrite !leb_spec. apply SFleb_trans. Qed.

Lemma SFltb_trans (x y z : spec_float) :
  SFltb x y = true -> SFltb y z = true -> SFltb x z = true.
Proof.
  unfold SFltb.
  destruct x as [sx|sx| |sx mx ex], y as [sy|sy| |sy my ey],
           z as [sz|sz| |sz mz ez]; simpl; try discriminate;
    try (destruct sx; discriminate || reflexivity);
    try (destruct sy; discriminate || reflexivity);
    try (destruct sz; discriminate || reflexivity);
    try (destruct sx, sy; try discriminate; try reflexivity; fail);
    try (destruct sx, sz; try discriminate; try reflexivity; fail);
    try (destruct sy, sz; try discriminate; try reflexivity; fail);
    try (destruct sx, sy, sz; try discriminate; try reflexivity; fail).
  all: change PosDef.Pos.compare_cont with Pos.compare_cont.
  all: fold (Pos.compare mx my); fold (Pos.compare my mz); fold (Pos.compare mx mz).
  all: destruct sx, sy, sz; try discriminate; try reflexivity.
  all: destruct (Z.compare_spec ex ey), (Z.compare_spec ey ez), (Z.compare_spec ex ez);
       try lia; try discriminate; try reflexivity; subst.
  all: destruct (Pos.compare_spec mx my), (Pos.compare_spec my mz), (Pos.compare_spec mx mz);
       simpl; try lia; try discriminate; try reflexivity.
Qed.

Lemma float_ltb_trans (x y z : float) :
  (x <? y)%float = true -> (y <? z)%float = true -> (x <? z)%float = true.
Proof. rewrite !ltb_spec. apply SFltb_trans. Qed.

Lemma SFleb_ltb_trans (x y z : spec_float) :
  SFleb x y = true -> SFltb y z = true -> SFltb x z = true.
Proof.
  unfold SFltb, SFleb.
  destruct x as [sx|sx| |sx mx ex], y as [sy|sy| |sy my ey],
           z as [sz|sz| |sz mz ez]; simpl; try discriminate;
    try (destruct sx; discriminate || reflexivity);
    try (destruct sy; discriminate || reflexivity);
    try (destruct sz; discriminate || reflexivity);
    try (destruct sx, sy; try discriminate; try reflexivity; fail);
    try (destruct sx, sz; try discriminate; try reflexivity; fail);
    try (destruct sy, sz; try discriminate; try reflexivity; fail);
    try (destruct sx, sy, sz; try discriminate; try reflexivity; fail).
  all: change PosDef.Pos.compare_cont with Pos.compare_cont.
  all: fold (Pos.compare mx my); fold (Pos.compare my mz); fold (Pos.compare mx mz).
  all: destruct sx, sy, sz; try discriminate; try reflexivity.
  all: destruct (Z.compare_spec ex ey), (Z.compare_spec ey ez), (Z.compare_spec ex ez);
       try lia; try discriminate; try reflexivity; subst.
  all: destruct (Pos.compare_spec mx my), (Pos.compare_spec my mz), (Pos.compare_spec mx mz);
       simpl; try lia; try discriminate; try reflexivity.
Qed.

Lemma float_leb_ltb_trans (x y z : float) :
  (x <=? y)%float = true -> (y <? z)%float = true -> (x <? z)%float = true.
Proof. rewrite !ltb_spec, leb_spec. apply SFleb_ltb_trans. Qed.

End Binary64Order.

(** *** Rounding to the nearest *)

Section Binary64Rounding.

Local Open Scope Z_scope.

Lemma digits2_pos_unique (p : positive) (d : Z) :
  2 ^ (d - 1) <= Z.pos p < 2 ^ d -> 1 <= d -> Z.pos (digits2_pos p) = d.
Proof.
  intros [Hlo Hhi] Hd. pose proof (digits2_pos_bounds p) as [Glo Ghi].
  set (d' := Z.pos (digits2_pos p)) in *.
  assert (1 <= d') by (unfold d'; lia).
  destruct (Z.lt_trichotomy d' d) as [L|[E|L]]; [|exact E|].
  - assert (2 ^ d' <= 2 ^ (d - 1)) by (apply Z.pow_le_mono_r; lia). lia.
  - assert (2 ^ d <= 2 ^ (d' - 1)) by (apply Z.pow_le_mono_r; lia). lia.
Qed.

(** The first shift of a rounding takes a mantissa of [d] digits, at
    least 53, to its first 53 digits. *)
Lemma shr_fexp_normal (m e d : Z) (l : location) :
  53 <= d -> 2 ^ (d - 1) <= m < 2 ^ d -> -1074 <= e + d - 53 ->
  shr_m (fst (shr_fexp prec emax m e l)) = m / 2 ^ (d - 53)
  /\ snd (shr_fexp prec emax m e l) = e + (d - 53).
Proof.
  intros Hd Hm He. unfold shr_fexp, shr. rewrite fexp_eq.
  assert (0 < 2 ^ (d - 1)) by (apply Z.pow_pos_nonneg; lia).
  destruct m as [|p|p]; try lia. simpl Zdigits2.
  rewrite (digits2_pos_unique p d Hm) by lia.
  replace (Z.max (d + e - 53) (-1074) - e) with (d - 53) by lia.
  destruct (d - 53) as [|n|n] eqn:En; simpl fst; simpl snd;
    rewrite ?shr_record_of_loc_m; try lia.
  - rewrite Z.div_1_r. split; lia.
  - rewrite iter_pos_nat, shr_iter_m by (rewrite shr_record_of_loc_m; lia).
    rewrite shr_record_of_loc_m, positive_nat_Z. split; reflexivity.
Qed.

Lemma round_nearest_even_cases (m : Z) (l : location) :
  round_nearest_even m l = m \/ round_nearest_even m l = m + 1.
Proof.
  unfold round_nearest_even. destruct l as [|[]]; auto.
  destruct (IntDef.Z.even m); auto.
Qed.

Lemma shr_1_rs (mrs : shr_record) :
  0 <= shr_m mrs ->
  shr_m mrs = 2 * shr_m (shr_1 mrs) + (if shr_r (shr_1 mrs) then 1 else 0)
  /\ shr_s (shr_1 mrs) = shr_r mrs || shr_s mrs
  /\ 0 <= shr_m (shr_1 mrs).
Proof.
  destruct mrs as [m r s]. cbn [shr_m shr_r shr_s]. intros H.
  destruct m as [|[p|p|]|p]; try lia; cbn; repeat split; lia.
Qed.

(** What the shifts of a rounding remember of the digits they drop: the
    first of them, and whether another one is set. *)
Lemma shr_iter_rs (n : nat) (m : Z) :
  0 <= m ->
  exists sigma,
    m = shr_m (Nat.iter (S n) shr_1 (Build_shr_record m false false))
        * 2 ^ Z.of_nat (S n)
        + (if shr_r (Nat.iter (S n) shr_1 (Build_shr_record m false false))
           then 2 ^ Z.of_nat n else 0)
        + sigma
    /\ 0 <= sigma < 2 ^ Z.of_nat n
    /\ (shr_s (Nat.iter (S n) shr_1 (Build_shr_record m false false)) = false
        <-> sigma = 0)
    /\ 0 <= shr_m (Nat.iter (S n) shr_1 (Build_shr_record m false false)).
Proof.
  intros Hm. induction n as [|n IH].
  - exists 0.
    change (Nat.iter 1 shr_1 (Build_shr_record m false false))
      with (shr_1 (Build_shr_record m false false)).
    destruct (shr_1_rs (Build_shr_record m false false) Hm) as (E & Es & Hp).
    cbn [shr_m shr_r shr_s orb] in E, Es.
    change (2 ^ Z.of_nat 1) with 2. change (2 ^ Z.of_nat 0) with 1.
    rewrite Es. repeat split; try lia.
  - destruct IH as (sigma & E & Hs & Hz & Hp).
    set (mrs := Nat.iter (S n) shr_1 (Build_shr_record m false false)) in *.
    rewrite (Nat.iter_succ (S n)). fold mrs.
    destruct (shr_1_rs mrs Hp) as (E1 & Es1 & Hp1).
    assert (P : 0 < 2 ^ Z.of_nat n) by (apply Z.pow_pos_nonneg; lia).
    assert (P1 : 2 ^ Z.of_nat (S n) = 2 * 2 ^ Z.of_nat n)
      by (rewrite Nat2Z.inj_succ, Z.pow_succ_r; lia).
    assert (P2 : 2 ^ Z.of_nat (S (S n)) = 2 * 2 ^ Z.of_nat (S n))
      by (rewrite (Nat2Z.inj_succ (S n)), Z.pow_succ_r; lia).
    exists ((if shr_r mrs then 2 ^ Z.of_nat n else 0) + sigma).
    rewrite Es1, P2. rewrite P1 in *.
    set (P0 := 2 ^ Z.of_nat n) in *.
    split; [|split; [|split]].
    + rewrite E at 1. rewrite E1 at 1.
      destruct (shr_r (shr_1 mrs)), (shr_r mrs); lia.
    + destruct (shr_r mrs); lia.
    + destruct (shr_r mrs), (shr_s mrs); cbn [orb]; split; intros H;
        try discriminate; try lia; try reflexivity.
      all: try (apply Hz; lia).
      all: try (destruct Hz as [Hz _]; specialize (Hz eq_refl); lia).
    + exact Hp1.
Qed.

(** A mantissa within less than half a unit of [m], once [p] digits are
    dropped, is rounded to [m]. *)
Lemma shr_round_nearest (M m : Z) (p : positive) :
  0 <= M ->
  Z.abs (M - m * 2 ^ Z.pos p) < 2 ^ (Z.pos p - 1) ->
  round_nearest_even
    (shr_m (SpecFloat.iter_pos shr_1 p (shr_record_of_loc M loc_Exact)))
    (loc_of_shr_record
       (SpecFloat.iter_pos shr_1 p (shr_record_of_loc M loc_Exact)))
  = m.
Proof.
  intros HM Hclose. rewrite iter_pos_nat.
  destruct (Pos2Nat.is_succ p) as (n & En). rewrite En.
  cbn [shr_record_of_loc].
  destruct (shr_iter_rs n M HM) as (sigma & E & Hs & Hz & Hp).
  set (mrs := Nat.iter (S n) shr_1 (Build_shr_record M false false)) in *.
  assert (Ep : Z.pos p = Z.of_nat (S n)) by lia.
  rewrite Ep in Hclose.
  replace (Z.of_nat (S n) - 1) with (Z.of_nat n) in Hclose by lia.
  assert (P : 0 < 2 ^ Z.of_nat n) by (apply Z.pow_pos_nonneg; lia).
  assert (P1 : 2 ^ Z.of_nat (S n) = 2 * 2 ^ Z.of_nat n)
    by (rewrite Nat2Z.inj_succ, Z.pow_succ_r; lia).
  rewrite P1 in *. set (P0 := 2 ^ Z.of_nat n) in *.
  destruct mrs as [t r s]. cbn [shr_m shr_r shr_s] in *.
  unfold loc_of_shr_record, round_nearest_even.
  destruct r.
  - assert (Ht : t = m - 1) by nia. 
    destruct s; [lia|]. destruct Hz as [Hz _]. specialize (Hz eq_refl). nia.
  - assert (Ht : t = m) by nia. destruct s; exact Ht.
Qed.

Lemma loc_of_shr_record_of_loc (m : Z) (l : location) :
  loc_of_shr_record (shr_record_of_loc m l) = l.
Proof. destruct l as [|[]]; reflexivity. Qed.

Lemma Zdigits2_le (m d : Z) : 0 < m < 2 ^ d -> 0 <= d -> Zdigits2 m <= d.
Proof.
  intros [Hm Hd] H0. destruct m as [|p|p]; try lia. simpl Zdigits2.
  pose proof (digits2_pos_bounds p) as [Hlo _].
  destruct (Z_lt_le_dec d (Z.pos (digits2_pos p))) as [L|L]; [|exact L].
  assert (2 ^ d <= 2 ^ (Z.pos (digits2_pos p) - 1))
    by (apply Z.pow_le_mono_r; lia).
  lia.
Qed.

(** A mantissa of at most 53 digits at the least exponent is kept. *)
Lemma shr_fexp_least (m : positive) (l : location) :
  Z.pos m < 2 ^ 53 ->
  shr_fexp prec emax (Z.pos m) (-1074) l
  = (shr_record_of_loc (Z.pos m) l, -1074).
Proof.
  intros Hm. unfold shr_fexp. rewrite fexp_eq.
  pose proof (Zdigits2_le (Z.pos m) 53 ltac:(lia) ltac:(lia)) as Hd.
  replace (Z.max (Zdigits2 (Z.pos m) + -1074 - 53) (-1074) - -1074) with 0
    by lia.
  reflexivity.
Qed.

(** Rounding below the least exponent: a mantissa within less than half
    a unit of [m], in the units of the least exponent, is rounded to
    [m]. *)
Lemma binary_round_aux_subnormal (M e : Z) (m : positive) :
  0 < M < 2 ^ (-1021 - e) -> e < -1074 ->
  Z.pos m < 2 ^ 53 ->
  Z.abs (M - Z.pos m * 2 ^ (-1074 - e)) < 2 ^ (-1074 - e - 1) ->
  binary_round_aux prec emax false M e loc_Exact = S754_finite false m (-1074).
Proof.
  intros HM He Hm Hclose. unfold binary_round_aux.
  assert (E1 : shr_fexp prec emax M e loc_Exact
               = (SpecFloat.iter_pos shr_1 (Z.to_pos (-1074 - e))
                    (shr_record_of_loc M loc_Exact), -1074)).
  { unfold shr_fexp, shr. rewrite fexp_eq.
    pose proof (Zdigits2_le M (-1021 - e) HM ltac:(lia)) as Hd.
    replace (Z.max (Zdigits2 M + e - 53) (-1074) - e) with (-1074 - e) by lia.
    destruct (-1074 - e) as [|p|p] eqn:Ep; try lia.
    cbn [Z.to_pos]. f_equal. lia. }
  rewrite E1.
  assert (Ep : Z.pos (Z.to_pos (-1074 - e)) = -1074 - e) by lia.
  rewrite (shr_round_nearest M (Z.pos m) (Z.to_pos (-1074 - e)))
    by (rewrite ?Ep; lia).
  rewrite (shr_fexp_least m loc_Exact Hm). cbn [shr_record_of_loc shr_m].
  reflexivity.
Qed.

(** Rounding a mantissa of 53 digits that does not round up to [2^53]. *)
Lemma binary_round_aux_53 (m e : Z) (l : location) :
  2 ^ 52 <= m < 2 ^ 53 -> -1074 <= e <= 971 ->
  round_nearest_even m l < 2 ^ 53 ->
  exists m' : positive,
    binary_round_aux prec emax false m e l = S754_finite false m' e
    /\ Z.pos m' = round_nearest_even m l.
Proof.
  intros Hm He Hr. unfold binary_round_aux.
  assert (E : forall t l', 2 ^ 52 <= t < 2 ^ 53 ->
            shr_fexp prec emax t e l' = (shr_record_of_loc t l', e)).
  { intros t l' Ht. unfold shr_fexp. rewrite fexp_eq.
    destruct t as [|p|p]; try lia. simpl Zdigits2.
    rewrite (digits2_pos_unique p 53) by (change (53 - 1) with 52; lia).
    replace (Z.max (53 + e - 53) (-1074) - e) with 0 by lia. reflexivity. }
  rewrite (E m l Hm). rewrite shr_record_of_loc_m, loc_of_shr_record_of_loc.
  assert (Ht : 2 ^ 52 <= round_nearest_even m l < 2 ^ 53).
  { destruct (round_nearest_even_cases m l); lia. }
  rewrite (E _ loc_Exact Ht). cbn [shr_record_of_loc shr_m].
  destruct (round_nearest_even m l) as [|q|q]; try lia.
  replace (e <=? emax - prec) with true
    by (symmetry; apply Z.leb_le; change (emax - prec) with 971; lia).
  exists q. split; reflexivity.
Qed.

(** Rounding to binary64 a mantissa of at least 53 digits, in the range of
    the normal numbers: the result is a normal number, within one unit in
    its last place of every number that lies between the mantissa and its
    successor.  At the greatest exponent the mantissa must not round up to
    a power of two. *)
Lemma binary_round_aux_normal (m e d : Z) (l : location) :
  53 <= d -> 2 ^ (d - 1) <= m < 2 ^ d ->
  -1074 <= e + d - 53 -> e + d - 53 <= 971 ->
  e + d - 52 <= 971 \/ m < (2 ^ 53 - 1) * 2 ^ (d - 53) ->
  exists (m' : positive) (j : Z),
    binary_round_aux prec emax false m e l = S754_finite false m' (e + j)
    /\ (j = d - 53 \/ j = d - 52)
    /\ 2 ^ 52 <= Z.pos m' < 2 ^ 53
    /\ (Z.pos m' - 1) * 2 ^ j <= m
    /\ m + 1 <= (Z.pos m' + 1) * 2 ^ j.
Proof.
  intros Hd Hm Hlo Hhi Hcarry. unfold binary_round_aux.
  destruct (shr_fexp_normal m e d l Hd Hm Hlo) as [E1 E2].
  destruct (shr_fexp prec emax m e l) as [mrs' e']. simpl in E1, E2.
  set (k := d - 53) in *.
  assert (HK : 0 < 2 ^ k) by (apply Z.pow_pos_nonneg; lia).
  assert (H52 : 2 ^ (d - 1) = 2 ^ 52 * 2 ^ k).
  { rewrite <- Z.pow_add_r by lia. f_equal. lia. }
  assert (H53 : 2 ^ d = 2 ^ 53 * 2 ^ k).
  { rewrite <- Z.pow_add_r by lia. f_equal. lia. }
  assert (Ht : 2 ^ 52 <= m / 2 ^ k < 2 ^ 53).
  { split.
    - apply Z.div_le_lower_bound; lia.
    - apply Z.div_lt_upper_bound; lia. }
  pose proof (Z.mul_div_le m (2 ^ k) HK) as Hfloor.
  pose proof (Z.mul_succ_div_gt m (2 ^ k) HK) as Hceil.
  set (t := m / 2 ^ k) in *. rewrite E1.
  set (t1 := round_nearest_even t (loc_of_shr_record mrs')).
  assert (Ht1 : t1 = t \/ t1 = t + 1) by apply round_nearest_even_cases.
  destruct (Z_lt_le_dec t1 (2 ^ 53)) as [Hsmall|Hbig].
  - destruct (shr_fexp_normal t1 e' 53 loc_Exact) as [F1 F2]; try lia.
    destruct (shr_fexp prec emax t1 e' loc_Exact) as [mrs'' e''].
    cbn [fst snd] in F1, F2. rewrite F1. change (2 ^ (53 - 53)) with 1.
    rewrite Z.div_1_r.
    destruct t1 as [|q|q] eqn:Eq; try lia.
    replace (e'' <=? emax - prec) with true
      by (symmetry; apply Z.leb_le; change (emax - prec) with 971; lia).
    exists q, k. split; [f_equal; lia|]. split; [lia|]. split; [lia|].
    destruct Ht1 as [Ht1|Ht1]; rewrite Ht1; split; nia.
  - assert (Et1 : t1 = 2 ^ 53) by lia.
    assert (Et : t = 2 ^ 53 - 1) by lia.
    assert (Hroom : e + d - 52 <= 971).
    { destruct Hcarry as [H|H]; [exact H|]. rewrite Et in Hfloor. lia. }
    destruct (shr_fexp_normal t1 e' 54 loc_Exact) as [F1 F2]; try lia.
    destruct (shr_fexp prec emax t1 e' loc_Exact) as [mrs'' e''].
    cbn [fst snd] in F1, F2. rewrite F1, Et1.
    change (2 ^ 53 / 2 ^ (54 - 53)) with (Z.pos 4503599627370496).
    cbv iota beta.
    replace (e'' <=? emax - prec) with true
      by (symmetry; apply Z.leb_le; change (emax - prec) with 971; lia).
    exists 4503599627370496%positive, (k + 1).
    assert (HK1 : 2 ^ (k + 1) = 2 * 2 ^ k) by (rewrite Z.pow_add_r by lia; lia).
    rewrite HK1.
    split; [f_equal; lia|]. split; [lia|]. split; [lia|].
    split; nia.
Qed.

Lemma div2_half (e : Z) : 2 * Z.div2 e <= e <= 2 * Z.div2 e + 1.
Proof. rewrite Z.div2_div. pose proof (Z.div_mod e 2). pose proof (Z.mod_pos_bound e 2). lia. Qed.

(** The square root of a number of 105 or 106 digits, rounded to 53
    digits, is within its own size of the number once squared. *)
Lemma sqrt_round (A q r e : Z) :
  2 ^ 104 <= A <= 2 ^ 106 - 2 ^ 53 ->
  A = q * q + r -> 0 <= r <= 2 * q -> -1074 <= e <= 971 ->
  exists ms : positive,
    binary_round_aux prec emax false q e
      (if r =? 0 then loc_Exact
       else loc_Inexact (if r <=? q then Lt else Gt))
    = S754_finite false ms e
    /\ 2 ^ 52 <= Z.pos ms < 2 ^ 53
    /\ Z.abs (Z.pos ms * Z.pos ms - A) <= Z.pos ms.
Proof.
  intros HA Hq Hr He.
  assert (Hq52 : 2 ^ 52 <= q < 2 ^ 53).
  { destruct (Z_lt_le_dec q (2 ^ 52)) as [Hsmall|Hge];
      [|destruct (Z_lt_le_dec q (2 ^ 53)) as [Hlt|Hbig]; [lia|]].
    - pose proof (Z.mul_le_mono_nonneg (q + 1) (2 ^ 52) (q + 1) (2 ^ 52)
                    ltac:(lia) ltac:(lia) ltac:(lia) ltac:(lia)) as Hsq.
      change (2 ^ 52 * 2 ^ 52) with (2 ^ 104) in Hsq. lia.
    - pose proof (Z.mul_le_mono_nonneg (2 ^ 53) q (2 ^ 53) q
                    ltac:(lia) ltac:(lia) ltac:(lia) ltac:(lia)) as Hsq.
      change (2 ^ 53 * 2 ^ 53) with (2 ^ 106) in Hsq. lia. }
  set (l := if r =? 0 then loc_Exact
            else loc_Inexact (if r <=? q then Lt else Gt)).
  assert (Hround : (r <= q /\ round_nearest_even q l = q)
                   \/ (q < r /\ round_nearest_even q l = q + 1)).
  { unfold l. destruct (Z.eqb_spec r 0) as [E0|E0]; [left; cbn; lia|].
    destruct (Z.leb_spec r q); [left | right]; cbn; lia. }
  assert (Hno : round_nearest_even q l < 2 ^ 53).
  { destruct Hround as [[_ ->] | [Hlt ->]]; [lia|].
    destruct (Z_lt_le_dec (q + 1) (2 ^ 53)) as [H|H]; [exact H|].
    assert (Eq : q = 2 ^ 53 - 1) by lia. subst q. lia. }
  destruct (binary_round_aux_53 q e l Hq52 He Hno) as (ms & E & Ems).
  exists ms. split; [exact E|]. rewrite Ems.
  destruct Hround as [[Hle ->] | [Hlt ->]]; split; lia.
Qed.

(** The square root of a positive number of binary64: it does not round
    up to a power of two, and its square is within its mantissa of the
    number, in the units in which the root was taken. *)
Lemma SFsqrt_finite (mn : positive) (en : Z) :
  valid_binary (S754_finite false mn en) = true ->
  exists (ms : positive) (s es : Z),
    SFsqrt prec emax (S754_finite false mn en) = S754_finite false ms es
    /\ en = 2 * es + s
    /\ 2 ^ 52 <= Z.pos ms < 2 ^ 53
    /\ Z.abs (Z.pos ms * Z.pos ms - Z.pos mn * 2 ^ s) <= Z.pos ms
    /\ ((2 ^ 52 <= Z.pos mn /\ (s = 52 \/ s = 53) /\ -563 <= es <= 459)
        \/ (Z.pos mn < 2 ^ 52 /\ en = -1074 /\ 54 <= s <= 104)).
Proof.
  intros V.
  assert (Ve : en <= 971).
  { simpl in V. unfold SpecFloat.bounded in V. apply andb_prop in V.
    destruct V as [_ V]. apply Z.leb_le in V. exact V. }
  apply valid_exponent in V. destruct V as (V1 & V2 & V3).
  pose proof (digits2_pos_bounds mn) as [D1 D2].
  unfold SFsqrt, SFsqrt_core_binary. simpl Zdigits2.
  set (d := Z.pos (digits2_pos mn)) in *.
  assert (Hd : 1 <= d) by (unfold d; lia).
  rewrite fexp_eq.
  pose proof (div2_half (d + en + 1)) as Hh.
  pose proof (div2_half en) as Hh'.
  set (h := Z.div2 (d + en + 1)) in *.
  replace (Z.min (Z.max (h - 53) (-1074)) (Z.div2 en)) with (h - 53) by lia.
  set (s := en - 2 * (h - 53)).
  assert (Hs : d + s = 105 \/ d + s = 106) by (unfold s; lia).
  assert (Hs52 : 52 <= s) by lia.
  assert (Hshift : match s with
                   | Z.pos _ => Z.shiftl (Z.pos mn) s
                   | 0 => Z.pos mn
                   | Z.neg _ => 0
                   end = Z.pos mn * 2 ^ s).
  { destruct s as [|p|p] eqn:Es; try lia. now rewrite Z.shiftl_mul_pow2 by lia. }
  rewrite Hshift.
  assert (P : 0 < 2 ^ s) by (apply Z.pow_pos_nonneg; lia).
  assert (HA : 2 ^ 104 <= Z.pos mn * 2 ^ s <= 2 ^ 106 - 2 ^ 53).
  { assert (L1 : 2 ^ (d - 1) * 2 ^ s <= Z.pos mn * 2 ^ s)
      by (apply Z.mul_le_mono_nonneg_r; lia).
    assert (L2 : Z.pos mn * 2 ^ s <= (2 ^ d - 1) * 2 ^ s)
      by (apply Z.mul_le_mono_nonneg_r; lia).
    rewrite <- Z.pow_add_r in L1 by lia.
    rewrite Z.mul_sub_distr_r, <- Z.pow_add_r in L2 by lia.
    assert (L3 : 2 ^ 104 <= 2 ^ (d - 1 + s)) by (apply Z.pow_le_mono_r; lia).
    split; [lia|].
    destruct (Z.eq_dec s 52) as [E52|N52].
    - assert (Ed : d + s = 105) by lia. rewrite Ed in L2. lia.
    - assert (L4 : 2 ^ (d + s) <= 2 ^ 106) by (apply Z.pow_le_mono_r; lia).
      assert (L5 : 2 ^ 53 <= 2 ^ s) by (apply Z.pow_le_mono_r; lia).
      lia. }
  set (A := Z.pos mn * 2 ^ s) in *.
  pose proof (Z.sqrtrem_spec A ltac:(lia)) as Hq.
  destruct (Z.sqrtrem A) as [q r]. destruct Hq as [Hq Hr].
  destruct (sqrt_round A q r (h - 53) HA Hq Hr ltac:(lia))
    as (ms & E & Hms & Hclose).
  exists ms, s, (h - 53). rewrite E.
  split; [reflexivity|]. split; [unfold s; lia|]. split; [exact Hms|].
  split; [exact Hclose|].
  destruct (Z_lt_le_dec (Z.pos mn) (2 ^ 52)) as [Hsub|Hnorm].
  - right. split; [exact Hsub|].
    assert (Hd52 : d <= 52).
    { destruct (Z_lt_le_dec 52 d) as [L|L]; [|exact L].
      assert (2 ^ 52 <= 2 ^ (d - 1)) by (apply Z.pow_le_mono_r; lia). lia. }
    assert (Een : en = -1074).
    { destruct (Z.eq_dec en (-1074)) as [Y|N]; [exact Y|].
      specialize (V3 ltac:(lia)). lia. }
    split; [exact Een|]. unfold s. lia.
  - left. split; [exact Hnorm|].
    assert (Hd53 : d = 53).
    { destruct (Z.eq_dec d 53) as [Y|N]; [exact Y|].
      assert (2 ^ d <= 2 ^ 52) by (apply Z.pow_le_mono_r; lia). lia. }
    split; [lia|]. lia.
Qed.

(** The square of a number of 53 digits, to one unit in the last place,
    when it is in the range of the normal numbers. *)
Lemma SFmul_square_normal (ms : positive) (es : Z) :
  2 ^ 52 <= Z.pos ms < 2 ^ 53 -> -563 <= es <= 459 ->
  exists (mp : positive) (j : Z),
    SFmul prec emax (S754_finite false ms es) (S754_finite false ms es)
    = S754_finite false mp (es + es + j)
    /\ 52 <= j <= 54
    /\ 2 ^ 52 <= Z.pos mp < 2 ^ 53
    /\ (Z.pos mp - 1) * 2 ^ j <= Z.pos ms * Z.pos ms
    /\ Z.pos ms * Z.pos ms + 1 <= (Z.pos mp + 1) * 2 ^ j.
Proof.
  intros Hm He. cbn [SFmul xorb].
  change (Z.pos (PosDef.Pos.mul ms ms)) with (Z.pos ms * Z.pos ms).
  change (IntDef.Z.add es es) with (es + es).
  pose proof (Z.mul_le_mono_nonneg (2 ^ 52) (Z.pos ms) (2 ^ 52) (Z.pos ms)
                ltac:(lia) ltac:(lia) ltac:(lia) ltac:(lia)) as Hlo.
  pose proof (Z.mul_le_mono_nonneg (Z.pos ms) (2 ^ 53 - 1) (Z.pos ms) (2 ^ 53 - 1)
                ltac:(lia) ltac:(lia) ltac:(lia) ltac:(lia)) as Hhi.
  change (2 ^ 52 * 2 ^ 52) with (2 ^ 104) in Hlo.
  change ((2 ^ 53 - 1) * (2 ^ 53 - 1)) with (2 ^ 106 - 2 ^ 54 + 1) in Hhi.
  set (sq := Z.pos ms * Z.pos ms) in *.
  destruct (Z_lt_le_dec sq (2 ^ 105)) as [H105|H105].
  - destruct (binary_round_aux_normal sq (es + es) 105 loc_Exact)
      as (mp & j & E & Hj & Hmp & H1 & H2); try lia.
    exists mp, j. rewrite E. repeat split; try lia.
  - destruct (binary_round_aux_normal sq (es + es) 106 loc_Exact)
      as (mp & j & E & Hj & Hmp & H1 & H2); try lia.
    exists mp, j. rewrite E. repeat split; try lia.
Qed.

(** The square of the square root of a subnormal number is the number. *)
Lemma SFmul_square_subnormal (mn ms : positive) (s es : Z) :
  Z.pos mn < 2 ^ 52 -> 54 <= s <= 104 -> -1074 = 2 * es + s ->
  2 ^ 52 <= Z.pos ms < 2 ^ 53 ->
  Z.abs (Z.pos ms * Z.pos ms - Z.pos mn * 2 ^ s) <= Z.pos ms ->
  SFmul prec emax (S754_finite false ms es) (S754_finite false ms es)
  = S754_finite false mn (-1074).
Proof.
  intros Hmn Hs Hes Hms Hclose. cbn [SFmul xorb].
  change (Z.pos (PosDef.Pos.mul ms ms)) with (Z.pos ms * Z.pos ms).
  change (IntDef.Z.add es es) with (es + es).
  pose proof (Z.mul_le_mono_nonneg (Z.pos ms) (2 ^ 53 - 1) (Z.pos ms) (2 ^ 53 - 1)
                ltac:(lia) ltac:(lia) ltac:(lia) ltac:(lia)) as Hhi.
  change ((2 ^ 53 - 1) * (2 ^ 53 - 1)) with (2 ^ 106 - 2 ^ 54 + 1) in Hhi.
  assert (Es : -1074 - (es + es) = s) by lia.
  assert (L1 : 2 ^ 106 <= 2 ^ (-1021 - (es + es)))
    by (apply Z.pow_le_mono_r; lia).
  assert (L2 : 2 ^ 53 <= 2 ^ (s - 1)) by (apply Z.pow_le_mono_r; lia).
  apply binary_round_aux_subnormal; rewrite ?Es; try lia.
Qed.

(** The quotient of two normal numbers, to one unit in the last place. *)
Lemma SFdiv_normal (mn mp : positive) (en ep : Z) :
  2 ^ 52 <= Z.pos mn < 2 ^ 53 -> 2 ^ 52 <= Z.pos mp < 2 ^ 53 ->
  -900 <= en - ep <= 900 ->
  exists (mq : positive) (j : Z),
    SFdiv prec emax (S754_finite false mn en) (S754_finite false mp ep)
    = S754_finite false mq (en - ep - 53 + j)
    /\ 0 <= j <= 2
    /\ 2 ^ 52 <= Z.pos mq < 2 ^ 53
    /\ (Z.pos mq - 1) * 2 ^ j * Z.pos mp <= Z.pos mn * 2 ^ 53
    /\ Z.pos mn * 2 ^ 53 < (Z.pos mq + 1) * 2 ^ j * Z.pos mp.
Proof.
  intros Hn Hp He. unfold SFdiv, SFdiv_core_binary. cbn [xorb]. simpl Zdigits2.
  rewrite (digits2_pos_unique mn 53), (digits2_pos_unique mp 53)
    by (change (53 - 1) with 52; lia).
  rewrite fexp_eq.
  replace (Z.min (Z.max (53 + en - (53 + ep) - 53) (-1074)) (en - ep))
    with (en - ep - 53) by lia.
  replace (en - ep - (en - ep - 53)) with 53 by lia.
  rewrite Z.shiftl_mul_pow2 by lia.
  pose proof (Z_div_mod (Z.pos mn * 2 ^ 53) (Z.pos mp) ltac:(lia)) as Hd.
  destruct (Z.div_eucl (Z.pos mn * 2 ^ 53) (Z.pos mp)) as [qq r].
  destruct Hd as [Hd Hr].
  set (N := Z.pos mn * 2 ^ 53) in *.
  assert (HN : 2 ^ 105 <= N < 2 ^ 106) by (unfold N; lia).
  assert (Hqq : 2 ^ 52 <= qq < 2 ^ 54).
  { destruct (Z_lt_le_dec qq (2 ^ 52)) as [Hsmall|Hge];
      [|destruct (Z_lt_le_dec qq (2 ^ 54)) as [Hlt|Hbig]; [lia|]].
    - pose proof (Z.mul_le_mono_nonneg (Z.pos mp) (2 ^ 53) (qq + 1) (2 ^ 52)
                    ltac:(lia) ltac:(lia)) as Hsq.
      assert (0 <= qq + 1).
      { destruct (Z_lt_le_dec qq (-1)) as [Hneg|Hnn]; [|lia].
        pose proof (Z.mul_le_mono_nonneg_l (qq + 1) 0 (Z.pos mp)
                      ltac:(lia) ltac:(lia)). lia. }
      specialize (Hsq ltac:(lia) ltac:(lia)).
      change (2 ^ 53 * 2 ^ 52) with (2 ^ 105) in Hsq. lia.
    - pose proof (Z.mul_le_mono_nonneg (2 ^ 52) (Z.pos mp) (2 ^ 54) qq
                    ltac:(lia) ltac:(lia) ltac:(lia) ltac:(lia)) as Hsq.
      change (2 ^ 52 * 2 ^ 54) with (2 ^ 106) in Hsq. lia. }
  assert (Hdigits : exists d, (d = 53 \/ d = 54) /\ 2 ^ (d - 1) <= qq < 2 ^ d).
  { destruct (Z_lt_le_dec qq (2 ^ 53)) as [H53|H53].
    - exists 53. change (53 - 1) with 52. lia.
    - exists 54. change (54 - 1) with 53. lia. }
  destruct Hdigits as (d & Hd53 & Hdq).
  destruct (binary_round_aux_normal qq (en - ep - 53) d
              (new_location (Z.pos mp) r))
    as (mq & j & E & Hj & Hmq & H1 & H2); try lia.
  exists mq, j. rewrite E. split; [reflexivity|]. split; [lia|].
  split; [exact Hmq|].
  pose proof (Z.mul_le_mono_nonneg_r _ _ (Z.pos mp) ltac:(lia) H1) as G1.
  pose proof (Z.mul_le_mono_nonneg_r _ _ (Z.pos mp) ltac:(lia) H2) as G2.
  split; lia.
Qed.

(** A positive number of binary64 divided by itself is [1]. *)
Lemma SFdiv_self (m : positive) (e : Z) :
  SFdiv prec emax (S754_finite false m e) (S754_finite false m e)
  = S754_finite false 4503599627370496 (-52).
Proof.
  unfold SFdiv, SFdiv_core_binary. cbn [xorb].
  replace (Zdigits2 (Z.pos m) + e - (Zdigits2 (Z.pos m) + e)) with 0 by lia.
  replace (e - e) with 0 by lia.
  change (Z.min (fexp prec emax 0) 0) with (-53).
  change (0 - -53) with 53. cbv iota beta.
  rewrite Z.shiftl_mul_pow2 by lia.
  pose proof (Z_div_mod (Z.pos m * 2 ^ 53) (Z.pos m) ltac:(lia)) as Hd.
  destruct (Z.div_eucl (Z.pos m * 2 ^ 53) (Z.pos m)) as [q r].
  destruct Hd as [Hd Hr].
  assert (Eq : q = 2 ^ 53 /\ r = 0).
  { assert (Z.pos m * (2 ^ 53 - q) = r) by lia.
    destruct (Z.lt_trichotomy q (2 ^ 53)) as [L|[E|L]].
    - assert (Z.pos m * 1 <= Z.pos m * (2 ^ 53 - q))
        by (apply Z.mul_le_mono_nonneg_l; lia). lia.
    - subst q. lia.
    - assert (Z.pos m * (2 ^ 53 - q) <= Z.pos m * (-1))
        by (apply Z.mul_le_mono_nonneg_l; lia). lia. }
  destruct Eq as [-> ->]. 
  assert (El : new_location (Z.pos m) 0 = loc_Exact).
  { unfold new_location, new_location_even, new_location_odd.
    destruct (IntDef.Z.even (Z.pos m)); reflexivity. }
  rewrite El. vm_compute. reflexivity.
Qed.

(** Three roundings, each to one unit in the last place, of the square
    root [a], of its square [p] and of the quotient [q] of [n] by [p]:
    the quotient is within a few units of a power of two.  [U1], [U2],
    [U3] and [T] are the powers of two that align the mantissas. *)
Lemma self_quotient_chain (n a p q U1 U2 U3 T : Z) :
  0 < U1 -> 0 < U2 -> 0 < U3 -> 0 < T ->
  2 ^ 52 <= a -> 2 ^ 52 <= p ->
  ((a - 1) * U1) ^ 2 <= n * T -> n * T < ((a + 1) * U1) ^ 2 ->
  (p - 1) * U2 <= a * a -> a * a + 1 <= (p + 1) * U2 ->
  (q - 1) * U3 * p <= n * 2 ^ 53 -> n * 2 ^ 53 < (q + 1) * U3 * p ->
  2 ^ 103 * (q - 1) * (U3 * T)
  < (2 ^ 51 + 1) * (2 ^ 52 + 1) * (U1 * U1 * U2 * 2 ^ 53)
  /\ (2 ^ 51 - 1) * (2 ^ 52 - 1) * (U1 * U1 * U2 * 2 ^ 53)
     < 2 ^ 103 * (q + 1) * (U3 * T).
Proof.
  intros HU1 HU2 HU3 HT Ha Hp H1a H1b H2a H2b H3a H3b.
  rewrite Z.pow_2_r in H1a, H1b.
  pose proof (Z.mul_le_mono_nonneg_r _ _ a ltac:(lia) Ha) as A1.
  assert (HW : 0 <= U1 * U1 * 2 ^ 53) by (apply Z.mul_nonneg_nonneg; nia).
  pose proof (Z.mul_le_mono_nonneg_r _ _ T ltac:(lia) H3a) as H3aT.
  pose proof (proj1 (Z.mul_lt_mono_pos_r T _ _ HT) H3b) as H3bT.
  split; apply (Z.mul_lt_mono_pos_r p); try lia.
  - assert (S2 : 2 ^ 52 * (p + 1) <= (2 ^ 52 + 1) * p) by lia.
    pose proof (Z.mul_le_mono_nonneg_r _ _ U2 ltac:(lia) S2) as S2u.
    assert (S3 : 2 ^ 103 * ((a + 1) * (a + 1))
                 <= (2 ^ 51 + 1) * (2 ^ 52 + 1) * (p * U2)) by lia.
    pose proof (Z.mul_le_mono_nonneg_r _ _ (U1 * U1 * 2 ^ 53) HW S3) as S3w.
    lia.
  - assert (S2 : (2 ^ 52 - 1) * p <= 2 ^ 52 * (p - 1)) by lia.
    pose proof (Z.mul_le_mono_nonneg_r _ _ U2 ltac:(lia) S2) as S2u.
    assert (S3 : (2 ^ 51 - 1) * (2 ^ 52 - 1) * (p * U2)
                 <= 2 ^ 103 * ((a - 1) * (a - 1))) by lia.
    pose proof (Z.mul_le_mono_nonneg_r _ _ (U1 * U1 * 2 ^ 53) HW S3) as S3w.
    lia.
Qed.

(** [n / (√n · √n)] in binary64, for a positive [n]: at most four units
    in the last place above [1], or six below. *)
Lemma SF_self_quotient (mn : positive) (en : Z) :
  valid_binary (S754_finite false mn en) = true ->
  exists (mq : positive) (eq : Z),
    SFdiv prec emax (S754_finite false mn en)
      (SFmul prec emax (SFsqrt prec emax (S754_finite false mn en))
                       (SFsqrt prec emax (S754_finite false mn en)))
    = S754_finite false mq eq
    /\ ((eq = -52 /\ 2 ^ 52 <= Z.pos mq <= 2 ^ 52 + 4)
        \/ (eq = -53 /\ 2 ^ 53 - 6 <= Z.pos mq < 2 ^ 53)).
Proof.
  intros V.
  destruct (SFsqrt_finite mn en V)
    as (ms & s & es & E1 & Hes & Hms & Hclose & Hcases).
  rewrite E1.
  destruct Hcases as [(Hmn & Hs & Hrange) | (Hmn & Hen & Hs)].
  - assert (Hmn53 : Z.pos mn < 2 ^ 53).
    { apply valid_exponent in V. destruct V as (_ & V2 & _).
      pose proof (digits2_pos_bounds mn) as [_ D2].
      apply Z.lt_le_trans with (1 := D2). apply Z.pow_le_mono_r; lia. }
    destruct (SFmul_square_normal ms es Hms Hrange)
      as (mp & j2 & E2 & Hj2 & Hmp & R2a & R2b).
    rewrite E2.
    destruct (SFdiv_normal mn mp en (es + es + j2) ltac:(lia) Hmp ltac:(lia))
      as (mq & j3 & E3 & Hj3 & Hmq & R3a & R3b).
    rewrite E3. exists mq, (en - (es + es + j2) - 53 + j3).
    split; [reflexivity|].
    assert (P2 : 0 < 2 ^ j2) by (apply Z.pow_pos_nonneg; lia).
    assert (P3 : 0 < 2 ^ j3) by (apply Z.pow_pos_nonneg; lia).
    assert (P4 : 0 < 2 ^ s) by (apply Z.pow_pos_nonneg; lia).
    assert (R1a : ((Z.pos ms - 1) * 1) ^ 2 <= Z.pos mn * 2 ^ s)
      by (rewrite Z.pow_2_r; lia).
    assert (R1b : Z.pos mn * 2 ^ s < ((Z.pos ms + 1) * 1) ^ 2)
      by (rewrite Z.pow_2_r; lia).
    destruct (self_quotient_chain (Z.pos mn) (Z.pos ms) (Z.pos mp) (Z.pos mq)
                1 (2 ^ j2) (2 ^ j3) (2 ^ s) ltac:(lia) P2 P3 P4
                ltac:(lia) ltac:(lia) R1a R1b R2a R2b R3a R3b) as [Hup Hdown].
    clear R1a R1b R2a R2b R3a R3b E1 E2 E3 P2 P3 P4 Hclose V.
    assert (Ee : en - (es + es + j2) - 53 + j3 = s - j2 - 53 + j3) by lia.
    rewrite Ee. clear Ee Hes Hrange.
    assert (Hj2' : j2 = 52 \/ j2 = 53 \/ j2 = 54) by lia.
    assert (Hj3' : j3 = 0 \/ j3 = 1 \/ j3 = 2) by lia.
    destruct Hs as [-> | ->],
      Hj2' as [-> | [-> | ->]], Hj3' as [-> | [-> | ->]]; lia.
  - rewrite (SFmul_square_subnormal mn ms s es Hmn Hs ltac:(lia) Hms Hclose).
    rewrite Hen, SFdiv_self.
    exists 4503599627370496%positive, (-52). split; [reflexivity|].
    left. lia.
Qed.

Lemma binary_round_aux_not_negative (m e : Z) (l : location) :
  SFltb (binary_round_aux prec emax false m e l) (S754_zero false) = false.
Proof.
  unfold binary_round_aux.
  destruct (shr_fexp prec emax m e l) as [mrs' e'].
  destruct (shr_fexp prec emax _ e' loc_Exact) as [mrs'' e''].
  destruct (shr_m mrs'') as [|q|q]; try reflexivity.
  destruct (e'' <=? emax - prec)%Z; reflexivity.
Qed.

(** A square is not negative. *)
Lemma SFmul_square_not_negative (x : spec_float) :
  SFltb (SFmul prec emax x x) (S754_zero false) = false.
Proof.
  destruct x as [s|s| |s m e]; cbn [SFmul]; rewrite ?xorb_nilpotent;
    try reflexivity.
  apply binary_round_aux_not_negative.
Qed.

(** Neither is the sum of two numbers that are not negative. *)
Lemma SFadd_not_negative (x y : spec_float) :
  SFltb x (S754_zero false) = false -> SFltb y (S754_zero false) = false ->
  SFltb (SFadd prec emax x y) (S754_zero false) = false.
Proof.
  destruct x as [sx|sx| |sx mx ex], y as [sy|sy| |sy my ey];
    try destruct sx; try destruct sy; try discriminate; try reflexivity.
  intros _ _. cbn [SFadd cond_Zopp].
  set (ez := Z.min ex ey).
  change (Z.pos (fst (shl_align mx ex ez)) + Z.pos (fst (shl_align my ey ez)))%Z
    with (Z.pos (fst (shl_align mx ex ez) + fst (shl_align my ey ez))).
  cbn [binary_normalize]. unfold binary_round.
  destruct (shl_align _ ez _) as [mz ez'].
  apply binary_round_aux_not_negative.
Qed.

Local Close Scope Z_scope.

(** The positive numbers of binary64. *)
Lemma float_positive_finite (n : float) :
  (0 <? n)%float = true -> (n <? infinity)%float = true ->
  exists (mn : positive) (en : Z),
    Prim2SF n = S754_finite false mn en
    /\ valid_binary (S754_finite false mn en) = true.
Proof.
  rewrite !ltb_spec. pose proof (Prim2SF_valid n) as V.
  change (Prim2SF 0) with (S754_zero false).
  change (Prim2SF infinity) with (S754_infinity false).
  destruct (Prim2SF n) as [s|s| |s m e]; unfold SFltb, SFcompare;
    try discriminate; try (destruct s; discriminate).
  destruct s; [discriminate|]. intros _ _. now exists m, e.
Qed.

(** [n / (√n · √n)] is within [0.000005] of [1], and indeed within six
    units in the last place, for every positive number [n] of binary64. *)
Lemma float_self_quotient (n : float) :
  (0 <? n)%float = true -> (n <? infinity)%float = true ->
  (n =? 0)%float = false
  /\ closeToOne (n / (PrimFloat.sqrt n * PrimFloat.sqrt n)) = true
  /\ (0x1.ffffffffffffap-1 <=? n / (PrimFloat.sqrt n * PrimFloat.sqrt n))%float
     = true
  /\ (n / (PrimFloat.sqrt n * PrimFloat.sqrt n) <=? 0x1.0000000000004p+0)%float
     = true.
Proof.
  intros Hlo Hhi.
  destruct (float_positive_finite n Hlo Hhi) as (mn & en & En & V).
  split; [rewrite eqb_spec, En; reflexivity|].
  assert (Eq : exists (mq : positive) (eq : Z),
             Prim2SF (n / (PrimFloat.sqrt n * PrimFloat.sqrt n))
             = S754_finite false mq eq
             /\ ((eq = -52 /\ 2 ^ 52 <= Z.pos mq <= 2 ^ 52 + 4)
                 \/ (eq = -53 /\ 2 ^ 53 - 6 <= Z.pos mq < 2 ^ 53))%Z).
  { rewrite div_spec, mul_spec, sqrt_spec, En.
    apply SF_self_quotient; assumption. }
  destruct Eq as (mq & eq & Eq & Hcases).
  rewrite <- (SF2Prim_Prim2SF (n / (PrimFloat.sqrt n * PrimFloat.sqrt n))), Eq.
  clear - Hcases.
  destruct Hcases as [[-> Hm] | [-> Hm]].
  - assert (H : (mq = 4503599627370496 \/ mq = 4503599627370497
                 \/ mq = 4503599627370498 \/ mq = 4503599627370499
                 \/ mq = 4503599627370500)%positive) by lia.
    destruct H as [-> | [-> | [-> | [-> | ->]]]];
      vm_compute; repeat split; reflexivity.
  - assert (H : (mq = 9007199254740986 \/ mq = 9007199254740987
                 \/ mq = 9007199254740988 \/ mq = 9007199254740989
                 \/ mq = 9007199254740990 \/ mq = 9007199254740991)%positive)
      by lia.
    destruct H as [-> | [-> | [-> | [-> | [-> | ->]]]]];
      vm_compute; repeat split; reflexivity.
Qed.

(** A number that is not below infinity is infinity or [NaN], and
    [n / (√n · √n)] is then [NaN]. *)
Lemma float_self_quotient_nan (n : float) :
  (n <? infinity)%float = false ->
  (n =? 0)%float = false
  /\ (n / (PrimFloat.sqrt n * PrimFloat.sqrt n))%float = nan.
Proof.
  rewrite ltb_spec.
  change (Prim2SF infinity) with (S754_infinity false).
  intros Hinf.
  assert (E : n = infinity \/ n = nan).
  { rewrite <- (SF2Prim_Prim2SF n).
    destruct (Prim2SF n) as [s|s| |s m e]; unfold SFltb, SFcompare in *;
      try discriminate; try (destruct s; discriminate); auto.
    destruct s; [discriminate|]. left. reflexivity. }
  destruct E as [-> | ->]; split; vm_compute; reflexivity.
Qed.

End Binary64Rounding.

(** ** cosineSimilarity *)

Section CosineFacts.

Context {T : Type} (A : Arithmetic T).

(** The three sums of the loop are three sums. *)
Lemma cosineSums_from (a b : list T) (d na nb : T) :
  length a = length b ->
  fold_left (cosineStep A) (combine a b) (d, na, nb)
  = (fold_left (fun acc ab => add A acc (mul A (fst ab) (snd ab))) (combine a b) d,
     fold_left (fun acc x => add A acc (mul A x x)) a na,
     fold_left (fun acc x => add A acc (mul A x x)) b nb).
Proof.
  revert b d na nb. induction a as [|x a IH]; intros [|y b] d na nb Hlen;
    try discriminate; simpl; [reflexivity|].
  apply IH. now injection Hlen.
Qed.

Lemma cosineSums_eq (a b : list T) :
  length a = length b ->
  cosineSums A a b = (dotIn A a b, normSquaredIn A a, normSquaredIn A b).
Proof. intros H. now apply cosineSums_from. Qed.

Lemma dotIn_self_from (v : list T) (n : T) :
  fold_left (fun acc ab => add A acc (mul A (fst ab) (snd ab))) (combine v v) n
  = fold_left (fun acc x => add A acc (mul A x x)) v n.
Proof. revert n. induction v as [|x v IH]; intros n; simpl; auto. Qed.

Lemma dotIn_self (v : list T) : dotIn A v v = normSquaredIn A v.
Proof. apply dotIn_self_from. Qed.

(** On vectors of one length the result is the formula, but for the
    test of the norms. *)
Lemma cosineSimilarityIn_formula (a b : list T) :
  length a = length b ->
  cosineSimilarityIn A a b
  = inr (if isZero A (normSquaredIn A a) || isZero A (normSquaredIn A b)
         then zero A
         else div A (dotIn A a b) (mul A (normIn A a) (normIn A b))).
Proof.
  intros H. unfold cosineSimilarityIn.
  rewrite (proj2 (Nat.eqb_eq _ _) H). simpl.
  rewrite (cosineSums_eq a b H).
  now destruct (isZero A (normSquaredIn A a) || isZero A (normSquaredIn A b)).
Qed.

Lemma cosineSimilarityIn_mismatch (a b : list T) :
  length a <> length b ->
  cosineSimilarityIn A a b = inl (mkError "Vectors must have the same length").
Proof.
  intros H. unfold cosineSimilarityIn.
  now rewrite (proj2 (Nat.eqb_neq _ _) H).
Qed.

Hypothesis mul_comm : forall x y, mul A x y = mul A y x.

Lemma dotIn_comm_from (a b : list T) (d : T) :
  fold_left (fun acc ab => add A acc (mul A (fst ab) (snd ab))) (combine a b) d
  = fold_left (fun acc ab => add A acc (mul A (fst ab) (snd ab))) (combine b a) d.
Proof.
  revert b d. induction a as [|x a IH]; intros [|y b] d; simpl; try reflexivity.
  rewrite (mul_comm x y). apply IH.
Qed.

Lemma cosineSimilarityIn_comm (a b : list T) :
  cosineSimilarityIn A a b = cosineSimilarityIn A b a.
Proof.
  destruct (Nat.eq_dec (length a) (length b)) as [H|H].
  - rewrite (cosineSimilarityIn_formula a b H),
      (cosineSimilarityIn_formula b a (eq_sym H)).
    rewrite (orb_comm (isZero A (normSquaredIn A b))).
    unfold dotIn. rewrite (dotIn_comm_from b a), (mul_comm (normIn A b)).
    reflexivity.
  - rewrite (cosineSimilarityIn_mismatch a b H).
    symmetry. apply cosineSimilarityIn_mismatch. congruence.
Qed.

End CosineFacts.

Section CosineBinary64.

Local Abbreviation dot := (dotIn binary64).
Local Abbreviation normSquared := (normSquaredIn binary64).
Local Abbreviation norm := (normIn binary64).

Lemma normSquared_zero_vector (v : list float) :
  isZeroVector v -> normSquared v = 0%float.
Proof.
  unfold normSquaredIn. simpl zero.
  induction 1 as [|x v Hx _ IH]; simpl; [reflexivity|].
  destruct (float_is_zero x Hx) as [-> | ->]; exact IH.
Qed.

Lemma normSquared_not_negative_from (v : list float) (n : float) :
  (n <? 0)%float = false ->
  (fold_left (fun acc x => add binary64 acc (mul binary64 x x)) v n <? 0)%float
  = false.
Proof.
  revert n. induction v as [|x v IH]; intros n Hn; [exact Hn|].
  cbn [fold_left]. apply IH. cbn [add mul binary64].
  rewrite ltb_spec, add_spec, mul_spec. rewrite ltb_spec in Hn.
  apply SFadd_not_negative; [exact Hn|]. apply SFmul_square_not_negative.
Qed.

(** The square sum of a vector is not negative. *)
Lemma normSquared_not_negative (v : list float) :
  (normSquaredIn binary64 v <? 0)%float = false.
Proof. now apply normSquared_not_negative_from. Qed.

(** [cosineSimilarity(v, v)] when the square sum of [v] is positive and
    not infinity. *)
Lemma cosineSimilarity_self_binary64 (v : list float) :
  (0 <? normSquaredIn binary64 v)%float = true ->
  (normSquaredIn binary64 v <? infinity)%float = true ->
  exists q,
    cosineSimilarity v v = inr q
    /\ closeToOne q = true
    /\ (0x1.ffffffffffffap-1 <=? q)%float = true
    /\ (q <=? 0x1.0000000000004p+0)%float = true.
Proof.
  intros Hlo Hhi.
  destruct (float_self_quotient _ Hlo Hhi) as (Hz & Hclose & H1 & H2).
  unfold cosineSimilarity.
  rewrite (cosineSimilarityIn_formula binary64 v v eq_refl), dotIn_self.
  cbn [isZero binary64]. rewrite Hz. cbn [orb]. eexists. split; [reflexivity|].
  unfold normIn. cbn [div mul sqrt binary64]. auto.
Qed.

(** [cosineSimilarity(v, v)] when the square sum of [v] is infinity or
    [NaN]. *)
Lemma cosineSimilarity_self_nan (v : list float) :
  (normSquaredIn binary64 v <? infinity)%float = false ->
  cosineSimilarity v v = inr nan.
Proof.
  intros Hinf. destruct (float_self_quotient_nan _ Hinf) as (Hz & E).
  unfold cosineSimilarity.
  rewrite (cosineSimilarityIn_formula binary64 v v eq_refl), dotIn_self.
  cbn [isZero binary64]. rewrite Hz. cbn [orb].
  unfold normIn. cbn [div mul sqrt binary64]. now rewrite E.
Qed.

End CosineBinary64.

Section CosineExact.

Lemma normSquared_exact_grows (v : list R) (n : R) :
  (n <= fold_left (fun acc x => add exact acc (mul exact x x)) v n)%R.
Proof.
  revert n. induction v as [|x v IH]; intros n; simpl; [lra|].
  specialize (IH (n + x * x)%R). pose proof (Rle_0_sqr x) as Hx.
  unfold Rsqr in Hx. simpl in IH. lra.
Qed.

Lemma normSquared_exact_rises (v : list R) (n : R) :
  Exists (fun x => x <> 0%R) v ->
  (n < fold_left (fun acc x => add exact acc (mul exact x x)) v n)%R.
Proof.
  revert n. induction v as [|x v IH]; intros n Hex; [inversion Hex|]. simpl.
  apply Exists_cons in Hex. destruct Hex as [Hx | Hv].
  - pose proof (normSquared_exact_grows v (n + x * x)%R) as G.
    assert (0 < x * x)%R by (pose proof (Rsqr_pos_lt x Hx); now unfold Rsqr in *).
    simpl in G. lra.
  - specialize (IH (n + x * x)%R Hv). pose proof (Rle_0_sqr x) as Hx.
    unfold Rsqr in Hx. simpl in IH. lra.
Qed.

Lemma normSquared_exact_positive (v : list R) :
  Exists (fun x => x <> 0%R) v -> (0 < normSquaredIn exact v)%R.
Proof. apply normSquared_exact_rises. Qed.

Lemma cosineSimilarityExact_self (v : list R) :
  Exists (fun x => x <> 0%R) v -> cosineSimilarityExact v v = inr 1%R.
Proof.
  intros Hv. unfold cosineSimilarityExact.
  rewrite (cosineSimilarityIn_formula exact v v eq_refl), dotIn_self.
  pose proof (normSquared_exact_positive v Hv) as Hn.
  unfold normIn. set (n := normSquaredIn exact v) in *. simpl.
  destruct (Req_dec_T n 0) as [E|_]; [lra|]. simpl. f_equal.
  rewrite sqrt_sqrt by lra. field. lra.
Qed.

End CosineExact.

Example cosineSimilarity_identical :
  cosineSimilarity [1; 2; 3; 4; 5]%float [1; 2; 3; 4; 5]%float = inr 1%float.
Proof. vm_compute. reflexivity. Qed.

Example cosineSimilarity_opposite :
  cosineSimilarity [1; 0; 0; 0]%float [-1; 0; 0; 0]%float = inr (-1)%float.
Proof. vm_compute. reflexivity. Qed.

(** The result on a vector and itself need not be [1]: it is one unit in
    the last place above for [[1; 1; 1]], and one below for [[1; 1]]. *)
Example cosineSimilarity_self_rounds :
  cosineSimilarity [1; 1; 1]%float [1; 1; 1]%float
  = inr 0x1.0000000000001p+0%float
  /\ cosineSimilarity [1; 1]%float [1; 1]%float
     = inr 0x1.ffffffffffffep-1%float.
Proof. split; vm_compute; reflexivity. Qed.

Example cosineSimilarity_lengths :
  cosineSimilarity [1; 0; 0]%float [1; 0]%float
  = inl (mkError "Vectors must have the same length").
Proof. vm_compute. reflexivity. Qed.

(** C7, as the claim states it, fails on its last part: [[1e200]] is not
    the zero vector, its square sum overflows, and [cosineSimilarity] of it
    with itself is [NaN]; the square sum of [[1e-200]] underflows to [0],
    and the result is [0]; and the square sum of a vector with an entry
    that is [NaN] is [NaN], and so is the result.  None is close to [1].
    And a vector of zeros does not give [0] against a vector of another
    length: the lengths are compared first. *)
Lemma cosineSimilarity_self_not_close_to_one :
  (cosineSimilarity [1e200%float] [1e200%float] = inr nan
   /\ closeToOne nan = false)
  /\ (cosineSimilarity [1e-200%float] [1e-200%float] = inr 0%float
      /\ closeToOne 0 = false)
  /\ cosineSimilarity [1%float; nan] [1%float; nan] = inr nan
  /\ cosineSimilarity [0; 0]%float [1%float]
     = inl (mkError "Vectors must have the same length").
Proof. repeat split; vm_compute; reflexivity. Qed.

(** C7, as amended.  On vectors of one length [cosineSimilarity(a, b)]
    is [dot(a, b) / (‖a‖ · ‖b‖)], computed in binary64, unless the square
    sum of one of them is [0], when it is [0]; it does not depend on the
    order of its arguments; it is exactly [0], and raises nothing, when
    every entry of one of the two vectors is zero; it raises, and then
    raises the error of the dimensions, if and only if the lengths differ;
    [cosineSimilarity(v, v)] is [n / (√n · √n)] for the square sum [n]
    of [v]; it is within [0.000005] of [1], and indeed between
    [1 - 3 · 2^-52] and [1 + 2^-50], whenever [n] is positive and not
    infinity, a subnormal number or one next to the greatest as well; [n]
    is never negative, and when it is infinity or [NaN] the result is
    [NaN]; and the result is exactly [1] in real arithmetic for every [v]
    with an entry that is not zero. *)
Theorem cosineSimilarity_properties :
  (forall a b, length a = length b ->
     cosineSimilarity a b
     = inr (if (normSquaredIn binary64 a =? 0)%float
               || (normSquaredIn binary64 b =? 0)%float
            then 0%float
            else (dotIn binary64 a b
                  / (normIn binary64 a * normIn binary64 b))%float))
  /\ (forall a b, cosineSimilarity a b = cosineSimilarity b a)
  /\ (forall a b, length a = length b ->
        isZeroVector a \/ isZeroVector b ->
        cosineSimilarity a b = inr 0%float)
  /\ (forall a b,
        ((exists e, cosineSimilarity a b = inl e) <-> length a <> length b)
        /\ (length a <> length b ->
            cosineSimilarity a b
            = inl (mkError "Vectors must have the same length")))
  /\ (forall v,
        cosineSimilarity v v
        = inr (let n := normSquaredIn binary64 v in
               if (n =? 0)%float then 0%float
               else (n / (PrimFloat.sqrt n * PrimFloat.sqrt n))%float))
  /\ (forall v,
        (0 <? normSquaredIn binary64 v)%float = true ->
        (normSquaredIn binary64 v <? infinity)%float = true ->
        exists q,
          cosineSimilarity v v = inr q
          /\ closeToOne q = true
          /\ (0x1.ffffffffffffap-1 <=? q)%float = true
          /\ (q <=? 0x1.0000000000004p+0)%float = true)
  /\ (forall v, (normSquaredIn binary64 v <? 0)%float = false)
  /\ (forall v,
        (normSquaredIn binary64 v <? infinity)%float = false ->
        cosineSimilarity v v = inr nan)
  /\ (forall v : list R,
        Exists (fun x => x <> 0%R) v -> cosineSimilarityExact v v = inr 1%R).
Proof.
  split; [|split; [|split; [|split; [|split; [|split; [|split; [|split]]]]]]].
  - intros a b H. exact (cosineSimilarityIn_formula binary64 a b H).
  - intros a b. exact (cosineSimilarityIn_comm binary64 float_mul_comm a b).
  - intros a b H Hz. unfold cosineSimilarity.
    rewrite (cosineSimilarityIn_formula binary64 a b H).
    destruct Hz as [Hz|Hz]; rewrite (normSquared_zero_vector _ Hz); simpl.
    + reflexivity.
    + now rewrite orb_true_r.
  - intros a b. split; [split|].
    + intros (e & He) Hlen. unfold cosineSimilarity in He.
      rewrite (cosineSimilarityIn_formula binary64 a b Hlen) in He. discriminate.
    + intros Hlen. eexists. exact (cosineSimilarityIn_mismatch binary64 a b Hlen).
    + exact (cosineSimilarityIn_mismatch binary64 a b).
  - intros v. unfold cosineSimilarity.
    rewrite (cosineSimilarityIn_formula binary64 v v eq_refl), dotIn_self.
    simpl. now rewrite orb_diag.
  - exact cosineSimilarity_self_binary64.
  - exact normSquared_not_negative.
  - exact cosineSimilarity_self_nan.
  - exact cosineSimilarityExact_self.
Qed.

(** The zero vector, two lengths, and [cosineSimilarity(v, v)] for a square
    sum that is a normal number, for the subnormal square sum of
    [[1e-160]], for the square sum of [[1e154]], above [2^1019], and for
    the infinite one of [[1e200]]. *)
Lemma cosineSimilarity_properties_witness :
  cosineSimilarity [0; 0; 0]%float [1; 2; 3]%float = inr 0%float
  /\ cosineSimilarity [1; 2; 3]%float [1; 2]%float
     = inl (mkError "Vectors must have the same length")
  /\ (exists q,
        cosineSimilarity [0.1; 0.2; 0.3]%float [0.1; 0.2; 0.3]%float = inr q
        /\ closeToOne q = true)
  /\ (exists q,
        cosineSimilarity [1e-160%float] [1e-160%float] = inr q
        /\ closeToOne q = true)
  /\ (exists q,
        cosineSimilarity [1e154%float] [1e154%float] = inr q
        /\ closeToOne q = true)
  /\ cosineSimilarity [1e200%float] [1e200%float] = inr nan
  /\ cosineSimilarityExact [3; 4]%R [3; 4]%R = inr 1%R.
Proof.
  destruct cosineSimilarity_properties
    as (_ & _ & Hzero & Herr & _ & Hclose & _ & Hnan & Hself).
  split; [|split; [|split; [|split; [|split; [|split]]]]].
  - apply Hzero; [reflexivity|]. left. repeat constructor.
  - apply (Herr [1; 2; 3]%float [1; 2]%float). simpl. discriminate.
  - destruct (Hclose [0.1; 0.2; 0.3]%float) as (q & E & H & _);
      [vm_compute; reflexivity | vm_compute; reflexivity |].
    exists q. split; assumption.
  - destruct (Hclose [1e-160%float]) as (q & E & H & _);
      [vm_compute; reflexivity | vm_compute; reflexivity |].
    exists q. split; assumption.
  - destruct (Hclose [1e154%float]) as (q & E & H & _);
      [vm_compute; reflexivity | vm_compute; reflexivity |].
    exists q. split; assumption.
  - apply Hnan. vm_compute. reflexivity.
  - apply Hself. constructor. lra.
Defined.

(** ** calculateSimilarity and findBestMatch *)

Section SetFacts.

Lemma str_eqb_eq (a b : jsstring) : str_eqb a b = true <-> a = b.
Proof.
  revert b. induction a as [|x a IH]; intros [|y b]; simpl;
    try (split; [discriminate | congruence]); [tauto|].
  unfold char_eqb. rewrite andb_true_iff, N.eqb_eq, IH.
  split; [intros [-> ->]; reflexivity | intros E; injection E; auto].
Qed.

Lemma arrayIncludes_In (l : list jsstring) (x : jsstring) :
  arrayIncludes l x = true <-> In x l.
Proof.
  unfold arrayIncludes. rewrite existsb_exists. split.
  - intros (y & Hy & E). apply str_eqb_eq in E. now subst.
  - intros H. exists x. split; [exact H | now apply str_eqb_eq].
Qed.

Lemma setOfAux_spec (seen l : list jsstring) :
  NoDup (setOfAux seen l)
  /\ forall x, In x (setOfAux seen l) -> In x l /\ ~ In x seen.
Proof.
  revert seen. induction l as [|y l IH]; intros seen; simpl.
  - split; [constructor | contradiction].
  - destruct (arrayIncludes seen y) eqn:E.
    + destruct (IH seen) as [N S]. split; [exact N|].
      intros x Hx. destruct (S x Hx). auto.
    + destruct (IH (y :: seen)) as [N S]. split.
      * constructor; [|exact N]. intros Hy. destruct (S y Hy) as [_ C].
        apply C. now left.
      * intros x [<-|Hx].
        -- split; [now left|]. intros C. apply arrayIncludes_In in C. congruence.
        -- destruct (S x Hx) as [Hl Hs]. split; [now right|].
           intros C. apply Hs. now right.
Qed.

Lemma setOf_NoDup (l : list jsstring) : NoDup (setOf l).
Proof. apply setOfAux_spec. Qed.

Lemma filter_split_length {A} (f : A -> bool) (l : list A) :
  length l = length (filter f l) + length (filter (fun x => negb (f x)) l).
Proof.
  induction l as [|x l IH]; simpl; [reflexivity|].
  destruct (f x); simpl; lia.
Qed.

(** Two duplicate-free lists have as many elements of the first in the
    second as of the second in the first. *)
Lemma shared_length (a b : list jsstring) :
  NoDup a -> NoDup b ->
  length (filter (arrayIncludes b) a) = length (filter (arrayIncludes a) b).
Proof.
  intros Na Nb. apply Nat.le_antisymm; apply NoDup_incl_length;
    try (now apply NoDup_filter);
    intros x Hx; apply filter_In in Hx; destruct Hx as [Hx Hm];
    apply arrayIncludes_In in Hm; apply filter_In;
    (split; [exact Hm | now apply arrayIncludes_In]).
Qed.

End SetFacts.

Section MatcherSpecificationFacts.

Variable toLowerCase : jsstring -> jsstring.
Variable questions : list QA.t.

Lemma union_length (a b : list jsstring) :
  NoDup a -> NoDup b ->
  length (union a b) = length a + length b - countShared a b.
Proof.
  intros Na Nb. unfold union, countShared.
  rewrite length_app, (shared_length a b Na Nb).
  pose proof (filter_split_length (arrayIncludes a) b). lia.
Qed.

(** [calculateSimilarity] is the Jaccard index of the two word sets. *)
Lemma calculateSimilarity_jaccard (a b : jsstring) :
  calculateSimilarity toLowerCase a b = similarity toLowerCase a b.
Proof.
  unfold calculateSimilarity, similarity, jaccard, normalizeSet.
  destruct (_ || _); [reflexivity|].
  now rewrite union_length by apply setOf_NoDup.
Qed.

(** A similarity is between [0] and [1]. *)
Lemma calculateSimilarity_bounds (a b : jsstring) :
  (0 <= calculateSimilarity toLowerCase a b <= 1)%Q.
Proof.
  unfold calculateSimilarity.
  set (w1 := setOf (normalize toLowerCase a)).
  set (w2 := setOf (normalize toLowerCase b)).
  destruct ((length w1 =? 0) || (length w2 =? 0)) eqn:E.
  - split; [apply Qle_refl | discriminate].
  - apply orb_false_elim in E. destruct E as [E1 E2].
    apply Nat.eqb_neq in E1. apply Nat.eqb_neq in E2.
    assert (H1 : countShared w1 w2 <= length w1) by apply filter_length_le.
    assert (H2 : countShared w1 w2 <= length w2).
    { unfold countShared. apply NoDup_incl_length.
      - apply NoDup_filter, setOf_NoDup.
      - intros x Hx. apply filter_In in Hx. now apply arrayIncludes_In. }
    unfold Qle. simpl.
    set (u := length w1 + length w2 - countShared w1 w2).
    assert (Hu : Z.pos (Pos.of_nat u) = Z.of_nat u).
    { rewrite <- positive_nat_Z, Nat2Pos.id; [reflexivity | unfold u; lia]. }
    rewrite Hu. unfold u. split; lia.
Qed.

End MatcherSpecificationFacts.

Section MatcherFacts.

Variable toLowerCase : jsstring -> jsstring.
Variable questions : list QA.t.

Local Abbreviation keywordTurn := (keywordStep toLowerCase questions).
Local Abbreviation scanTurn := (scanStep toLowerCase).

(** The first loop, read with [highestScore] as the score of [bestMatch]. *)
Lemma keywordStep_specified (query : jsstring) (best : option Match.t)
    (entry : jsstring * nat) :
  snd entry < length questions ->
  keywordTurn query (toLowerCase query) (inr (best, currentScore best)) entry
  = inr (keywordPass toLowerCase questions query best entry,
         currentScore (keywordPass toLowerCase questions query best entry)).
Proof.
  destruct entry as [keyword index]. simpl. intros Hlt.
  unfold keywordStep, keywordPass. simpl.
  destruct (includes (toLowerCase query) keyword); [|reflexivity].
  destruct (nth_error questions index) as [qa|] eqn:E.
  - rewrite calculateSimilarity_jaccard.
    destruct (Qlt_bool _ _); reflexivity.
  - apply nth_error_None in E. lia.
Qed.

Lemma keywordLoop_specified (query : jsstring) (l : list (jsstring * nat))
    (best : option Match.t) :
  Forall (fun entry => snd entry < length questions) l ->
  fold_left (keywordTurn query (toLowerCase query)) l
    (inr (best, currentScore best))
  = inr (fold_left (keywordPass toLowerCase questions query) l best,
         currentScore (fold_left (keywordPass toLowerCase questions query) l best)).
Proof.
  intros H. revert best.
  induction H as [|entry l He _ IH]; intros best; cbn [fold_left].
  - reflexivity.
  - rewrite (keywordStep_specified query best entry He). apply IH.
Qed.

Lemma scanStep_specified (query : jsstring) (best : option Match.t)
    (qa : QA.t) :
  scanTurn query (best, currentScore best) qa
  = (fullScanPass toLowerCase query best qa,
     currentScore (fullScanPass toLowerCase query best qa)).
Proof.
  unfold scanStep, fullScanPass. rewrite calculateSimilarity_jaccard.
  destruct (Qlt_bool _ _); reflexivity.
Qed.

Lemma scanLoop_specified (query : jsstring) (l : list QA.t)
    (best : option Match.t) :
  fold_left (scanTurn query) l (best, currentScore best)
  = (fold_left (fullScanPass toLowerCase query) l best,
     currentScore (fold_left (fullScanPass toLowerCase query) l best)).
Proof.
  revert best.
  induction l as [|qa l IH]; intros best; cbn [fold_left]; [reflexivity|].
  rewrite scanStep_specified. apply IH.
Qed.

Lemma keywords_in_range :
  5 <= length questions ->
  Forall (fun entry : jsstring * nat => snd entry < length questions) keywords.
Proof. intros H. unfold keywords. repeat constructor; simpl; lia. Qed.

Lemma keywordStep_error (query lower : jsstring) (l : list (jsstring * nat))
    (e : Error) :
  fold_left (keywordTurn query lower) l (inl e) = inl e.
Proof. induction l as [|entry l IH]; simpl; auto. Qed.

Lemma keywordStep_wellFormed (query lower : jsstring) (st st' : Best)
    (entry : jsstring * nat) :
  wellFormed questions st ->
  keywordTurn query lower (inr st) entry = inr st' ->
  wellFormed questions st'.
Proof.
  destruct st as [best score], entry as [keyword index].
  unfold keywordStep. intros W.
  destruct (includes lower keyword); [|intros E; injection E as <-; exact W].
  destruct (nth_error questions index) as [qa|] eqn:En; [|discriminate].
  destruct (Qlt_bool _ _); intros E; injection E as <-; [|exact W].
  unfold wellFormed. simpl. split; [reflexivity|]. split.
  - exists qa. split; [now apply nth_error_In with index | auto].
  - apply Q.max_lub; [apply calculateSimilarity_bounds | discriminate].
Qed.

Lemma keywordLoop_wellFormed (query lower : jsstring)
    (l : list (jsstring * nat)) (st st' : Best) :
  wellFormed questions st ->
  fold_left (keywordTurn query lower) l (inr st) = inr st' ->
  wellFormed questions st'.
Proof.
  revert st. induction l as [|entry l IH]; intros st W; cbn [fold_left].
  - intros E. injection E as <-. exact W.
  - destruct (keywordTurn query lower (inr st) entry) as [e|st1] eqn:E1.
    + rewrite keywordStep_error. discriminate.
    + apply IH. now apply keywordStep_wellFormed with query lower st entry.
Qed.

Lemma scanLoop_wellFormed (query : jsstring) (l : list QA.t) (st : Best) :
  incl l questions ->
  wellFormed questions st ->
  wellFormed questions (fold_left (scanTurn query) l st).
Proof.
  revert st.
  induction l as [|qa l IH]; intros st Hincl W; cbn [fold_left]; [exact W|].
  apply IH; [intros x Hx; apply Hincl; now right|].
  destruct st as [best score]. unfold scanStep.
  destruct (Qlt_bool _ _); [|exact W].
  unfold wellFormed. simpl. split; [reflexivity|]. split.
  - exists qa. split; [apply Hincl; now left | auto].
  - apply calculateSimilarity_bounds.
Qed.

End MatcherFacts.

Example calculateSimilarity_disjoint :
  (calculateSimilarity toLowerCaseASCII (js "apple banana cherry") (js "dog elephant frog")
   == 0)%Q.
Proof. vm_compute. reflexivity. Qed.

Example calculateSimilarity_overlap :
  calculateSimilarity toLowerCaseASCII (js "hello world today") (js "hello world tomorrow")
  = (2 # 4)%Q.
Proof. vm_compute. reflexivity. Qed.

(** A keyword match is raised to [0.5]. *)
Example findBestMatch_keyword_boost :
  exists m,
    findBestMatch toLowerCaseASCII exampleCatalog (js "What is EVA?") = inr (Some m)
    /\ Match.matchedQuestion m
       = js "What does the eligibility verification agent (EVA) do?"
    /\ Match.confidence m = (1 # 2)%Q.
Proof. eexists. vm_compute. repeat split. Qed.

Example findBestMatch_gibberish :
  findBestMatch toLowerCaseASCII exampleCatalog (js "asdfghjkl qwerty") = inr None.
Proof. vm_compute. reflexivity. Qed.

(** The full scan takes over from a keyword match when its score is higher. *)
Example findBestMatch_scan_overrides :
  exists m,
    findBestMatch toLowerCaseASCII exampleCatalog
      (js "eva: how does the payment posting agent work") = inr (Some m)
    /\ Match.matchedQuestion m
       = js "How does the payment posting agent (PHIL) work?".
Proof. eexists. vm_compute. repeat split. Qed.

(** C4.  With the five questions the keyword table points to in the
    catalog, [findBestMatch] is the two passes of the specification over a
    best score that starts at [0]: the keyword pass, which records
    [max(similarity, 0.5)] for a keyword found in the lowercased query
    whose question scores strictly above the best; the full scan, which
    records the similarity itself of an entry that scores strictly above
    the best; and the final test, which returns the best only if its
    confidence is at least [0.3].  The similarity is the Jaccard index of
    the two word sets. *)
Theorem findBestMatch_two_passes (toLowerCase : jsstring -> jsstring)
    (questions : list QA.t) (query : jsstring) :
  5 <= length questions ->
  findBestMatch toLowerCase questions query
  = inr (findBestMatchSpecified toLowerCase questions query)
  /\ (forall a b,
        calculateSimilarity toLowerCase a b = similarity toLowerCase a b).
Proof.
  intros Hlen. split; [|intros a b; apply calculateSimilarity_jaccard].
  unfold findBestMatch, findBestMatchSpecified.
  assert (K : fold_left
                (keywordStep toLowerCase questions query (toLowerCase query))
                keywords (inr (None, 0%Q))
              = inr (fold_left (keywordPass toLowerCase questions query) keywords None,
                     currentScore
                       (fold_left (keywordPass toLowerCase questions query)
                          keywords None))).
  { exact (keywordLoop_specified toLowerCase questions query keywords None
             (keywords_in_range questions Hlen)). }
  rewrite K, scanLoop_specified.
  destruct (fold_left (fullScanPass toLowerCase query) questions _) as [m|].
  - unfold SIMILARITY_THRESHOLD. simpl currentScore.
    now destruct (Qle_bool (3 # 10) (Match.confidence m)).
  - reflexivity.
Qed.

Lemma findBestMatch_two_passes_witness :
  findBestMatch toLowerCaseASCII exampleCatalog (js "What is EVA?")
  = inr (findBestMatchSpecified toLowerCaseASCII exampleCatalog (js "What is EVA?"))
  /\ (forall a b,
        calculateSimilarity toLowerCaseASCII a b = similarity toLowerCaseASCII a b).
Proof.
  apply (findBestMatch_two_passes toLowerCaseASCII exampleCatalog (js "What is EVA?")).
  simpl. lia.
Defined.

(** C10.  A match that [findBestMatch] returns is made of the question and
    the answer of one entry of the catalog, and its confidence is between
    [0.3] and [1]. *)
Theorem findBestMatch_from_catalog (toLowerCase : jsstring -> jsstring)
    (questions : list QA.t) (query : jsstring) (m : Match.t) :
  findBestMatch toLowerCase questions query = inr (Some m) ->
  exists qa,
    In qa questions
    /\ Match.matchedQuestion m = QA.question qa
    /\ Match.answer m = QA.answer qa
    /\ (3 # 10 <= Match.confidence m <= 1)%Q.
Proof.
  unfold findBestMatch.
  destruct (fold_left _ keywords _) as [e|afterKeywords] eqn:E1; [discriminate|].
  assert (W1 : wellFormed questions afterKeywords).
  { apply (keywordLoop_wellFormed toLowerCase questions query
             (toLowerCase query) keywords (None, 0%Q) afterKeywords);
      [exact I | exact E1]. }
  pose proof (scanLoop_wellFormed toLowerCase questions query questions
                afterKeywords (incl_refl _) W1) as W2.
  destruct (fold_left _ questions afterKeywords) as [best score].
  destruct (Qle_bool SIMILARITY_THRESHOLD score) eqn:T; [|discriminate].
  intros E. injection E as ->.
  unfold wellFormed in W2. simpl in W2.
  destruct W2 as (-> & (qa & Hin & Hq & Ha) & Hle).
  apply Qle_bool_iff in T.
  exists qa. repeat split; assumption.
Qed.

Lemma findBestMatch_from_catalog_witness :
  exists qa,
    In qa exampleCatalog
    /\ js "What does the eligibility verification agent (EVA) do?" = QA.question qa
    /\ QA.answer (hd {| QA.question := []; QA.answer := [] |} exampleCatalog)
       = QA.answer qa
    /\ (3 # 10 <= 1 # 2 <= 1)%Q.
Proof.
  apply (findBestMatch_from_catalog toLowerCaseASCII exampleCatalog
           (js "What is EVA?")
           {| Match.answer :=
                QA.answer (hd {| QA.question := []; QA.answer := [] |} exampleCatalog);
              Match.matchedQuestion :=
                js "What does the eligibility verification agent (EVA) do?";
              Match.confidence := 1 # 2 |}).
  vm_compute. reflexivity.
Defined.

(** ** getAgentResponse *)

Section AsyncFacts.

Context {W : Type} (c : Client W).

Lemma run_bind {A B} (p : Async A) (f : A -> Async B) (w : W) :
  run c (bind p f) w
  = let '(r, w1, reqs) := run c p w in
    match r with
    | inl e => (inl e, w1, reqs)
    | inr a =>
        let '(r2, w2, reqs2) := run c (f a) w1 in
        (r2, w2, reqs ++ reqs2)
    end.
Proof.
  revert w. induction p as [a|e|input k IH|messages k IH]; intros w; simpl.
  - now destruct (run c (f a) w) as [[r2 w2] reqs2].
  - reflexivity.
  - destruct (createEmbedding c input w) as [r w1]. rewrite IH.
    destruct (run c (k r) w1) as [[[e|a] w2] reqs]; [reflexivity|].
    now destruct (run c (f a) w2) as [[r3 w3] reqs3].
  - destruct (createChatCompletion c messages w) as [r w1]. rewrite IH.
    destruct (run c (k r) w1) as [[[e|a] w2] reqs]; [reflexivity|].
    now destruct (run c (f a) w2) as [[r3 w3] reqs3].
Qed.

(** A failure of the [try] block runs the handler, from the world the
    block left; a success is returned as it is. *)
Lemma run_tryCatch {A} (p : Async A) (handler : Error -> Async A) (w : W) :
  run c (tryCatch p handler) w
  = let '(r, w1, reqs) := run c p w in
    match r with
    | inr a => (inr a, w1, reqs)
    | inl e =>
        let '(r2, w2, reqs2) := run c (handler e) w1 in
        (r2, w2, reqs ++ reqs2)
    end.
Proof.
  revert w. induction p as [a|e|input k IH|messages k IH]; intros w; simpl.
  - reflexivity.
  - now destruct (run c (handler e) w) as [[r2 w2] reqs2].
  - destruct (createEmbedding c input w) as [r w1]. rewrite IH.
    destruct (run c (k r) w1) as [[[e|a] w2] reqs]; [|reflexivity].
    now destruct (run c (handler e) w2) as [[r3 w3] reqs3].
  - destruct (createChatCompletion c messages w) as [r w1]. rewrite IH.
    destruct (run c (k r) w1) as [[[e|a] w2] reqs]; [|reflexivity].
    now destruct (run c (handler e) w2) as [[r3 w3] reqs3].
Qed.

End AsyncFacts.

Lemma Qlt_bool_iff (a b : Q) : Qlt_bool a b = true <-> (a < b)%Q.
Proof.
  unfold Qlt_bool. rewrite negb_true_iff. split.
  - intros H. apply Qnot_le_lt. intros L. apply Qle_bool_iff in L. congruence.
  - intros H. destruct (Qle_bool b a) eqn:E; [|reflexivity].
    apply Qle_bool_iff in E. exfalso. now apply (Qlt_not_le a b).
Qed.

Lemma run_fallbackTier {W} (c : Client W) (userQuery : jsstring)
    (conversationHistory : list Message) (w : W) :
  run c (fallbackTier userQuery conversationHistory) w
  = let '(r, w1, reqs) := run c (getOpenAIResponse userQuery conversationHistory) w in
    (fallbackAnswer r, w1, reqs).
Proof.
  unfold fallbackTier. rewrite run_bind.
  destruct (run c (getOpenAIResponse userQuery conversationHistory) w)
    as [[[e|a] w1] reqs]; simpl; [reflexivity|].
  now rewrite app_nil_r.
Qed.

(** C3.  When [findBestMatch] returns a match whose confidence is above
    [0.6], [getAgentResponse] returns, without awaiting anything, the
    answer, the question and the confidence of that match, tagged
    [predefined]; so against every client, and whatever the store and the
    history, it makes no request and leaves the world as it was. *)
Theorem getAgentResponse_predefined (toLowerCase : jsstring -> jsstring)
    (questions : list QA.t) (vectorStore : VectorStore)
    (userQuery : jsstring) (conversationHistory : list Message) (m : Match.t) :
  findBestMatch toLowerCase questions userQuery = inr (Some m) ->
  (6 # 10 < Match.confidence m)%Q ->
  let response :=
    {| Response.answer := Match.answer m;
       Response.source := js "predefined";
       Response.confidence := Some (ratio (Match.confidence m));
       Response.matchedQuestion := Some (Match.matchedQuestion m);
       Response.ragSources := None |} in
  getAgentResponse toLowerCase questions vectorStore userQuery conversationHistory
  = Return response
  /\ forall (W : Type) (c : Client W) (w : W),
       run c (getAgentResponse toLowerCase questions vectorStore userQuery
                conversationHistory) w
       = (inr response, w, []).
Proof.
  intros Hm Hc response.
  assert (E : getAgentResponse toLowerCase questions vectorStore userQuery
                conversationHistory = Return response).
  { unfold getAgentResponse. rewrite Hm.
    apply Qlt_bool_iff in Hc. now rewrite Hc. }
  split; [exact E|]. intros W c w. now rewrite E.
Qed.

(** C8, as amended.  When no match has a confidence above [0.6] and the
    store is initialized, a failure of the retrieval tier, in its search or
    in its chat request, is not the outcome of [getAgentResponse]: the
    outcome is that of the last tier, run from the world the failed tier
    left.  It is the answer of the chat request with [source] ['openai'],
    no confidence and no matched question; the caller sees an error only
    if that request fails, and then sees the error of that request. *)
Theorem getAgentResponse_falls_through (toLowerCase : jsstring -> jsstring)
    (questions : list QA.t) (vectorStore : VectorStore)
    (userQuery : jsstring) (conversationHistory : list Message)
    (predefinedMatch : option Match.t)
    (W : Type) (c : Client W) (w w1 : W) (e : Error) (reqs : list Request) :
  findBestMatch toLowerCase questions userQuery = inr predefinedMatch ->
  (forall m, predefinedMatch = Some m -> ~ (6 # 10 < Match.confidence m)%Q) ->
  isInitialized vectorStore = true ->
  run c (ragTier vectorStore userQuery conversationHistory) w = (inl e, w1, reqs) ->
  run c (getAgentResponse toLowerCase questions vectorStore userQuery
           conversationHistory) w
  = let '(r, w2, reqs2) :=
      run c (getOpenAIResponse userQuery conversationHistory) w1 in
    (fallbackAnswer r, w2, reqs ++ reqs2).
Proof.
  intros Hm Hlow Hinit Hfail.
  assert (E : getAgentResponse toLowerCase questions vectorStore userQuery
                conversationHistory
              = laterTiers vectorStore userQuery conversationHistory).
  { unfold getAgentResponse. rewrite Hm.
    destruct predefinedMatch as [m|]; [|reflexivity].
    destruct (Qlt_bool (6 # 10) (Match.confidence m)) eqn:Q; [|reflexivity].
    apply Qlt_bool_iff in Q. now elim (Hlow m eq_refl). }
  rewrite E. unfold laterTiers. rewrite Hinit, run_tryCatch, Hfail.
  rewrite run_fallbackTier.
  now destruct (run c (getOpenAIResponse userQuery conversationHistory) w1)
    as [[r w2] reqs2].
Qed.

Lemma getAgentResponse_predefined_witness :
  getAgentResponse toLowerCaseASCII exampleCatalog exampleStore
    (js "What does the eligibility verification agent EVA do?") []
  = Return {| Response.answer := Match.answer evaMatch;
              Response.source := js "predefined";
              Response.confidence := Some (ratio (Match.confidence evaMatch));
              Response.matchedQuestion := Some (Match.matchedQuestion evaMatch);
              Response.ragSources := None |}
  /\ forall (W : Type) (c : Client W) (w : W),
       run c (getAgentResponse toLowerCaseASCII exampleCatalog exampleStore
                (js "What does the eligibility verification agent EVA do?") []) w
       = (inr {| Response.answer := Match.answer evaMatch;
                 Response.source := js "predefined";
                 Response.confidence := Some (ratio (Match.confidence evaMatch));
                 Response.matchedQuestion := Some (Match.matchedQuestion evaMatch);
                 Response.ragSources := None |}, w, []).
Proof.
  apply (getAgentResponse_predefined toLowerCaseASCII exampleCatalog exampleStore
           (js "What does the eligibility verification agent EVA do?") [] evaMatch).
  - vm_compute. reflexivity.
  - reflexivity.
Defined.

Lemma getAgentResponse_falls_through_witness :
  run embeddingsDown
    (getAgentResponse toLowerCaseASCII exampleCatalog exampleStore
       (js "What is the weather today?") []) tt
  = let '(r, w2, reqs2) :=
      run embeddingsDown (getOpenAIResponse (js "What is the weather today?") []) tt in
    (fallbackAnswer r, w2,
     [EmbeddingRequest (js "What is the weather today?")] ++ reqs2).
Proof.
  apply (getAgentResponse_falls_through toLowerCaseASCII exampleCatalog exampleStore
           (js "What is the weather today?") [] None unit embeddingsDown tt tt
           (mkError "Embedding API error")
           [EmbeddingRequest (js "What is the weather today?")]).
  - vm_compute. reflexivity.
  - discriminate.
  - reflexivity.
  - vm_compute. reflexivity.
Defined.

(** C8, as the claim states it, fails on the tag: the answer that follows
    a failed search has the [source] ['openai'], not ['fallback']. *)
Lemma getAgentResponse_fallback_tag :
  exists response,
    run embeddingsDown
      (getAgentResponse toLowerCaseASCII exampleCatalog exampleStore
         (js "What is the weather today?") []) tt
    = (inr response, tt,
       [EmbeddingRequest (js "What is the weather today?");
        ChatRequest (chatMessages (js "What is the weather today?") [] None)])
    /\ Response.source response = js "openai"
    /\ Response.source response <> js "fallback".
Proof.
  eexists. split; [vm_compute; reflexivity|].
  split; [reflexivity | vm_compute; discriminate].
Qed.

(** The same run, in full: the search fails, the last tier answers. *)
Example getAgentResponse_after_failed_search :
  run embeddingsDown
    (getAgentResponse toLowerCaseASCII exampleCatalog exampleStore
       (js "What is the weather today?") []) tt
  = (inr {| Response.answer := js "Mocked OpenAI response";
            Response.source := js "openai";
            Response.confidence := None;
            Response.matchedQuestion := None;
            Response.ragSources := None |},
     tt,
     [EmbeddingRequest (js "What is the weather today?");
      ChatRequest (chatMessages (js "What is the weather today?") [] None)]).
Proof. vm_compute. reflexivity. Qed.

(** The retrieval tier, when it succeeds. *)
Example getAgentResponse_rag :
  exists answer sources,
    run steadyClient
      (getAgentResponse toLowerCaseASCII exampleCatalog exampleStore
         (js "What is the weather today?") []) tt
    = (inr {| Response.answer := answer;
              Response.source := js "rag";
              Response.confidence := Some (double 0.8);
              Response.matchedQuestion := None;
              Response.ragSources := Some sources |},
       tt,
       [EmbeddingRequest (js "What is the weather today?");
        ChatRequest
          (chatMessages (js "What is the weather today?") []
             (Some {| context :=
                        js "[Source: Prior Authorization]" ++ [newline]
                        ++ js "Prior Authorization automates healthcare approval workflows.";
                      sources := sources;
                      hasContext := true |}))]).
Proof. eexists _, _. vm_compute. reflexivity. Qed.

(** ** initializeKnowledgeBase *)

Section SingleFlight.

Lemma after_snoc (events : list Event) (ev : Event) :
  after (events ++ [ev]) = step (after events) ev.
Proof. unfold after. now rewrite fold_left_app. Qed.

(** While a round is in flight the store is not initialized: a forced
    round has cleared it, and a round that is not forced starts on a store
    that is not initialized. *)
Lemma in_flight_uninitialized (events : list Event) (p : Promise) :
  initializationPromise (after events) = Some p ->
  isInitialized (vectorStore (after events)) = false.
Proof.
  induction events as [|ev events IH] using rev_ind; [discriminate|].
  rewrite after_snoc. set (s := after events) in *.
  destruct ev as [caller force | r]; simpl.
  - unfold call.
    destruct (isInitialized (vectorStore s) && negb force) eqn:E; [exact IH|].
    destruct (initializationPromise s) as [q|] eqn:Eq; simpl.
    + exact IH.
    + intros _. destruct force; [reflexivity|].
      now rewrite andb_true_r in E.
  - unfold finish. destruct (initializationPromise s) as [q|] eqn:Eq; simpl.
    + discriminate.
    + rewrite Eq. discriminate.
Qed.

Lemma call_in_flight (s : State) (p : Promise) (caller : nat) (force : bool) :
  initializationPromise s = Some p ->
  isInitialized (vectorStore s) = false ->
  call caller force s
  = {| vectorStore := vectorStore s;
       initializationPromise := Some p;
       initializationError := initializationError s;
       performed := performed s;
       waiting := waiting s ++ [(caller, p)];
       settled := settled s |}.
Proof. intros Hp Hi. unfold call. now rewrite Hi, Hp. Qed.

Lemma call_forced_idle (s : State) (caller : nat) :
  initializationPromise s = None ->
  call caller true s
  = {| vectorStore := emptyStore;
       initializationPromise := Some (performed s);
       initializationError := initializationError s;
       performed := S (performed s);
       waiting := waiting s ++ [(caller, performed s)];
       settled := settled s |}.
Proof. intros Hp. unfold call. now rewrite andb_false_r, Hp. Qed.

Lemma finish_settles (r : Round) (s : State) (p : Promise) (caller : nat) :
  initializationPromise s = Some p ->
  In (caller, p) (waiting s) ->
  In (caller, performInitializationEnd r) (settled (finish r s)).
Proof.
  intros Hp Hw. unfold finish. rewrite Hp. simpl.
  apply in_or_app. right.
  apply (in_map (fun w => (fst w, performInitializationEnd r)) _ (caller, p)).
  apply filter_In. split; [exact Hw | apply Nat.eqb_refl].
Qed.

Lemma two_forced_calls (s : State) (c1 c2 : nat) :
  initializationPromise s = None ->
  performed (call c2 true (call c1 true s)) = S (performed s)
  /\ initializationPromise (call c2 true (call c1 true s)) = Some (performed s)
  /\ In (c1, performed s) (waiting (call c2 true (call c1 true s)))
  /\ In (c2, performed s) (waiting (call c2 true (call c1 true s))).
Proof.
  intros Hidle. rewrite (call_forced_idle s c1 Hidle).
  rewrite (call_in_flight _ (performed s) c2 true) by reflexivity. simpl.
  repeat split.
  - apply in_or_app. left. apply in_or_app. simpl. auto.
  - apply in_or_app. simpl. auto.
Qed.

End SingleFlight.

(** C9.  In every state the service reaches: while a round is in flight, a
    call of [initializeKnowledgeBase], forced or not, waits for the promise
    of that round and starts nothing, and is settled with the result or the
    error of the round when it ends; two calls [initializeKnowledgeBase(true)]
    made one after the other with no round in flight start one round, and
    when the round ends both are settled with its result or its error; the
    handle is then cleared, and the next forced call starts a new round. *)
Theorem initializeKnowledgeBase_single_flight
    (events : list Event) (c1 c2 c3 : nat) (r : Round) :
  (forall p caller force,
     initializationPromise (after events) = Some p ->
     performed (call caller force (after events)) = performed (after events)
     /\ initializationPromise (call caller force (after events)) = Some p
     /\ In (caller, p) (waiting (call caller force (after events)))
     /\ In (caller, performInitializationEnd r)
          (settled (finish r (call caller force (after events))))
     /\ initializationPromise (finish r (call caller force (after events)))
        = None)
  /\ (initializationPromise (after events) = None ->
      exists p,
        performed (call c2 true (call c1 true (after events)))
        = S (performed (after events))
        /\ initializationPromise (call c2 true (call c1 true (after events)))
           = Some p
        /\ In (c1, p) (waiting (call c2 true (call c1 true (after events))))
        /\ In (c2, p) (waiting (call c2 true (call c1 true (after events))))
        /\ In (c1, performInitializationEnd r)
             (settled (finish r (call c2 true (call c1 true (after events)))))
        /\ In (c2, performInitializationEnd r)
             (settled (finish r (call c2 true (call c1 true (after events)))))
        /\ initializationPromise
             (finish r (call c2 true (call c1 true (after events)))) = None
        /\ performed
             (call c3 true (finish r (call c2 true (call c1 true (after events)))))
           = S (S (performed (after events)))
        /\ initializationPromise
             (call c3 true (finish r (call c2 true (call c1 true (after events)))))
           = Some (S (performed (after events)))).
Proof.
  set (s := after events). split.
  - intros p caller force Hp.
    rewrite (call_in_flight s p caller force Hp
               (in_flight_uninitialized events p Hp)).
    split; [reflexivity|]. split; [reflexivity|].
    split; [apply in_or_app; simpl; auto|].
    split.
    + apply finish_settles with p; [reflexivity|].
      apply in_or_app. simpl. auto.
    + reflexivity.
  - intros Hidle. exists (performed s).
    destruct (two_forced_calls s c1 c2 Hidle) as (P & I & W1 & W2).
    set (s2 := call c2 true (call c1 true s)) in *.
    assert (F : initializationPromise (finish r s2) = None).
    { unfold finish. now rewrite I. }
    assert (N : performed (finish r s2) = S (performed s)).
    { unfold finish. now rewrite I. }
    repeat split; try assumption.
    + now apply finish_settles with (performed s).
    + now apply finish_settles with (performed s).
    + rewrite (call_forced_idle (finish r s2) c3 F). simpl. now rewrite N.
    + rewrite (call_forced_idle (finish r s2) c3 F). simpl. now rewrite N.
Qed.

(** Two forced calls at the start, and a third one between them and the
    end of the round. *)
Lemma initializeKnowledgeBase_single_flight_witness :
  (performed (call 3 false (after [Call 1 true; Call 2 true])) = 1
   /\ initializationPromise (call 3 false (after [Call 1 true; Call 2 true])) = Some 0
   /\ In (3, 0) (waiting (call 3 false (after [Call 1 true; Call 2 true])))
   /\ In (3, performInitializationEnd exampleRound)
        (settled (finish exampleRound
                    (call 3 false (after [Call 1 true; Call 2 true]))))
   /\ initializationPromise
        (finish exampleRound (call 3 false (after [Call 1 true; Call 2 true])))
      = None)
  /\ exists p,
       performed (call 2 true (call 1 true (after []))) = 1
       /\ initializationPromise (call 2 true (call 1 true (after []))) = Some p
       /\ In (1, p) (waiting (call 2 true (call 1 true (after []))))
       /\ In (2, p) (waiting (call 2 true (call 1 true (after []))))
       /\ In (1, performInitializationEnd exampleRound)
            (settled (finish exampleRound (call 2 true (call 1 true (after [])))))
       /\ In (2, performInitializationEnd exampleRound)
            (settled (finish exampleRound (call 2 true (call 1 true (after [])))))
       /\ initializationPromise
            (finish exampleRound (call 2 true (call 1 true (after [])))) = None
       /\ performed
            (call 3 true (finish exampleRound (call 2 true (call 1 true (after [])))))
          = 2
       /\ initializationPromise
            (call 3 true (finish exampleRound (call 2 true (call 1 true (after [])))))
          = Some 1.
Proof.
  split.
  - apply (proj1 (initializeKnowledgeBase_single_flight
                    [Call 1 true; Call 2 true] 1 2 3 exampleRound) 0 3 false).
    reflexivity.
  - apply (proj2 (initializeKnowledgeBase_single_flight [] 1 2 3 exampleRound)).
    reflexivity.
Defined.

(** ** extractTextFromHtml *)

Example extractTextFromHtml_skips_navigation :
  extractTextFromHtml toLowerCaseASCII navigationThenParagraph
  = js "Main page content that is important.".
Proof. vm_compute. reflexivity. Qed.

(** C5 does not hold of the code.  The flag [skipContent] is cleared by the
    end of any noise element, also of one inside another: the paragraph
    after the script is still inside the navigation element, and its text
    is the output.  With the text inside noise elements left out of the
    callbacks the output is empty. *)
Theorem extractTextFromHtml_nested_noise :
  extractTextFromHtml toLowerCaseASCII scriptInsideNavigation
  = js "Hidden navigation text"
  /\ extractTextFromHtml toLowerCaseASCII
       (withoutNoiseText toLowerCaseASCII 0 scriptInsideNavigation)
     = []
  /\ skipContent
       (fold_left (handle toLowerCaseASCII)
          [OpenTag (js "nav"); OpenTag (js "script"); Text (js "var x = 1;");
           CloseTag (js "script")] start)
     = false.
Proof. repeat split; vm_compute; reflexivity. Qed.

(** ** searchDocuments *)

(** *** The ranking *)

Section Ranking.

(** The comparator of [searchDocuments] puts [x] before [y] when the score
    of [y] is the smaller one. *)
Lemma precedes_byScore (x y : ScoredDocument) :
  precedes byScoreDescending x y = (score y <? score x)%float.
Proof. unfold precedes, byScoreDescending. apply float_sub_negative. Qed.

(** *** The run *)

Lemma runFrom_spec {A} (comparefn : A -> A -> float) (isDescending : bool)
    (rest : list A) (previousElement : A) :
  rest = fst (runFrom comparefn isDescending previousElement rest)
         ++ snd (runFrom comparefn isDescending previousElement rest)
  /\ Sorted (fun a b => precedes comparefn b a = isDescending)
       (previousElement
        :: fst (runFrom comparefn isDescending previousElement rest)).
Proof.
  revert previousElement.
  induction rest as [|x rest IH]; intros previousElement; cbn [runFrom].
  - split; [reflexivity | repeat constructor].
  - destruct (Bool.eqb (precedes comparefn x previousElement) isDescending) eqn:E.
    + specialize (IH x).
      destruct (runFrom comparefn isDescending x rest) as [run others].
      cbn [fst snd] in *. destruct IH as [E1 S1]. split.
      * cbn. now rewrite <- E1.
      * constructor; [exact S1|]. constructor. now apply eqb_prop.
    + split; [reflexivity | repeat constructor].
Qed.

Lemma countAndMakeRun_Permutation {A} (comparefn : A -> A -> float)
    (arr : list A) :
  Permutation (fst (countAndMakeRun comparefn arr)
               ++ snd (countAndMakeRun comparefn arr)) arr.
Proof.
  destruct arr as [|x0 [|x1 rest]]; cbn [countAndMakeRun fst snd];
    [reflexivity | reflexivity |].
  destruct (runFrom_spec comparefn (precedes comparefn x1 x0) rest x1) as [E _].
  destruct (runFrom comparefn (precedes comparefn x1 x0) x1 rest) as [run others].
  cbn [fst snd] in *. subst rest.
  destruct (precedes comparefn x1 x0).
  - rewrite <- (Permutation_rev (x0 :: x1 :: run)). reflexivity.
  - reflexivity.
Qed.

Lemma StronglySorted_snoc {A} (R : A -> A -> Prop) (l : list A) (x : A) :
  StronglySorted R l -> Forall (fun y => R y x) l -> StronglySorted R (l ++ [x]).
Proof.
  induction 1 as [|y l S IH Hy]; intros H; cbn.
  - repeat constructor.
  - apply Forall_cons_iff in H. destruct H as [Hx H].
    constructor; [now apply IH|].
    apply Forall_app. split; [exact Hy | now constructor].
Qed.

Lemma StronglySorted_rev {A} (R : A -> A -> Prop) (l : list A) :
  StronglySorted R l -> StronglySorted (fun a b => R b a) (rev l).
Proof.
  induction 1 as [|y l S IH Hy]; cbn; [constructor|].
  apply StronglySorted_snoc; [exact IH|].
  apply Forall_forall. intros z Hz. apply in_rev in Hz.
  rewrite Forall_forall in Hy. now apply Hy.
Qed.

(** A run that does not go down, in the order of the comparator, has its
    scores in descending order. *)
Lemma run_descending (l : list ScoredDocument) :
  Forall numeric l ->
  Sorted (fun a b => precedes byScoreDescending b a = false) l ->
  descending l.
Proof.
  intros N S. induction S as [|x l S IH Hx]; [constructor|].
  apply Forall_cons_iff in N. destruct N as [Nx N].
  specialize (IH N). constructor; [exact IH|].
  destruct Hx as [|y l Hy]; [constructor|].
  apply Forall_cons_iff in N. destruct N as [Ny N].
  rewrite precedes_byScore in Hy.
  assert (Hxy : (score y <=? score x)%float = true)
    by now apply float_leb_total.
  constructor; [exact Hxy|].
  inversion IH as [|? ? _ Hl]; subst.
  apply Forall_forall. intros z Hz. rewrite Forall_forall in Hl.
  apply float_leb_trans with (score y); [now apply Hl | exact Hxy].
Qed.

(** A run that goes down, in the order of the comparator, has its scores
    in ascending order, and is reversed. *)
Lemma run_ascending (l : list ScoredDocument) :
  Sorted (fun a b => precedes byScoreDescending b a = true) l ->
  descending (rev l).
Proof.
  intros S.
  assert (SS : StronglySorted (fun a b => (score a <? score b)%float = true) l).
  { induction S as [|x l S IH Hx]; [constructor|].
    constructor; [exact IH|].
    destruct Hx as [|y l Hy]; [constructor|].
    rewrite precedes_byScore in Hy. constructor; [exact Hy|].
    inversion IH as [|? ? _ Hl]; subst.
    apply Forall_forall. intros z Hz. rewrite Forall_forall in Hl.
    apply float_ltb_trans with (score y); [exact Hy | now apply Hl]. }
  apply StronglySorted_rev in SS. unfold descending.
  induction SS as [|x l' SS IH Hx]; constructor; [exact IH|].
  apply Forall_forall. intros z Hz. rewrite Forall_forall in Hx.
  apply float_ltb_leb. now apply Hx.
Qed.

Lemma countAndMakeRun_descending (arr : list ScoredDocument) :
  Forall numeric arr ->
  descending (fst (countAndMakeRun byScoreDescending arr)).
Proof.
  intros N.
  destruct arr as [|x0 [|x1 rest]]; cbn [countAndMakeRun fst];
    [constructor | repeat constructor |].
  destruct (runFrom_spec byScoreDescending
              (precedes byScoreDescending x1 x0) rest x1) as [E S].
  destruct (runFrom byScoreDescending (precedes byScoreDescending x1 x0) x1 rest)
    as [run others].
  cbn [fst snd] in *.
  assert (Nrun : Forall numeric (x0 :: x1 :: run)).
  { rewrite E in N. apply Forall_cons_iff in N. destruct N as [N0 N].
    apply Forall_cons_iff in N. destruct N as [N1 N].
    apply Forall_app in N. destruct N as [N _]. now repeat constructor. }
  destruct (precedes byScoreDescending x1 x0) eqn:E0.
  - apply run_ascending. constructor; [exact S | now constructor].
  - apply run_descending; [exact Nrun|].
    constructor; [exact S | now constructor].
Qed.

(** *** The binary insertion *)

(** The search ends at the place where the elements that the pivot
    precedes begin, when they are the end of the array. *)
Lemma insertionPoint_partition {A} (comparefn : A -> A -> float) (pivot : A)
    (a b : list A) (steps left right : nat) :
  Forall (fun y => precedes comparefn pivot y = false) a ->
  Forall (fun y => precedes comparefn pivot y = true) b ->
  left <= length a <= right -> right <= length (a ++ b) ->
  right - left <= steps ->
  insertionPoint comparefn pivot (a ++ b) steps left right = length a.
Proof.
  intros Ha Hb. revert left right.
  induction steps as [|steps IH]; intros left right Hl Hr Hs; cbn [insertionPoint].
  - lia.
  - destruct (left <? right) eqn:E; [|apply Nat.ltb_ge in E; lia].
    apply Nat.ltb_lt in E.
    set (mid := left + (right - left) / 2).
    assert (Hhalf : (right - left) / 2 < right - left)
      by (apply Nat.div_lt; lia).
    assert (Hmid : left <= mid < right) by (unfold mid; lia).
    rewrite length_app in Hr.
    destruct (Nat.lt_ge_cases mid (length a)) as [Hin|Hout].
    + rewrite nth_error_app1 by exact Hin.
      destruct (nth_error a mid) as [y|] eqn:Ey;
        [|apply nth_error_None in Ey; lia].
      rewrite Forall_forall in Ha. rewrite (Ha y (nth_error_In _ _ Ey)).
      apply IH; [lia | rewrite length_app; lia | lia].
    + rewrite nth_error_app2 by exact Hout.
      destruct (nth_error b (mid - length a)) as [y|] eqn:Ey;
        [|apply nth_error_None in Ey; lia].
      rewrite Forall_forall in Hb. rewrite (Hb y (nth_error_In _ _ Ey)).
      apply IH; [lia | rewrite length_app; lia | lia].
Qed.

(** The turns given to the search are enough: more of them change
    nothing. *)
Lemma insertionPoint_enough {A} (comparefn : A -> A -> float) (pivot : A)
    (work : list A) (steps steps' left right : nat) :
  right - left <= steps -> right - left <= steps' ->
  insertionPoint comparefn pivot work steps left right
  = insertionPoint comparefn pivot work steps' left right.
Proof.
  revert steps' left right.
  induction steps as [|steps IH]; intros [|steps'] left right H H';
    cbn [insertionPoint]; try reflexivity.
  - destruct (left <? right) eqn:E; [|reflexivity].
    apply Nat.ltb_lt in E. lia.
  - destruct (left <? right) eqn:E; [|reflexivity].
    apply Nat.ltb_lt in E. lia.
  - destruct (left <? right) eqn:E; [|reflexivity]. apply Nat.ltb_lt in E.
    assert (Hhalf : (right - left) / 2 < right - left)
      by (apply Nat.div_lt; lia).
    destruct (nth_error work (left + (right - left) / 2)); [|reflexivity].
    destruct (precedes comparefn pivot a); apply IH; lia.
Qed.

Lemma insertionPoint_bound {A} (comparefn : A -> A -> float) (pivot : A)
    (work : list A) (steps left right : nat) :
  left <= right ->
  left <= insertionPoint comparefn pivot work steps left right <= right.
Proof.
  revert left right. induction steps as [|steps IH]; intros left right H;
    cbn [insertionPoint]; [lia|].
  destruct (left <? right) eqn:E; [|lia]. apply Nat.ltb_lt in E.
  assert (Hhalf : (right - left) / 2 < right - left)
    by (apply Nat.div_lt; lia).
  destruct (nth_error work (left + (right - left) / 2)); [|lia].
  destruct (precedes comparefn pivot a).
  - specialize (IH left (left + (right - left) / 2) ltac:(lia)). lia.
  - specialize (IH (S (left + (right - left) / 2)) right ltac:(lia)). lia.
Qed.

Lemma binaryInsert_Permutation {A} (comparefn : A -> A -> float)
    (work : list A) (pivot : A) :
  Permutation (binaryInsert comparefn work pivot) (pivot :: work).
Proof.
  unfold binaryInsert. symmetry.
  rewrite <- (firstn_skipn
                (insertionPoint comparefn pivot work (length work) 0 (length work))
                work) at 1.
  apply Permutation_middle.
Qed.

(** A descending array, cut where the scores fall below a score. *)
Lemma descending_cut (pivot : ScoredDocument) (work : list ScoredDocument) :
  numeric pivot -> Forall numeric work -> descending work ->
  exists a b,
    work = a ++ b
    /\ Forall (fun y => (score pivot <=? score y)%float = true
                        /\ precedes byScoreDescending pivot y = false) a
    /\ Forall (fun y => (score y <? score pivot)%float = true
                        /\ precedes byScoreDescending pivot y = true) b.
Proof.
  intros Np N S. induction S as [|y work S IH Hy].
  - exists [], []. repeat split; constructor.
  - apply Forall_cons_iff in N. destruct N as [Ny N].
    destruct (score y <? score pivot)%float eqn:E.
    + exists [], (y :: work). split; [reflexivity|]. split; [constructor|].
      constructor; [now rewrite precedes_byScore|].
      apply Forall_forall. intros z Hz. rewrite Forall_forall in Hy.
      assert (Hz' : (score z <? score pivot)%float = true)
        by (apply float_leb_ltb_trans with (score y); [now apply Hy | exact E]).
      now rewrite precedes_byScore.
    + destruct (IH N) as (a & b & -> & Ha & Hb).
      exists (y :: a), b. split; [reflexivity|]. split; [|exact Hb].
      constructor; [|exact Ha]. rewrite precedes_byScore. split; [|exact E].
      now apply float_leb_total.
Qed.

Lemma binaryInsert_descending (work : list ScoredDocument)
    (pivot : ScoredDocument) :
  numeric pivot -> Forall numeric work -> descending work ->
  descending (binaryInsert byScoreDescending work pivot).
Proof.
  intros Np N S.
  destruct (descending_cut pivot work Np N S) as (a & b & E & Ha & Hb).
  assert (Hp : insertionPoint byScoreDescending pivot work (length work) 0
                 (length work) = length a).
  { rewrite E. apply insertionPoint_partition.
    - eapply Forall_impl; [|exact Ha]. now intros y [_ H].
    - eapply Forall_impl; [|exact Hb]. now intros y [_ H].
    - rewrite length_app. lia.
    - lia.
    - lia. }
  unfold binaryInsert. rewrite Hp, E.
  rewrite firstn_app, Nat.sub_diag, firstn_all, app_nil_r.
  rewrite skipn_app, Nat.sub_diag, skipn_all. cbn [skipn app].
  subst work. clear Hp N.
  induction a as [|y a IH]; cbn [app].
  - constructor; [exact S|].
    apply Forall_forall. intros z Hz. rewrite Forall_forall in Hb.
    apply float_ltb_leb. now apply Hb.
  - inversion S as [|? ? S' Hy]; subst.
    apply Forall_cons_iff in Ha. destruct Ha as [[Hy1 _] Ha].
    constructor; [now apply IH|].
    apply Forall_app. apply Forall_app in Hy. destruct Hy as [Hya Hyb].
    split; [exact Hya|]. constructor; [exact Hy1 | exact Hyb].
Qed.

(** Sorting keeps the elements, each as many times as it is there. *)
Lemma sortBy_Permutation {A} (comparefn : A -> A -> float) (l : list A) :
  Permutation (sortBy comparefn l) l.
Proof.
  unfold sortBy.
  pose proof (countAndMakeRun_Permutation comparefn l) as P.
  destruct (countAndMakeRun comparefn l) as [run others]. cbn [fst snd] in P.
  rewrite <- P. clear P. revert run.
  induction others as [|x others IH]; intros run; cbn [fold_left].
  - now rewrite app_nil_r.
  - rewrite IH, binaryInsert_Permutation. apply Permutation_middle.
Qed.

Lemma sortBy_In {A} (comparefn : A -> A -> float) (y : A) (l : list A) :
  In y (sortBy comparefn l) <-> In y l.
Proof.
  split; apply Permutation_in;
    [apply sortBy_Permutation | symmetry; apply sortBy_Permutation].
Qed.

(** When no score is [NaN], sorting puts the scores in descending order. *)
Lemma sortBy_descending (l : list ScoredDocument) :
  Forall numeric l -> descending (sortBy byScoreDescending l).
Proof.
  intros N. unfold sortBy.
  pose proof (countAndMakeRun_Permutation byScoreDescending l) as P.
  pose proof (countAndMakeRun_descending l N) as S.
  destruct (countAndMakeRun byScoreDescending l) as [run others].
  cbn [fst snd] in *.
  assert (Nall : Forall numeric (run ++ others)).
  { apply Forall_forall. intros z Hz. rewrite Forall_forall in N.
    apply N. now apply (Permutation_in _ P). }
  apply Forall_app in Nall. destruct Nall as [Nr No]. clear P N.
  revert run S Nr. induction No as [|x others Nx No IH]; intros run S Nr;
    cbn [fold_left]; [exact S|].
  apply IH; [now apply binaryInsert_descending|].
  apply Forall_forall. intros z Hz.
  apply (Permutation_in _ (binaryInsert_Permutation _ _ _)) in Hz.
  destruct Hz as [<-|Hz]; [exact Nx|].
  rewrite Forall_forall in Nr. now apply Nr.
Qed.

Lemma firstn_incl {A} (n : nat) (l : list A) (x : A) :
  In x (firstn n l) -> In x l.
Proof.
  revert l. induction n as [|n IH]; intros [|y l]; simpl; try tauto.
  intros [->|H]; auto.
Qed.

Lemma firstn_descending (n : nat) (l : list ScoredDocument) :
  descending l -> descending (firstn n l).
Proof.
  intros S. revert n. induction S as [|y l S IH Hy]; intros [|n]; simpl;
    try constructor.
  - apply IH.
  - apply Forall_forall. intros z Hz. apply firstn_incl in Hz.
    rewrite Forall_forall in Hy. now apply Hy.
Qed.

Lemma filter_descending (f : ScoredDocument -> bool) (l : list ScoredDocument) :
  descending l -> descending (filter f l).
Proof.
  induction 1 as [|y l S IH Hy]; simpl; [constructor|].
  destruct (f y); [|exact IH].
  constructor; [exact IH|].
  apply Forall_forall. intros z Hz. apply filter_In in Hz.
  rewrite Forall_forall in Hy. now apply Hy.
Qed.

Lemma ranked_properties (topK : nat) (scored : list ScoredDocument) :
  length (ranked topK scored) <= topK
  /\ Forall (fun d => (0.3 <? score d)%float = true) (ranked topK scored)
  /\ (forall r, In r (ranked topK scored) -> In r scored)
  /\ (Forall numeric scored -> descending (ranked topK scored)).
Proof.
  unfold ranked. repeat split.
  - eapply Nat.le_trans; [apply filter_length_le | apply firstn_le_length].
  - apply Forall_forall. intros d Hd. now apply filter_In in Hd.
  - intros r Hr. apply filter_In in Hr. destruct Hr as [Hr _].
    apply firstn_incl in Hr. now apply sortBy_In in Hr.
  - intros N. now apply filter_descending, firstn_descending, sortBy_descending.
Qed.

(** The scores are the cosine similarities of the query embedding and the
    embeddings stored at the places of the documents. *)
Lemma scoreFrom_scores (vectorStore : VectorStore) (queryEmbedding : list float)
    (docs : list Document) (index : nat) (scored : list ScoredDocument) :
  scoreFrom vectorStore queryEmbedding index docs = inr scored ->
  forall r, In r scored ->
    exists k embedding,
      nth_error docs k = Some (doc r)
      /\ nth_error (embeddings vectorStore) (index + k) = Some embedding
      /\ cosineSimilarity queryEmbedding embedding = inr (score r).
Proof.
  revert index scored. induction docs as [|d docs IH]; intros index scored; simpl.
  - intros E. injection E as <-. contradiction.
  - destruct (nth_error (embeddings vectorStore) index) as [e|] eqn:En;
      [|discriminate].
    destruct (cosineSimilarity queryEmbedding e) as [err|s] eqn:Ec; [discriminate|].
    destruct (scoreFrom vectorStore queryEmbedding (S index) docs)
      as [err|rest] eqn:Er; [discriminate|].
    intros E. injection E as <-. intros r [<-|Hr].
    + exists 0, e. simpl. rewrite Nat.add_0_r. auto.
    + destruct (IH (S index) rest Er r Hr) as (k & e' & H1 & H2 & H3).
      exists (S k), e'. simpl. rewrite <- plus_n_Sm. auto.
Qed.

(** The scores are computed when every document has an embedding, of the
    length of the query embedding. *)
Lemma scoreFrom_defined (vectorStore : VectorStore) (queryEmbedding : list float)
    (docs : list Document) (index : nat) :
  index + length docs <= length (embeddings vectorStore) ->
  Forall (fun e => length e = length queryEmbedding) (embeddings vectorStore) ->
  exists scored, scoreFrom vectorStore queryEmbedding index docs = inr scored.
Proof.
  intros Hlen Hdim. revert index Hlen.
  induction docs as [|d docs IH]; intros index Hlen; simpl; [eauto|].
  simpl in Hlen.
  destruct (nth_error (embeddings vectorStore) index) as [e|] eqn:En.
  - assert (He : length queryEmbedding = length e).
    { rewrite Forall_forall in Hdim. symmetry. apply Hdim.
      now apply nth_error_In with index. }
    unfold cosineSimilarity.
    rewrite (cosineSimilarityIn_formula binary64 queryEmbedding e He).
    destruct (IH (S index) ltac:(lia)) as (rest & ->). eauto.
  - apply nth_error_None in En. lia.
Qed.

(** [searchDocuments] against a client: one request, then the ranking. *)
Lemma run_searchDocuments {W} (c : Client W) (vectorStore : VectorStore)
    (query : jsstring) (topK : nat) (w : W) :
  initialized vectorStore = true ->
  documents vectorStore <> [] ->
  run c (searchDocuments vectorStore query topK) w
  = let '(r, w1) := createEmbedding c (firstn (Z.to_nat 8000) query) w in
    (match r with
     | inl e => inl e
     | inr queryEmbedding =>
         match scoreDocuments vectorStore queryEmbedding with
         | inl e => inl e
         | inr scored => inr (ranked topK scored)
         end
     end, w1, [EmbeddingRequest (firstn (Z.to_nat 8000) query)]).
Proof.
  intros Hi Hd. unfold searchDocuments. rewrite Hi.
  destruct (documents vectorStore) as [|d0 docs] eqn:Ed; [contradiction|].
  cbn [negb orb length Nat.eqb].
  rewrite run_tryCatch. unfold generateEmbedding. cbn [bind run].
  destruct (createEmbedding c (firstn (Z.to_nat 8000) query) w) as [[e|q] w1].
  - reflexivity.
  - cbn [settle bind]. fold (ranked topK).
    destruct (scoreDocuments vectorStore q) as [e|scored]; reflexivity.
Qed.

End Ranking.

(** C2, as the claim states it, fails.  The score of a stored embedding
    whose products with the query embedding overflow is [NaN], and the
    comparator [b.score - a.score] is then no ordering: of the scores
    [0.707], [NaN], [0.99], [0] and [0.894] the sort leaves the first three
    where they are, and the three best are [0.707] and [0.99], in this
    order, without [0.894]. *)
Lemma searchDocuments_not_descending :
  initialized overflowStore = true
  /\ documents overflowStore <> []
  /\ (exists scored,
        scoreDocuments overflowStore [2; 2]%float = inr scored
        /\ map (fun d => PrimFloat.is_nan (score d)) scored
           = [false; true; false; false; false]
        /\ map (fun d => (0.3 <? score d)%float) scored
           = [true; false; true; false; true])
  /\ exists first second,
       run evenClient
         (searchDocuments overflowStore (js "prior authorization approval") 3) tt
       = (inr [first; second], tt,
          [EmbeddingRequest (js "prior authorization approval")])
       /\ id (doc first) = js "Home-0"
       /\ id (doc second) = js "Home-2"
       /\ (score first <? score second)%float = true
       /\ ~ descending [first; second].
Proof.
  split; [reflexivity|]. split; [discriminate|]. split.
  - eexists. vm_compute. repeat split.
  - eexists _, _. split; [vm_compute; reflexivity|].
    split; [reflexivity|]. split; [reflexivity|].
    split; [vm_compute; reflexivity|].
    intros S. inversion S as [|? ? _ H]; subst.
    inversion H as [|? ? H1 _]; subst. vm_compute in H1. discriminate.
Qed.

(** C2, as amended.  On a store that is not initialized or has no document,
    [searchDocuments] returns the empty array, asks for no embedding and
    raises nothing.  On any other store, what it returns has at most
    [topK] results, each one a document of the store scored with the cosine
    similarity of the query embedding and the stored embedding of that
    document, each with a score above [0.3]; and the results are in
    descending order of the scores when none of the scores is [NaN].  It
    does return when the embedding request does and every document has a
    stored embedding of the length of the query embedding. *)
Theorem searchDocuments_ranked (vectorStore : VectorStore) (query : jsstring)
    (topK : nat) (W : Type) (c : Client W) (w : W) :
  (initialized vectorStore = false \/ documents vectorStore = [] ->
   searchDocuments vectorStore query topK = Return []
   /\ run c (searchDocuments vectorStore query topK) w = (inr [], w, []))
  /\ (initialized vectorStore = true -> documents vectorStore <> [] ->
      (forall results w' reqs,
         run c (searchDocuments vectorStore query topK) w = (inr results, w', reqs) ->
         exists queryEmbedding scored,
           createEmbedding c (firstn (Z.to_nat 8000) query) w
           = (inr queryEmbedding, w')
           /\ scoreDocuments vectorStore queryEmbedding = inr scored
           /\ length results <= topK
           /\ Forall (fun d => (0.3 <? score d)%float = true) results
           /\ (forall r, In r results ->
                 exists k embedding,
                   nth_error (documents vectorStore) k = Some (doc r)
                   /\ nth_error (embeddings vectorStore) k = Some embedding
                   /\ cosineSimilarity queryEmbedding embedding = inr (score r))
           /\ (Forall numeric scored -> descending results))
      /\ (forall queryEmbedding w',
            createEmbedding c (firstn (Z.to_nat 8000) query) w
            = (inr queryEmbedding, w') ->
            length (documents vectorStore) <= length (embeddings vectorStore) ->
            Forall (fun e => length e = length queryEmbedding)
              (embeddings vectorStore) ->
            exists results,
              run c (searchDocuments vectorStore query topK) w
              = (inr results, w', [EmbeddingRequest (firstn (Z.to_nat 8000) query)]))).
Proof.
  split.
  - intros H.
    assert (E : searchDocuments vectorStore query topK = Return []).
    { unfold searchDocuments. destruct H as [-> | ->]; [reflexivity|].
      simpl. now rewrite orb_true_r. }
    split; [exact E | now rewrite E].
  - intros Hi Hd. split.
    + intros results w' reqs. rewrite (run_searchDocuments c _ _ _ _ Hi Hd).
      destruct (createEmbedding c (firstn (Z.to_nat 8000) query) w) as [[e|q] w1];
        [discriminate|].
      destruct (scoreDocuments vectorStore q) as [e|scored] eqn:Es; [discriminate|].
      intros E. injection E as <- <- _.
      destruct (ranked_properties topK scored) as (P1 & P2 & P3 & P4).
      exists q, scored. repeat split; try assumption.
      intros r Hr. apply P3 in Hr.
      destruct (scoreFrom_scores vectorStore q _ 0 scored Es r Hr)
        as (k & e & H1 & H2 & H3).
      exists k, e. auto.
    + intros q w' Eq Hlen Hdim.
      rewrite (run_searchDocuments c _ _ _ _ Hi Hd), Eq.
      destruct (scoreFrom_defined vectorStore q (documents vectorStore) 0
                  ltac:(simpl; lia) Hdim) as (scored & Es).
      unfold scoreDocuments. rewrite Es. eauto.
Qed.

Example searchDocuments_prior_authorization :
  exists d,
    run steadyClient
      (searchDocuments exampleStore (js "prior authorization approval") 5) tt
    = (inr [ {| doc := d; score := 0.8 |} ], tt,
       [EmbeddingRequest (js "prior authorization approval")])
    /\ text d = js "Prior Authorization automates healthcare approval workflows.".
Proof. eexists. vm_compute. split; reflexivity. Qed.

(** The empty store; and a store of five chunks, three of them above the
    threshold, asked for its two best: the results are the chunk of score
    [1] and the first of the two chunks of score [0.8]. *)
Lemma searchDocuments_ranked_witness :
  (searchDocuments emptyStore (js "prior authorization approval") 5 = Return []
   /\ run steadyClient
        (searchDocuments emptyStore (js "prior authorization approval") 5) tt
      = (inr [], tt, []))
  /\ exists results,
       run steadyClient
         (searchDocuments rankedStore (js "prior authorization approval") 2) tt
       = (inr results, tt, [EmbeddingRequest (js "prior authorization approval")])
       /\ length results <= 2
       /\ Forall (fun d => (0.3 <? score d)%float = true) results
       /\ descending results
       /\ map (fun r => id (doc r)) results = [js "Home-2"; js "Home-0"]
       /\ map score results = [1; 0.8]%float.
Proof.
  split.
  - apply (proj1 (searchDocuments_ranked emptyStore
                    (js "prior authorization approval") 5 unit steadyClient tt)).
    left. reflexivity.
  - destruct (proj2 (searchDocuments_ranked rankedStore
                       (js "prior authorization approval") 2 unit steadyClient tt)
                eq_refl ltac:(discriminate)) as [Hreturned Hreturns].
    destruct (Hreturns [0; 1]%float tt eq_refl ltac:(simpl; lia)
                ltac:(repeat constructor)) as (results & Hrun).
    destruct (Hreturned results tt _ Hrun)
      as (q & scored & Eq & Es & Hlen & Hscore & _ & Hsorted).
    exists results. split; [exact Hrun|]. split; [exact Hlen|].
    split; [exact Hscore|]. split.
    + apply Hsorted. injection Eq as <-.
      vm_compute in Es. injection Es as <-. repeat constructor.
    + vm_compute in Hrun. injection Hrun as <-. split; reflexivity.
Defined.

(* ================================================================== *)
(** * Part III: the rest of the services *)
(* ================================================================== *)

(** ** ingestContent *)

Section IngestFacts.

Context {W : Type} (c : Client W).

(** A loop whose body always returns, keeps an invariant of the variables
    and makes requests that depend on the element only, returns, keeps the
    invariant and makes the requests of its elements in order. *)
Lemma run_forEach {A S} (body : S -> A -> Async S) (R : S -> Prop)
    (requests : A -> list Request) (l : list A) :
  (forall x s w, In x l -> R s ->
     exists s' w', run c (body s x) w = (inr s', w', requests x) /\ R s') ->
  forall s w, R s ->
    exists s' w',
      run c (forEach body l s) w = (inr s', w', flat_map requests l) /\ R s'.
Proof.
  induction l as [|x l IH]; intros Hbody s w Hs.
  - exists s, w. split; [reflexivity | exact Hs].
  - cbn [forEach]. rewrite run_bind.
    destruct (Hbody x s w (or_introl eq_refl) Hs) as (s1 & w1 & E1 & H1).
    rewrite E1.
    destruct (IH (fun y t v Hy => Hbody y t v (or_intror Hy)) s1 w1 H1)
      as (s2 & w2 & E2 & H2).
    rewrite E2. exists s2, w2. split; [reflexivity | exact H2].
Qed.

(** What one chunk does to the variables. *)
Lemma run_ingestChunk (page : Page.t) (st : IngestState) (chunk : jsstring)
    (w : W) :
  run c (ingestChunk page st chunk) w
  = let '(documents, embeddings, totalChunks) := st in
    if length chunk <? 20 then (inr st, w, [])
    else
      let '(r, w1) := createEmbedding c (firstn (Z.to_nat 8000) chunk) w in
      (inr match r with
           | inl _ => st
           | inr embedding =>
               (documents
                ++ [ {| id := Page.pageName page ++ js "-"
                              ++ numberToString totalChunks;
                        text := chunk;
                        metadata :=
                          {| Metadata.pageName := Page.pageName page;
                             Metadata.url := Page.url page;
                             Metadata.scrapedAt := Page.scrapedAt page |} |} ],
                embeddings ++ [embedding],
                S totalChunks)
           end,
       w1, [EmbeddingRequest (firstn (Z.to_nat 8000) chunk)]).
Proof.
  destruct st as [[documents embeddings] totalChunks]. unfold ingestChunk.
  destruct (length chunk <? 20); [reflexivity|].
  rewrite run_tryCatch. unfold generateEmbedding. cbn [bind run].
  destruct (createEmbedding c (firstn (Z.to_nat 8000) chunk) w) as [[e|embedding] w1];
    reflexivity.
Qed.

End IngestFacts.

Section IngestInvariant.

Context {W : Type} (c : Client W).

Lemma flat_map_optional {A B} (p : A -> bool) (f : A -> B) (l : list A) :
  flat_map (fun x => if p x then [] else [f x]) l
  = map f (filter (fun x => negb (p x)) l).
Proof.
  induction l as [|x l IH]; simpl; [reflexivity|].
  destruct (p x); simpl; now rewrite IH.
Qed.

Lemma map_flat_map {A B C} (f : B -> C) (g : A -> list B) (l : list A) :
  map f (flat_map g l) = flat_map (fun x => map f (g x)) l.
Proof.
  induction l as [|x l IH]; simpl; [reflexivity|].
  now rewrite map_app, IH.
Qed.

Lemma ingestChunk_invariant (scrapedPages : list Page.t) (page : Page.t)
    (contentItem chunk : jsstring) (st : IngestState) (w : W) :
  In page scrapedPages -> In contentItem (Page.content page) ->
  In chunk (chunkTextDefault contentItem) ->
  ingestInvariant c scrapedPages st ->
  exists st' w',
    run c (ingestChunk page st chunk) w
    = (inr st', w',
       if length chunk <? 20 then [] else [embeddingRequest chunk])
    /\ ingestInvariant c scrapedPages st'.
Proof.
  intros Hp Hi Hc Hinv. rewrite run_ingestChunk.
  destruct st as [[documents embeddings] totalChunks].
  destruct (length chunk <? 20) eqn:Elen; [eauto|].
  destruct (createEmbedding c (firstn (Z.to_nat 8000) chunk) w) as [[e|embedding] w1] eqn:Er;
    [eauto|].
  eexists _, w1. split; [reflexivity|].
  destruct Hinv as (Hd & He & Hall). cbn. rewrite !length_app. cbn.
  split; [lia|]. split; [lia|].
  intros k d Hk.
  destruct (Nat.lt_ge_cases k (length documents)) as [Hlt|Hge].
  - rewrite nth_error_app1 in Hk by exact Hlt.
    destruct (Hall k d Hk) as (Hdoc & e & Hemb & Hans).
    split; [exact Hdoc|]. exists e. split; [|exact Hans].
    rewrite nth_error_app1; [exact Hemb|]. apply nth_error_Some. congruence.
  - rewrite nth_error_app2 in Hk by exact Hge.
    destruct (k - length documents) as [|j] eqn:Ej;
      [|destruct j; discriminate].
    injection Hk as <-. assert (Ek : k = totalChunks) by lia. subst k.
    split.
    + exists page, contentItem. cbn.
      apply Nat.ltb_ge in Elen. repeat split; assumption.
    + exists embedding. split.
      * rewrite nth_error_app2 by lia.
        replace (totalChunks - length embeddings) with 0 by lia. reflexivity.
      * exists w, w1. exact Er.
Qed.

Lemma eligibleChunks_requests (scrapedPages : list Page.t) :
  map embeddingRequest (eligibleChunks scrapedPages)
  = flat_map (fun page =>
      flat_map (fun contentItem =>
        flat_map (fun chunk =>
          if length chunk <? 20 then [] else [embeddingRequest chunk])
          (chunkTextDefault contentItem))
        (Page.content page))
      scrapedPages.
Proof.
  unfold eligibleChunks. rewrite map_flat_map. apply flat_map_ext.
  intros page. rewrite map_flat_map. apply flat_map_ext.
  intros contentItem. symmetry. apply flat_map_optional.
Qed.

(** The three loops return, make one request for each chunk of 20
    characters or more, in order, and keep the invariant. *)
Lemma run_ingestLoop (scrapedPages : list Page.t) (w : W) :
  exists st w',
    run c (ingestLoop scrapedPages) w
    = (inr st, w', map embeddingRequest (eligibleChunks scrapedPages))
    /\ ingestInvariant c scrapedPages st.
Proof.
  unfold ingestLoop. rewrite eligibleChunks_requests.
  apply (run_forEach c ingestPage (ingestInvariant c scrapedPages)).
  - intros page st v Hp Hinv. unfold ingestPage.
    apply (run_forEach c (ingestItem page) (ingestInvariant c scrapedPages));
      [|exact Hinv].
    intros contentItem st1 v1 Hi Hinv1. unfold ingestItem.
    apply (run_forEach c (ingestChunk page) (ingestInvariant c scrapedPages)
             (fun chunk =>
                if length chunk <? 20 then [] else [embeddingRequest chunk]));
      [|exact Hinv1].
    intros chunk st2 v2 Hc Hinv2.
    now apply ingestChunk_invariant with contentItem.
  - cbn. repeat split; destruct k; discriminate.
Qed.

End IngestInvariant.

Section IngestOutcomes.

Context {W : Type} (c : Client W).

(** A loop whose body always returns and adds to a log kept beside the
    variables adds the logs of its elements, in order. *)
Lemma run_forEach_log {A S B} (body : S -> A -> Async S)
    (Rel : list B -> S -> Prop) (g : A -> list B) (l : list A) :
  (forall x s w t, In x l -> Rel t s ->
     exists s' w' reqs,
       run c (body s x) w = (inr s', w', reqs) /\ Rel (t ++ g x) s') ->
  forall s w t, Rel t s ->
    exists s' w' reqs,
      run c (forEach body l s) w = (inr s', w', reqs)
      /\ Rel (t ++ flat_map g l) s'.
Proof.
  induction l as [|x l IH]; intros Hbody s w t Hs.
  - exists s, w, []. cbn. rewrite app_nil_r. split; [reflexivity | exact Hs].
  - cbn [forEach flat_map]. rewrite run_bind.
    destruct (Hbody x s w t (or_introl eq_refl) Hs) as (s1 & w1 & r1 & E1 & H1).
    rewrite E1.
    destruct (IH (fun y u v t' Hy => Hbody y u v t' (or_intror Hy)) s1 w1 _ H1)
      as (s2 & w2 & r2 & E2 & H2).
    rewrite E2, <- app_assoc in *. eauto.
Qed.

(** The same for the three loops of [ingestContent], the log being the
    chunks of 20 characters or more. *)
Lemma run_ingestLoop_log (Rel : list jsstring -> IngestState -> Prop)
    (scrapedPages : list Page.t) (w : W) :
  Rel [] ([], [], 0) ->
  (forall page chunk st v t, Rel t st ->
     exists st' v' reqs,
       run c (ingestChunk page st chunk) v = (inr st', v', reqs)
       /\ Rel (t ++ if length chunk <? 20 then [] else [chunk]) st') ->
  exists st w' reqs,
    run c (ingestLoop scrapedPages) w = (inr st, w', reqs)
    /\ Rel (eligibleChunks scrapedPages) st.
Proof.
  intros H0 Hchunk. unfold ingestLoop.
  set (g := fun chunk : jsstring =>
              if length chunk <? 20 then [] else [chunk]).
  assert (Hlog : flat_map (fun page =>
                   flat_map (fun contentItem =>
                     flat_map g (chunkTextDefault contentItem))
                     (Page.content page)) scrapedPages
                 = eligibleChunks scrapedPages).
  { unfold eligibleChunks, g.
    apply flat_map_ext. intros page. apply flat_map_ext. intros contentItem.
    induction (chunkTextDefault contentItem) as [|x l IH]; simpl; [reflexivity|].
    destruct (length x <? 20); simpl; now rewrite IH. }
  rewrite <- Hlog.
  destruct (run_forEach_log ingestPage Rel
              (fun page =>
                 flat_map (fun contentItem =>
                   flat_map g (chunkTextDefault contentItem))
                   (Page.content page)) scrapedPages)
    with (s := (@nil Document, @nil (list float), 0)) (w := w)
         (t := @nil jsstring)
    as (st & w' & reqs & E & Ht); [|exact H0|eauto].
  intros page st v t _ Ht. unfold ingestPage.
  apply (run_forEach_log (ingestItem page) Rel
           (fun contentItem => flat_map g (chunkTextDefault contentItem)));
    [|exact Ht].
  intros contentItem st1 v1 t1 _ Ht1. unfold ingestItem.
  apply (run_forEach_log (ingestChunk page) Rel g); [|exact Ht1].
  intros chunk st2 v2 t2 _ Ht2. now apply Hchunk.
Qed.

End IngestOutcomes.

Section ScoreFacts.

Lemma cosineSimilarity_error (a b : list float) (e : Error) :
  cosineSimilarity a b = inl e ->
  e = mkError "Vectors must have the same length".
Proof.
  unfold cosineSimilarity.
  destruct (Nat.eq_dec (length a) (length b)) as [H|H].
  - rewrite (cosineSimilarityIn_formula binary64 a b H). discriminate.
  - rewrite (cosineSimilarityIn_mismatch binary64 a b H). congruence.
Qed.

(** When every document has an embedding at its place, the only error of
    the scores is that of the dimensions. *)
Lemma scoreFrom_error (vectorStore : VectorStore) (queryEmbedding : list float)
    (docs : list Document) (index : nat) (e : Error) :
  index + length docs <= length (embeddings vectorStore) ->
  scoreFrom vectorStore queryEmbedding index docs = inl e ->
  e = mkError "Vectors must have the same length".
Proof.
  revert index. induction docs as [|d docs IH]; intros index Hlen; cbn;
    [discriminate|].
  cbn in Hlen.
  destruct (nth_error (embeddings vectorStore) index) as [emb|] eqn:En.
  - destruct (cosineSimilarity queryEmbedding emb) as [err|s] eqn:Ec.
    + intros E. injection E as <-. now apply cosineSimilarity_error in Ec.
    + destruct (scoreFrom vectorStore queryEmbedding (S index) docs)
        as [err|rest] eqn:Er; [|discriminate].
      intros E. injection E as <-. apply (IH (S index)); [lia | exact Er].
  - apply nth_error_None in En. lia.
Qed.

Lemma scoreFrom_length (vectorStore : VectorStore) (queryEmbedding : list float)
    (docs : list Document) (index : nat) (scored : list ScoredDocument) :
  scoreFrom vectorStore queryEmbedding index docs = inr scored ->
  map doc scored = docs.
Proof.
  revert index scored. induction docs as [|d docs IH]; intros index scored; cbn.
  - intros E. now injection E as <-.
  - destruct (nth_error (embeddings vectorStore) index) as [emb|]; [|discriminate].
    destruct (cosineSimilarity queryEmbedding emb) as [err|s]; [discriminate|].
    destruct (scoreFrom vectorStore queryEmbedding (S index) docs)
      as [err|rest] eqn:Er; [discriminate|].
    intros E. injection E as <-. cbn. f_equal. now apply (IH (S index)).
Qed.

End ScoreFacts.

Section IngestTheorems.

Context {W : Type} (c : Client W).

Lemma run_ingestLoop_count (scrapedPages : list Page.t) (w : W) :
  exists st w' reqs,
    run c (ingestLoop scrapedPages) w = (inr st, w', reqs)
    /\ length (fst (fst st)) <= length (eligibleChunks scrapedPages).
Proof.
  apply (run_ingestLoop_log c
           (fun t (st : IngestState) => length (fst (fst st)) <= length t));
    [cbn; lia|].
  intros page chunk st v t Ht. rewrite (run_ingestChunk c).
  destruct st as [[documents embeddings] totalChunks]. cbn [fst] in *.
  destruct (length chunk <? 20).
  - rewrite app_nil_r. eauto.
  - destruct (createEmbedding c (firstn (Z.to_nat 8000) chunk) v) as [[e|emb] v'];
      eexists _, _, _; (split; [reflexivity|]); cbn [fst];
      rewrite ?length_app; cbn; lia.
Qed.

Lemma run_ingestLoop_accepted (scrapedPages : list Page.t) (w : W) :
  (forall input v, exists e v', createEmbedding c input v = (inr e, v')) ->
  exists st w' reqs,
    run c (ingestLoop scrapedPages) w = (inr st, w', reqs)
    /\ map text (fst (fst st)) = eligibleChunks scrapedPages.
Proof.
  intros Hc.
  apply (run_ingestLoop_log c
           (fun t (st : IngestState) => map text (fst (fst st)) = t));
    [reflexivity|].
  intros page chunk st v t Ht. rewrite (run_ingestChunk c).
  destruct st as [[documents embeddings] totalChunks]. cbn [fst] in *.
  destruct (length chunk <? 20).
  - rewrite app_nil_r. eauto.
  - destruct (Hc (firstn (Z.to_nat 8000) chunk) v) as (e & v' & ->).
    eexists _, _, _. split; [reflexivity|]. cbn [fst].
    now rewrite map_app, Ht.
Qed.

Lemma run_ingestLoop_rejected (scrapedPages : list Page.t) (w : W) :
  (forall input v, exists e v', createEmbedding c input v = (inl e, v')) ->
  exists w' reqs,
    run c (ingestLoop scrapedPages) w = (inr ([], [], 0), w', reqs).
Proof.
  intros Hc.
  destruct (run_ingestLoop_log c
              (fun _ (st : IngestState) => st = ([], [], 0)) scrapedPages w)
    as (st & w' & reqs & E & ->); [reflexivity| |eauto].
  intros page chunk st v t ->. rewrite (run_ingestChunk c).
  destruct (length chunk <? 20); [eauto|].
  destruct (Hc (firstn (Z.to_nat 8000) chunk) v) as (e & v' & ->). eauto.
Qed.

End IngestTheorems.

(** X1.  [ingestContent] never raises.  Against every client and whatever
    the pages, it returns after one embedding request for each chunk of 20
    characters or more, in the order of the pages, of their content items
    and of the chunks; the store it leaves is initialized and dated, its
    two arrays have one length, at most the number of these requests, and
    the statistics count the pages given and the documents stored. *)
Theorem ingestContent_returns {W : Type} (c : Client W) (now : jsstring)
    (scrapedPages : list Page.t) (w : W) :
  exists store stats w',
    run c (ingestContent now scrapedPages) w
    = (inr (store, stats), w',
       map embeddingRequest (eligibleChunks scrapedPages))
    /\ initialized store = true
    /\ lastUpdated store = Some now
    /\ length (embeddings store) = length (documents store)
    /\ length (documents store) <= length (eligibleChunks scrapedPages)
    /\ totalChunks stats = length (documents store)
    /\ totalPages stats = length scrapedPages
    /\ ingestedAt stats = now.
Proof.
  destruct (run_ingestLoop c scrapedPages w) as (st & w' & E & Hinv).
  destruct (run_ingestLoop_count c scrapedPages w) as (st2 & w2 & r2 & E2 & Hn).
  rewrite E in E2. injection E2 as <- _ _.
  unfold ingestContent. rewrite run_bind, E. cbn [run].
  destruct st as [[documents embeddings] totalChunks].
  destruct Hinv as (Hd & He & _). cbn [ingested fst] in *.
  eexists _, _, w'. rewrite app_nil_r. split; [reflexivity|]. cbn.
  repeat split; congruence.
Qed.

(** X2.  The documents [ingestContent] stores.  The document at place [k]
    of the store has a text of 20 characters or more, which is a chunk of
    a content item of one of the pages; its [id] is the name of that page,
    a dash and [k]; its metadata are those of the page; and the embedding
    at place [k] is an answer of the client to the request for that
    text. *)
Theorem ingestContent_documents {W : Type} (c : Client W) (now : jsstring)
    (scrapedPages : list Page.t) (w : W) :
  exists store stats w' reqs,
    run c (ingestContent now scrapedPages) w = (inr (store, stats), w', reqs)
    /\ forall k d, nth_error (documents store) k = Some d ->
         documentOf scrapedPages k d
         /\ exists e, nth_error (embeddings store) k = Some e
                      /\ answeredBy c (text d) e.
Proof.
  destruct (run_ingestLoop c scrapedPages w) as (st & w' & E & Hinv).
  unfold ingestContent. rewrite run_bind, E. cbn [run].
  destruct st as [[documents embeddings] totalChunks].
  destruct Hinv as (_ & _ & Hall). cbn [ingested].
  eexists _, _, w', _. split; [reflexivity|]. exact Hall.
Qed.

(** X3.  When the client answers every embedding request, the texts of
    the documents stored are the chunks of 20 characters or more, all of
    them and in order. *)
Theorem ingestContent_all_accepted {W : Type} (c : Client W) (now : jsstring)
    (scrapedPages : list Page.t) (w : W) :
  (forall input v, exists e v', createEmbedding c input v = (inr e, v')) ->
  exists store stats w' reqs,
    run c (ingestContent now scrapedPages) w = (inr (store, stats), w', reqs)
    /\ map text (documents store) = eligibleChunks scrapedPages
    /\ totalChunks stats = length (eligibleChunks scrapedPages).
Proof.
  intros Hc.
  destruct (run_ingestLoop c scrapedPages w) as (st & w' & E & Hinv).
  destruct (run_ingestLoop_accepted c scrapedPages w Hc)
    as (st2 & w2 & r2 & E2 & Ht).
  rewrite E in E2. injection E2 as <- _ _.
  unfold ingestContent. rewrite run_bind, E. cbn [run].
  destruct st as [[documents embeddings] totalChunks].
  destruct Hinv as (Hd & _). cbn [ingested fst] in *.
  eexists _, _, w', _. split; [reflexivity|]. cbn.
  split; [exact Ht|]. rewrite <- Ht, length_map. congruence.
Qed.

Lemma ingestContent_all_accepted_witness :
  exists store stats w' reqs,
    run steadyClient
      (ingestContent (js "2024-01-01T00:00:00.000Z") (scrapedContent exampleRound))
      tt
    = (inr (store, stats), w', reqs)
    /\ map text (documents store)
       = [js "Thoughtful AI automates healthcare workflows."]
    /\ totalChunks stats = 1.
Proof.
  apply (ingestContent_all_accepted steadyClient
           (js "2024-01-01T00:00:00.000Z") (scrapedContent exampleRound) tt).
  intros input v. eexists _, _. reflexivity.
Defined.

(** X4.  When the client rejects every embedding request, [ingestContent]
    still returns, and leaves a store that is initialized and empty: a
    search of it returns no result and makes no request. *)
Theorem ingestContent_all_rejected {W : Type} (c : Client W) (now : jsstring)
    (scrapedPages : list Page.t) (w : W) :
  (forall input v, exists e v', createEmbedding c input v = (inl e, v')) ->
  exists store stats w' reqs,
    run c (ingestContent now scrapedPages) w = (inr (store, stats), w', reqs)
    /\ store = {| documents := []; embeddings := [];
                  initialized := true; lastUpdated := Some now |}
    /\ totalChunks stats = 0
    /\ forall query topK, searchDocuments store query topK = Return [].
Proof.
  intros Hc.
  destruct (run_ingestLoop_rejected c scrapedPages w Hc) as (w' & reqs & E).
  unfold ingestContent. rewrite run_bind, E. cbn [run ingested].
  eexists _, _, w', _. split; [reflexivity|]. repeat split.
Qed.

Lemma ingestContent_all_rejected_witness :
  exists store stats w' reqs,
    run embeddingsDown
      (ingestContent (js "2024-01-01T00:00:00.000Z") (scrapedContent exampleRound))
      tt
    = (inr (store, stats), w', reqs)
    /\ store = {| documents := []; embeddings := [];
                  initialized := true;
                  lastUpdated := Some (js "2024-01-01T00:00:00.000Z") |}
    /\ totalChunks stats = 0
    /\ forall query topK, searchDocuments store query topK = Return [].
Proof.
  apply (ingestContent_all_rejected embeddingsDown
           (js "2024-01-01T00:00:00.000Z") (scrapedContent exampleRound) tt).
  intros input v. eexists _, _. reflexivity.
Defined.

(** X5.  A search of a store that [ingestContent] has left.  Every
    document has its embedding, so the scores fail on a difference of
    dimensions only; and a search raises only the error of its embedding
    request or that of the dimensions. *)
Theorem ingestContent_then_search {W : Type} (c : Client W) (now : jsstring)
    (scrapedPages : list Page.t) (w : W) :
  exists store stats w' reqs,
    run c (ingestContent now scrapedPages) w = (inr (store, stats), w', reqs)
    /\ (forall queryEmbedding,
          (forall e, scoreDocuments store queryEmbedding = inl e ->
                     e = mkError "Vectors must have the same length")
          /\ (forall scored, scoreDocuments store queryEmbedding = inr scored ->
                map doc scored = documents store)
          /\ (Forall (fun e => length e = length queryEmbedding)
                (embeddings store) ->
              exists scored, scoreDocuments store queryEmbedding = inr scored))
    /\ (forall (W2 : Type) (c2 : Client W2) query topK w2 e w3 reqs2,
          run c2 (searchDocuments store query topK) w2 = (inl e, w3, reqs2) ->
          createEmbedding c2 (firstn (Z.to_nat 8000) query) w2 = (inl e, w3)
          \/ e = mkError "Vectors must have the same length").
Proof.
  destruct (run_ingestLoop c scrapedPages w) as (st & w' & E & Hinv).
  unfold ingestContent. rewrite run_bind, E. cbn [run].
  destruct st as [[documents embeddings] totalChunks].
  destruct Hinv as (Hd & He & _). cbn [ingested].
  eexists _, _, w', _. split; [reflexivity|].
  set (store := {| RagService.documents := documents;
                   RagService.embeddings := embeddings;
                   initialized := true; lastUpdated := Some now |}).
  assert (Hlen : 0 + length (RagService.documents store)
                 <= length (RagService.embeddings store)) by (cbn; lia).
  assert (Herr : forall q e, scoreDocuments store q = inl e ->
                   e = mkError "Vectors must have the same length").
  { intros q e. now apply scoreFrom_error. }
  split.
  - intros q. split; [apply Herr|]. split.
    + intros scored. apply scoreFrom_length.
    + intros Hdim. now apply scoreFrom_defined.
  - intros W2 c2 query topK w2 e w3 reqs2.
    destruct documents as [|d0 documents'] eqn:Ed.
    + cbn. discriminate.
    + rewrite (run_searchDocuments c2 store query topK w2 eq_refl)
        by (cbn; discriminate).
      destruct (createEmbedding c2 (firstn (Z.to_nat 8000) query) w2)
        as [[err|q] w4]; [intros H; injection H as <- <- _; now left|].
      destruct (scoreDocuments store q) as [err|scored] eqn:Es; [|discriminate].
      intros H. injection H as <- _ _. right. now apply (Herr q).
Qed.

(** ** calculateSimilarity and findBestMatch, further *)

Section SimilarityLaws.

Variable toLowerCase : jsstring -> jsstring.

Lemma setOfAux_In (seen l : list jsstring) (x : jsstring) :
  In x l -> ~ In x seen -> In x (setOfAux seen l).
Proof.
  revert seen. induction l as [|y l IH]; intros seen; simpl; [contradiction|].
  intros Hx Hs. destruct (arrayIncludes seen y) eqn:E.
  - destruct Hx as [<-|Hx]; [|now apply IH].
    apply arrayIncludes_In in E. contradiction.
  - destruct (list_eq_dec N.eq_dec y x) as [->|Hne]; [now left|].
    right. destruct Hx as [Hx|Hx]; [contradiction|].
    apply IH; [exact Hx|]. intros [C|C]; contradiction.
Qed.

Lemma setOf_In (l : list jsstring) (x : jsstring) :
  In x (setOf l) <-> In x l.
Proof.
  split.
  - intros H. now apply (setOfAux_spec [] l).
  - intros H. apply setOfAux_In; [exact H | intros []].
Qed.

Lemma setOf_nil (l : list jsstring) : setOf l = [] <-> l = [].
Proof.
  split; [|intros ->; reflexivity].
  destruct l as [|x l]; [reflexivity|]. intros E.
  assert (H : In x (setOf (x :: l))) by (apply setOf_In; now left).
  rewrite E in H. contradiction.
Qed.

Lemma Qmake_positive (i : nat) (p : positive) :
  (0 < Qmake (Z.of_nat i) p)%Q <-> 0 < i.
Proof. unfold Qlt. simpl. lia. Qed.

Lemma countShared_positive (a b : list jsstring) :
  0 < countShared a b <-> exists x, In x a /\ In x b.
Proof.
  unfold countShared. split.
  - destruct (filter (arrayIncludes b) a) as [|x l] eqn:E; simpl; [lia|].
    intros _. exists x.
    assert (H : In x (filter (arrayIncludes b) a)) by (rewrite E; now left).
    apply filter_In in H. destruct H as [Ha Hb].
    split; [exact Ha | now apply arrayIncludes_In].
  - intros (x & Ha & Hb).
    assert (H : In x (filter (arrayIncludes b) a)).
    { apply filter_In. split; [exact Ha | now apply arrayIncludes_In]. }
    destruct (filter (arrayIncludes b) a); [contradiction | simpl; lia].
Qed.

(** A similarity is positive when the two strings share a word, and only
    then. *)
Lemma calculateSimilarity_positive (a b : jsstring) :
  (0 < calculateSimilarity toLowerCase a b)%Q <-> sharesWord toLowerCase a b.
Proof.
  unfold calculateSimilarity, sharesWord.
  set (w1 := setOf (normalize toLowerCase a)).
  set (w2 := setOf (normalize toLowerCase b)).
  assert (Hshare : (exists x, In x w1 /\ In x w2)
                   <-> exists word, In word (normalize toLowerCase a)
                                    /\ In word (normalize toLowerCase b)).
  { unfold w1, w2. split; intros (x & H1 & H2); exists x;
      split; now apply setOf_In. }
  rewrite <- Hshare.
  destruct ((length w1 =? 0) || (length w2 =? 0)) eqn:E.
  - split; [intros H; now apply Qlt_irrefl in H|].
    intros (x & H1 & H2). apply orb_true_iff in E.
    destruct E as [E|E]; apply Nat.eqb_eq, length_zero_iff_nil in E;
      rewrite E in *; contradiction.
  - rewrite Qmake_positive. apply countShared_positive.
Qed.

Lemma calculateSimilarity_comm (a b : jsstring) :
  calculateSimilarity toLowerCase a b = calculateSimilarity toLowerCase b a.
Proof.
  unfold calculateSimilarity, countShared.
  set (w1 := setOf (normalize toLowerCase a)).
  set (w2 := setOf (normalize toLowerCase b)).
  rewrite (orb_comm (length w2 =? 0)).
  destruct (_ || _); [reflexivity|].
  rewrite (shared_length w1 w2) by apply setOf_NoDup.
  now rewrite (Nat.add_comm (length w2)).
Qed.

Lemma calculateSimilarity_self (a : jsstring) :
  normalize toLowerCase a <> [] ->
  (calculateSimilarity toLowerCase a a == 1)%Q.
Proof.
  intros Hne. unfold calculateSimilarity, countShared.
  set (w := setOf (normalize toLowerCase a)).
  assert (Hw : w <> []) by (unfold w; now rewrite setOf_nil).
  assert (Hall : filter (arrayIncludes w) w = w).
  { apply forallb_filter_id, forallb_forall. intros x Hx.
    now apply arrayIncludes_In. }
  rewrite Hall, orb_diag.
  destruct w as [|x w']; [contradiction|]. cbn [length Nat.eqb].
  unfold Qeq. cbn [Qnum Qden]. rewrite Z.mul_1_l, Z.mul_1_r.
  replace (S (length w') + S (length w') - S (length w')) with (S (length w'))
    by lia.
  now rewrite <- (positive_nat_Z (Pos.of_nat _)), Nat2Pos.id.
Qed.

End SimilarityLaws.

(** X6.  [calculateSimilarity] does not depend on the order of its two
    strings; it is between [0] and [1]; it is positive exactly when the
    strings share a word of more than two characters, after [normalize];
    and a string with such a word is at similarity [1] with itself. *)
Theorem calculateSimilarity_laws (toLowerCase : jsstring -> jsstring)
    (a b : jsstring) :
  calculateSimilarity toLowerCase a b = calculateSimilarity toLowerCase b a
  /\ (0 <= calculateSimilarity toLowerCase a b <= 1)%Q
  /\ ((0 < calculateSimilarity toLowerCase a b)%Q
      <-> sharesWord toLowerCase a b)
  /\ (normalize toLowerCase a <> [] ->
      (calculateSimilarity toLowerCase a a == 1)%Q).
Proof.
  split; [apply calculateSimilarity_comm|].
  split; [apply calculateSimilarity_bounds|].
  split; [apply calculateSimilarity_positive | apply calculateSimilarity_self].
Qed.

Example calculateSimilarity_ignores_short_words :
  calculateSimilarity toLowerCaseASCII (js "is it a") (js "is it a") = 0%Q
  /\ (calculateSimilarity toLowerCaseASCII (js "Hello, World!") (js "hello world")
      == 1)%Q.
Proof. split; vm_compute; reflexivity. Qed.

Section MatcherInvariants.

Variable toLowerCase : jsstring -> jsstring.
Variable questions : list QA.t.
Variable query : jsstring.

Local Abbreviation sim := (calculateSimilarity toLowerCase query).

Lemma tracked_nonnegative (st : Best) :
  tracked toLowerCase query st -> (0 <= snd st)%Q.
Proof.
  unfold tracked. destruct (fst st) as [m|].
  - intros (-> & H1 & H2). apply Qlt_le_weak. now apply Qlt_le_trans with (2 := H2).
  - intros ->. apply Qle_refl.
Qed.

Lemma keywordStep_tracked (lower : jsstring) (st st' : Best)
    (entry : jsstring * nat) :
  tracked toLowerCase query st ->
  keywordStep toLowerCase questions query lower (inr st) entry = inr st' ->
  tracked toLowerCase query st' /\ (snd st <= snd st')%Q.
Proof.
  intros T. pose proof (tracked_nonnegative st T) as Hnn.
  destruct st as [best score], entry as [keyword index]. unfold keywordStep.
  destruct (includes lower keyword);
    [|intros E; injection E as <-; split; [exact T | apply Qle_refl]].
  destruct (nth_error questions index) as [qa|]; [|discriminate].
  destruct (Qlt_bool score (sim (QA.question qa))) eqn:Elt;
    intros E; injection E as <-; [|split; [exact T | apply Qle_refl]].
  apply Qlt_bool_iff in Elt. cbn [snd] in *. split.
  - unfold tracked. cbn. split; [reflexivity|]. split.
    + now apply Qle_lt_trans with score.
    + apply Q.le_max_l.
  - apply Qle_trans with (sim (QA.question qa));
      [now apply Qlt_le_weak | apply Q.le_max_l].
Qed.

Lemma keywordLoop_tracked (lower : jsstring) (l : list (jsstring * nat))
    (st st' : Best) :
  tracked toLowerCase query st ->
  fold_left (keywordStep toLowerCase questions query lower) l (inr st) = inr st' ->
  tracked toLowerCase query st' /\ (snd st <= snd st')%Q.
Proof.
  revert st. induction l as [|entry l IH]; intros st T; cbn [fold_left].
  - intros E. injection E as <-. split; [exact T | apply Qle_refl].
  - destruct (keywordStep toLowerCase questions query lower (inr st) entry)
      as [e|st1] eqn:E1.
    + rewrite keywordStep_error. discriminate.
    + destruct (keywordStep_tracked lower st st1 entry T E1) as [T1 L1].
      intros E. destruct (IH st1 T1 E) as [T2 L2].
      split; [exact T2 | now apply Qle_trans with (snd st1)].
Qed.

Lemma scanStep_tracked (st : Best) (qa : QA.t) :
  tracked toLowerCase query st ->
  tracked toLowerCase query (scanStep toLowerCase query st qa)
  /\ (snd st <= snd (scanStep toLowerCase query st qa))%Q
  /\ (sim (QA.question qa) <= snd (scanStep toLowerCase query st qa))%Q.
Proof.
  intros T. pose proof (tracked_nonnegative st T) as Hnn.
  destruct st as [best score]. unfold scanStep. cbn [snd] in *.
  destruct (Qlt_bool score (sim (QA.question qa))) eqn:Elt.
  - apply Qlt_bool_iff in Elt. cbn [snd]. split; [|split].
    + unfold tracked. cbn. split; [reflexivity|]. split.
      * now apply Qle_lt_trans with score.
      * apply Qle_refl.
    + now apply Qlt_le_weak.
    + apply Qle_refl.
  - cbn [snd]. split; [exact T|]. split; [apply Qle_refl|].
    apply Qnot_lt_le. intros C. apply Qlt_bool_iff in C. congruence.
Qed.

Lemma scanLoop_tracked (l : list QA.t) (st : Best) :
  tracked toLowerCase query st ->
  tracked toLowerCase query (fold_left (scanStep toLowerCase query) l st)
  /\ (snd st <= snd (fold_left (scanStep toLowerCase query) l st))%Q
  /\ forall qa, In qa l ->
       (sim (QA.question qa)
        <= snd (fold_left (scanStep toLowerCase query) l st))%Q.
Proof.
  revert st. induction l as [|qa l IH]; intros st T; cbn [fold_left].
  - split; [exact T|]. split; [apply Qle_refl | contradiction].
  - destruct (scanStep_tracked st qa T) as (T1 & L1 & S1).
    destruct (IH _ T1) as (T2 & L2 & S2).
    split; [exact T2|]. split; [now apply Qle_trans with (2 := L2)|].
    intros x [<-|Hx]; [now apply Qle_trans with (2 := L2) | now apply S2].
Qed.

(** The score the first loop leaves is [0] or at least [0.5], and at
    least [0.5] after a keyword found in the query whose question shares a
    word with it. *)
Lemma keywordStep_floor (lower : jsstring) (st st' : Best)
    (entry : jsstring * nat) :
  tracked toLowerCase query st ->
  (snd st = 0%Q \/ (1 # 2 <= snd st)%Q) ->
  keywordStep toLowerCase questions query lower (inr st) entry = inr st' ->
  (snd st' = 0%Q \/ (1 # 2 <= snd st')%Q)
  /\ (includes lower (fst entry) = true ->
      forall qa, nth_error questions (snd entry) = Some qa ->
      (0 < sim (QA.question qa))%Q -> (1 # 2 <= snd st')%Q).
Proof.
  intros T K. destruct st as [best score], entry as [keyword index].
  unfold keywordStep. cbn [fst snd] in *.
  destruct (includes lower keyword);
    [|intros E; injection E as <-; split; [exact K | discriminate]].
  destruct (nth_error questions index) as [qa|]; [|discriminate].
  destruct (Qlt_bool score (sim (QA.question qa))) eqn:Elt;
    intros E; injection E as <-; cbn [snd].
  - split; [right; apply Q.le_max_r|]. intros _ qa' _ _. apply Q.le_max_r.
  - split; [exact K|]. intros _ qa' E Hpos. injection E as <-.
    destruct K as [->|K]; [|exact K].
    apply Qlt_bool_iff in Hpos. congruence.
Qed.

Lemma keywordLoop_floor (lower : jsstring) (l : list (jsstring * nat))
    (st st' : Best) (entry : jsstring * nat) (qa : QA.t) :
  tracked toLowerCase query st ->
  (snd st = 0%Q \/ (1 # 2 <= snd st)%Q) ->
  fold_left (keywordStep toLowerCase questions query lower) l (inr st) = inr st' ->
  In entry l -> includes lower (fst entry) = true ->
  nth_error questions (snd entry) = Some qa ->
  (0 < sim (QA.question qa))%Q ->
  (1 # 2 <= snd st')%Q.
Proof.
  revert st. induction l as [|x l IH]; intros st T K; cbn [fold_left];
    [contradiction|].
  destruct (keywordStep toLowerCase questions query lower (inr st) x)
    as [e|st1] eqn:E1; [rewrite keywordStep_error; discriminate|].
  destruct (keywordStep_tracked lower st st1 x T E1) as [T1 _].
  destruct (keywordStep_floor lower st st1 x T K E1) as [K1 F1].
  intros E [<-|Hin] Hinc Hqa Hpos.
  - destruct (keywordLoop_tracked lower l st1 st' T1 E) as [_ L].
    apply Qle_trans with (2 := L). now apply F1 with qa.
  - now apply (IH st1 T1 K1 E Hin Hinc Hqa Hpos).
Qed.

(** A keyword found in the query whose index is past the end of the
    catalog stops the first loop with a [TypeError]. *)
Lemma keywordLoop_missing (lower : jsstring) (l : list (jsstring * nat))
    (st : Error + Best) (entry : jsstring * nat) :
  (forall e, st = inl e ->
     e = mkError "Cannot read properties of undefined (reading 'question')") ->
  In entry l -> includes lower (fst entry) = true ->
  nth_error questions (snd entry) = None ->
  fold_left (keywordStep toLowerCase questions query lower) l st
  = inl (mkError "Cannot read properties of undefined (reading 'question')").
Proof.
  revert st. induction l as [|x l IH]; intros st Hst; [contradiction|].
  cbn [fold_left]. intros [<-|Hin] Hinc Hnone.
  - destruct st as [e|[best score]].
    + rewrite (Hst e eq_refl). cbn. apply keywordStep_error.
    + destruct x as [keyword index]. cbn [fst snd] in *.
      unfold keywordStep at 2. rewrite Hinc, Hnone. apply keywordStep_error.
  - apply IH; try assumption.
    intros e. destruct st as [e0|[best score]]; cbn.
    + intros E. injection E as <-. now apply Hst.
    + destruct x as [keyword index].
      destruct (includes lower keyword); [|discriminate].
      destruct (nth_error questions index) as [qa|].
      * destruct (Qlt_bool _ _); discriminate.
      * intros E. now injection E as <-.
Qed.

End MatcherInvariants.

(** X7.  A match that [findBestMatch] returns is the best of the catalog:
    its question shares a word with the query, and no question of the
    catalog is more similar to the query than its confidence says.  When it
    returns no match, every question of the catalog has a similarity below
    [0.3]. *)
Theorem findBestMatch_best (toLowerCase : jsstring -> jsstring)
    (questions : list QA.t) (query : jsstring) :
  match findBestMatch toLowerCase questions query with
  | inr (Some m) =>
      sharesWord toLowerCase query (Match.matchedQuestion m)
      /\ forall qa, In qa questions ->
           (calculateSimilarity toLowerCase query (QA.question qa)
            <= Match.confidence m)%Q
  | inr None =>
      forall qa, In qa questions ->
        (calculateSimilarity toLowerCase query (QA.question qa) < 3 # 10)%Q
  | inl _ => True
  end.
Proof.
  unfold findBestMatch. cbv zeta.
  destruct (fold_left (keywordStep toLowerCase questions query (toLowerCase query))
              keywords (inr (None, 0%Q))) as [e|st1] eqn:E1;
    [exact I|].
  destruct (keywordLoop_tracked toLowerCase questions query _ keywords
              (None, 0%Q) st1 eq_refl E1) as [T1 _].
  destruct (scanLoop_tracked toLowerCase query questions st1 T1)
    as (T2 & _ & S2).
  destruct (fold_left (scanStep toLowerCase query) questions st1)
    as [best score]. cbn [snd] in *.
  unfold SIMILARITY_THRESHOLD.
  destruct (Qle_bool (3 # 10) score) eqn:Ele.
  - destruct best as [m|]; [|].
    + destruct T2 as (Es & Hpos & _). cbn [fst snd] in *. subst score.
      split; [now apply calculateSimilarity_positive | exact S2].
    + cbn in T2. subst score. discriminate.
  - intros qa Hqa. apply Qle_lt_trans with score; [now apply S2|].
    apply Qnot_le_lt. intros C. apply Qle_bool_iff in C. congruence.
Qed.

(** X8.  The keyword floor.  When the catalog has the five questions the
    keyword table points to, and the lowercased query contains a keyword
    whose question shares a word with the query, [findBestMatch] returns a
    match, of confidence [0.5] at least. *)
Theorem findBestMatch_keyword_floor (toLowerCase : jsstring -> jsstring)
    (questions : list QA.t) (query keyword : jsstring) (index : nat)
    (qa : QA.t) :
  5 <= length questions ->
  In (keyword, index) keywords ->
  includes (toLowerCase query) keyword = true ->
  nth_error questions index = Some qa ->
  sharesWord toLowerCase query (QA.question qa) ->
  exists m,
    findBestMatch toLowerCase questions query = inr (Some m)
    /\ (1 # 2 <= Match.confidence m)%Q.
Proof.
  intros Hlen Hin Hinc Hqa Hshare. unfold findBestMatch. cbv zeta.
  apply calculateSimilarity_positive in Hshare.
  destruct (fold_left (keywordStep toLowerCase questions query (toLowerCase query))
              keywords (inr (None, 0%Q))) as [e|st1] eqn:E1.
  - exfalso.
    pose proof (keywordLoop_specified toLowerCase questions query keywords None
                  (keywords_in_range questions Hlen)) as Hk.
    cbn [currentScore] in Hk. rewrite Hk in E1. discriminate.
  - destruct (keywordLoop_tracked toLowerCase questions query _ keywords
                (None, 0%Q) st1 eq_refl E1) as [T1 _].
    pose proof (keywordLoop_floor toLowerCase questions query _ keywords
                  (None, 0%Q) st1 (keyword, index) qa eq_refl
                  (or_introl eq_refl) E1 Hin Hinc Hqa Hshare) as F1.
    destruct (scanLoop_tracked toLowerCase query questions st1 T1)
      as (T2 & L2 & _).
    destruct (fold_left (scanStep toLowerCase query) questions st1)
      as [best score]. cbn [snd] in *.
    assert (Hhalf : (1 # 2 <= score)%Q) by now apply Qle_trans with (snd st1).
    unfold SIMILARITY_THRESHOLD.
    replace (Qle_bool (3 # 10) score) with true.
    + destruct best as [m|].
      * destruct T2 as (Es & _). cbn [fst snd] in Es. subst score. eauto.
      * cbn in T2. subst score. exfalso.
        apply (Qle_not_lt _ _ Hhalf). reflexivity.
    + symmetry. apply Qle_bool_iff. apply Qle_trans with (1 # 2)%Q; [discriminate|].
      exact Hhalf.
Qed.

Lemma findBestMatch_keyword_floor_witness :
  exists m,
    findBestMatch toLowerCaseASCII exampleCatalog (js "Tell me about PHIL work")
    = inr (Some m)
    /\ (1 # 2 <= Match.confidence m)%Q.
Proof.
  apply (findBestMatch_keyword_floor toLowerCaseASCII exampleCatalog
           (js "Tell me about PHIL work") (js "phil") 2
           {| QA.question := js "How does the payment posting agent (PHIL) work?";
              QA.answer := js "PHIL automates the posting of payments to patient accounts, ensuring fast, accurate reconciliation of payments and reducing administrative burden." |}).
  - simpl. lia.
  - unfold keywords. simpl. tauto.
  - vm_compute. reflexivity.
  - reflexivity.
  - exists (js "phil"). split; vm_compute; tauto.
Defined.

(** X9.  A catalog that lacks a question of the keyword table.  When the
    lowercased query contains a keyword whose index is past the end of the
    catalog, [findBestMatch] raises the [TypeError] of reading [question]
    of [undefined], and so does [getAgentResponse], before any request. *)
Theorem findBestMatch_missing_question (toLowerCase : jsstring -> jsstring)
    (questions : list QA.t) (query keyword : jsstring) (index : nat)
    (vectorStore : VectorStore) (conversationHistory : list Message) :
  In (keyword, index) keywords ->
  includes (toLowerCase query) keyword = true ->
  length questions <= index ->
  findBestMatch toLowerCase questions query
  = inl (mkError "Cannot read properties of undefined (reading 'question')")
  /\ getAgentResponse toLowerCase questions vectorStore query conversationHistory
     = Throw (mkError "Cannot read properties of undefined (reading 'question')").
Proof.
  intros Hin Hinc Hlen.
  assert (E : findBestMatch toLowerCase questions query
              = inl (mkError "Cannot read properties of undefined (reading 'question')")).
  { unfold findBestMatch. cbv zeta.
    rewrite (keywordLoop_missing toLowerCase questions query _ keywords _
               (keyword, index)); try assumption; [reflexivity|discriminate|].
    now apply nth_error_None. }
  split; [exact E|]. unfold getAgentResponse. now rewrite E.
Qed.

Lemma findBestMatch_missing_question_witness :
  findBestMatch toLowerCaseASCII (firstn 2 exampleCatalog) (js "Tell me about PHIL")
  = inl (mkError "Cannot read properties of undefined (reading 'question')")
  /\ getAgentResponse toLowerCaseASCII (firstn 2 exampleCatalog) exampleStore
       (js "Tell me about PHIL") []
     = Throw (mkError "Cannot read properties of undefined (reading 'question')").
Proof.
  apply (findBestMatch_missing_question toLowerCaseASCII
           (firstn 2 exampleCatalog) (js "Tell me about PHIL") (js "phil") 2).
  - unfold keywords. simpl. tauto.
  - vm_compute. reflexivity.
  - simpl. lia.
Defined.

(** ** getAgentResponse, further *)

Section MathMax.

Lemma SFcompare_refl (x : spec_float) :
  x <> S754_nan -> SFcompare x x = Some Eq.
Proof.
  destruct x as [s|s| |s m e]; simpl; intros H; try reflexivity;
    try (now destruct s); [contradiction|].
  change PosDef.Pos.compare_cont with Pos.compare_cont.
  fold (Pos.compare m m). rewrite Z.compare_refl, Pos.compare_refl.
  now destruct s.
Qed.

Lemma float_ltb_not_nan (x y : float) :
  (x <? y)%float = true -> PrimFloat.is_nan y = false.
Proof.
  unfold PrimFloat.is_nan. rewrite ltb_spec, eqb_spec. unfold SFltb, SFeqb.
  intros H. rewrite SFcompare_refl; [reflexivity|].
  intros E. rewrite E in H. now destruct (Prim2SF x).
Qed.

Lemma float_leb_refl (x : float) :
  PrimFloat.is_nan x = false -> (x <=? x)%float = true.
Proof.
  unfold PrimFloat.is_nan. rewrite leb_spec, eqb_spec. unfold SFleb, SFeqb.
  destruct (SFcompare (Prim2SF x) (Prim2SF x)) as [[]|]; simpl; congruence.
Qed.

(** [Math.max] of two numbers above [0.3] is one of them, and not below
    either. *)
Lemma max2_above (a b : float) :
  (0.3 <? a)%float = true -> (0.3 <? b)%float = true ->
  (max2 a b = a \/ max2 a b = b)
  /\ (a <=? max2 a b)%float = true /\ (b <=? max2 a b)%float = true.
Proof.
  intros Ha Hb.
  pose proof (float_ltb_not_nan _ _ Ha) as Na.
  pose proof (float_ltb_not_nan _ _ Hb) as Nb.
  unfold max2. rewrite Na, Nb. cbn [orb].
  destruct (a <? b)%float eqn:Eab.
  - split; [now right|]. split; [now apply float_ltb_leb | now apply float_leb_refl].
  - pose proof (float_leb_total a b Na Nb Eab) as Lba.
    destruct (b <? a)%float eqn:Eba.
    + split; [now left|]. split; [now apply float_leb_refl | exact Lba].
    + pose proof (float_leb_total b a Nb Na Eba) as Lab.
      destruct (PrimFloat.get_sign a).
      * split; [now right|]. split; [exact Lab | now apply float_leb_refl].
      * split; [now left|]. split; [now apply float_leb_refl | exact Lba].
Qed.

Lemma max2_first (b : float) :
  (0.3 <? b)%float = true -> max2 neg_infinity b = b.
Proof.
  intros Hb. pose proof (float_ltb_not_nan _ _ Hb) as Nb.
  unfold max2. rewrite Nb.
  change (PrimFloat.is_nan neg_infinity) with false. cbn [orb].
  now rewrite (float_ltb_trans neg_infinity 0.3 b eq_refl Hb).
Qed.

Lemma max2_zero (a : float) :
  (0.3 <? a)%float = true -> max2 a 0 = a.
Proof.
  intros Ha. pose proof (float_ltb_not_nan _ _ Ha) as Na.
  unfold max2. rewrite Na.
  change (PrimFloat.is_nan 0) with false. cbn [orb].
  destruct (a <? 0)%float eqn:E.
  - pose proof (float_ltb_trans 0.3 a 0 Ha E) as C. vm_compute in C. discriminate.
  - now rewrite (float_ltb_trans 0 0.3 a eq_refl Ha).
Qed.

Lemma mathMax_from (l : list float) (acc : float) :
  (0.3 <? acc)%float = true ->
  Forall (fun x => (0.3 <? x)%float = true) l ->
  (0.3 <? fold_left max2 l acc)%float = true
  /\ (fold_left max2 l acc = acc \/ In (fold_left max2 l acc) l)
  /\ (acc <=? fold_left max2 l acc)%float = true
  /\ Forall (fun x => (x <=? fold_left max2 l acc)%float = true) l.
Proof.
  intros Hacc H. revert acc Hacc.
  induction H as [|x l Hx _ IH]; intros acc Hacc; cbn [fold_left].
  - split; [exact Hacc|]. split; [now left|].
    split; [apply float_leb_refl; now apply float_ltb_not_nan with 0.3%float|].
    constructor.
  - destruct (max2_above acc x Hacc Hx) as (Hsel & L1 & L2).
    assert (Hm : (0.3 <? max2 acc x)%float = true)
      by (destruct Hsel as [-> | ->]; assumption).
    destruct (IH (max2 acc x) Hm) as (H1 & H2 & H3 & H4).
    split; [exact H1|]. split; [|split].
    + destruct H2 as [E|Hin]; [|right; now right].
      rewrite E. destruct Hsel as [-> | ->]; [now left | right; now left].
    + now apply float_leb_trans with (max2 acc x).
    + constructor; [now apply float_leb_trans with (max2 acc x) | exact H4].
Qed.

(** [Math.max(...scores, 0)] of scores above [0.3], one at least: it is
    one of them, above [0.3], and none of them is above it. *)
Lemma mathMax_scores (scores : list float) :
  scores <> [] ->
  Forall (fun x => (0.3 <? x)%float = true) scores ->
  (0.3 <? mathMax (scores ++ [0%float]))%float = true
  /\ In (mathMax (scores ++ [0%float])) scores
  /\ Forall (fun x => (x <=? mathMax (scores ++ [0%float]))%float = true) scores.
Proof.
  intros Hne H. destruct scores as [|x l]; [contradiction|].
  inversion H as [|? ? Hx Hl]; subst.
  unfold mathMax. rewrite fold_left_app. cbn [fold_left].
  rewrite (max2_first x Hx).
  destruct (mathMax_from l x Hx Hl) as (H1 & H2 & H3 & H4).
  rewrite (max2_zero _ H1).
  split; [exact H1|]. split.
  - destruct H2 as [-> | Hin]; [now left | now right].
  - constructor; assumption.
Qed.

End MathMax.

Section WaterfallFacts.

Context {W : Type} (c : Client W).

Variable toLowerCase : jsstring -> jsstring.
Variable questions : list QA.t.

(** A search asks for the embedding of the query, or for nothing; what it
    returns is at most [topK] results above [0.3]. *)
Lemma run_searchDocuments_cases (vectorStore : VectorStore) (query : jsstring)
    (topK : nat) (w : W) :
  exists r w' reqs,
    run c (searchDocuments vectorStore query topK) w = (r, w', reqs)
    /\ (reqs = [] \/ reqs = [embeddingRequest query])
    /\ (isInitialized vectorStore = false -> reqs = [] /\ r = inr [])
    /\ forall results, r = inr results ->
         length results <= topK
         /\ Forall (fun d => (0.3 <? score d)%float = true) results.
Proof.
  destruct (initialized vectorStore) eqn:Ei;
    [destruct (documents vectorStore) as [|d0 docs] eqn:Ed|].
  - exists (inr []), w, []. unfold searchDocuments. rewrite Ei, Ed. cbn.
    split; [reflexivity|]. split; [now left|]. split; [auto|].
    intros results E. injection E as <-. split; [cbn; lia | constructor].
  - rewrite (run_searchDocuments c vectorStore query topK w Ei)
      by (rewrite Ed; discriminate).
    destruct (createEmbedding c (firstn (Z.to_nat 8000) query) w) as [[e|q] w1].
    + eexists _, _, _. split; [reflexivity|]. split; [now right|].
      split; [unfold isInitialized; congruence | discriminate].
    + destruct (scoreDocuments vectorStore q) as [e|scored].
      * eexists _, _, _. split; [reflexivity|]. split; [now right|].
        split; [unfold isInitialized; congruence | discriminate].
      * eexists _, _, _. split; [reflexivity|]. split; [now right|].
        split; [unfold isInitialized; congruence|].
        intros results E. injection E as <-.
        destruct (ranked_properties topK scored) as (P1 & P2 & _). auto.
  - exists (inr []), w, []. unfold searchDocuments. rewrite Ei. cbn.
    split; [reflexivity|]. split; [now left|]. split; [auto|].
    intros results E. injection E as <-. split; [cbn; lia | constructor].
Qed.

Lemma run_getOpenAIResponseWithRAG (userQuery : jsstring)
    (conversationHistory : list Message) (ragContext : option RagContext)
    (w : W) :
  run c (getOpenAIResponseWithRAG userQuery conversationHistory ragContext) w
  = let '(r, w1) :=
      createChatCompletion c
        (chatMessages userQuery conversationHistory ragContext) w in
    (match r with
     | inl e => inl e
     | inr content =>
         inr (content,
              match ragContext with Some x => sources x | None => [] end)
     end, w1, [chatRequest userQuery conversationHistory ragContext]).
Proof.
  unfold getOpenAIResponseWithRAG. cbn [run].
  destruct (createChatCompletion c _ w) as [[e|content] w1]; reflexivity.
Qed.

Lemma run_getOpenAIResponse (userQuery : jsstring)
    (conversationHistory : list Message) (w : W) :
  run c (getOpenAIResponse userQuery conversationHistory) w
  = let '(r, w1) :=
      createChatCompletion c (chatMessages userQuery conversationHistory None) w in
    (r, w1, [chatRequest userQuery conversationHistory None]).
Proof.
  unfold getOpenAIResponse. rewrite run_bind, run_getOpenAIResponseWithRAG.
  destruct (createChatCompletion c _ w) as [[e|content] w1]; reflexivity.
Qed.

(** The retrieval tier: the search, then one chat request with the
    context of its results. *)
Lemma run_ragTier (vectorStore : VectorStore) (userQuery : jsstring)
    (conversationHistory : list Message) (w : W) :
  run c (ragTier vectorStore userQuery conversationHistory) w
  = let '(r, w1, reqs) := run c (searchDocuments vectorStore userQuery 5) w in
    match r with
    | inl e => (inl e, w1, reqs)
    | inr searchResults =>
        let '(r2, w2) :=
          createChatCompletion c
            (chatMessages userQuery conversationHistory
               (Some (contextOf searchResults))) w1 in
        (ragAnswer (contextOf searchResults) r2, w2,
         reqs ++ [chatRequest userQuery conversationHistory
                    (Some (contextOf searchResults))])
    end.
Proof.
  unfold ragTier, getRelevantContext. rewrite !run_bind.
  destruct (run c (searchDocuments vectorStore userQuery 5) w)
    as [[[e|searchResults] w1] reqs]; [reflexivity|].
  cbn [run]. fold (contextOf searchResults).
  rewrite run_bind, run_getOpenAIResponseWithRAG.
  destruct (createChatCompletion c _ w1) as [[e|content] w2];
    cbn; now rewrite ?app_nil_r.
Qed.

End WaterfallFacts.

Section WaterfallShape.

Context {W : Type} (c : Client W).

Variable toLowerCase : jsstring -> jsstring.
Variable questions : list QA.t.

(** The tiers after the predefined one, as what they ask of the client. *)
Lemma run_laterTiers (vectorStore : VectorStore) (userQuery : jsstring)
    (conversationHistory : list Message) (w : W) :
  run c (laterTiers vectorStore userQuery conversationHistory) w
  = if isInitialized vectorStore then
      let '(r, w1, reqs) :=
        run c (ragTier vectorStore userQuery conversationHistory) w in
      match r with
      | inr response => (inr response, w1, reqs)
      | inl _ =>
          let '(r2, w2) :=
            createChatCompletion c
              (chatMessages userQuery conversationHistory None) w1 in
          (fallbackAnswer r2, w2,
           reqs ++ [chatRequest userQuery conversationHistory None])
      end
    else
      let '(r2, w2) :=
        createChatCompletion c
          (chatMessages userQuery conversationHistory None) w in
      (fallbackAnswer r2, w2, [chatRequest userQuery conversationHistory None]).
Proof.
  unfold laterTiers. destruct (isInitialized vectorStore).
  - rewrite run_tryCatch.
    destruct (run c (ragTier vectorStore userQuery conversationHistory) w)
      as [[[e|response] w1] reqs]; [|reflexivity].
    rewrite run_fallbackTier, run_getOpenAIResponse.
    now destruct (createChatCompletion c _ w1) as [r2 w2].
  - rewrite run_fallbackTier, run_getOpenAIResponse.
    now destruct (createChatCompletion c _ w) as [r2 w2].
Qed.

Lemma contextOf_sources (searchResults : list ScoredDocument) :
  length searchResults <= 5 ->
  Forall (fun d => (0.3 <? score d)%float = true) searchResults ->
  length (sources (contextOf searchResults)) <= 5
  /\ Forall (fun s => (0.3 <? Source.relevanceScore s)%float = true)
       (sources (contextOf searchResults))
  /\ (hasContext (contextOf searchResults) = true
      <-> sources (contextOf searchResults) <> [])
  /\ (hasContext (contextOf searchResults) = false
      -> context (contextOf searchResults) = []).
Proof.
  intros Hlen Hall. unfold contextOf. cbn [sources hasContext context].
  rewrite length_map. split; [exact Hlen|]. split; [|split].
  - apply Forall_map. cbn. exact Hall.
  - destruct searchResults; cbn; split; congruence.
  - destruct searchResults; cbn; [reflexivity | discriminate].
Qed.

End WaterfallShape.

Lemma join_substring (sep p : jsstring) (l : list jsstring) :
  In p l -> substring p (join sep l).
Proof.
  induction l as [|q l IH]; [contradiction|].
  intros Hp. destruct l as [|q' l'].
  - destruct Hp as [->|[]]. exists [], []. cbn. now rewrite app_nil_r.
  - change (join sep (q :: q' :: l')) with (q ++ sep ++ join sep (q' :: l')).
    destruct Hp as [->|Hp].
    + exists [], (sep ++ join sep (q' :: l')). reflexivity.
    + destruct (IH Hp) as (a & b & E). rewrite E.
      exists (q ++ sep ++ a), b. now rewrite <- !app_assoc.
Qed.

(** X10.  The context of a query.  [getRelevantContext] asks for the
    embedding of the query, or for nothing when the store is not
    initialized or is empty, and then returns the empty context.  A context
    it returns has at most five sources, each with a relevance above
    [0.3]; [hasContext] says whether there is a source; and the text of the
    context holds, for every result of the search, its text and the name
    of its page between [[Source: ] and []]. *)
Theorem getRelevantContext_context {W : Type} (c : Client W)
    (vectorStore : VectorStore) (query : jsstring) (w : W) :
  exists r w' reqs,
    run c (getRelevantContext vectorStore query) w = (r, w', reqs)
    /\ (reqs = [] \/ reqs = [embeddingRequest query])
    /\ (isInitialized vectorStore = false \/ documents vectorStore = [] ->
        reqs = []
        /\ r = inr {| context := []; sources := []; hasContext := false |})
    /\ forall ragContext, r = inr ragContext ->
         length (sources ragContext) <= 5
         /\ Forall (fun s => (0.3 <? Source.relevanceScore s)%float = true)
              (sources ragContext)
         /\ (hasContext ragContext = true <-> sources ragContext <> [])
         /\ (hasContext ragContext = false -> context ragContext = [])
         /\ exists searchResults,
              ragContext = contextOf searchResults
              /\ forall d, In d searchResults ->
                   substring (text (doc d)) (context ragContext)
                   /\ substring
                        (js "[Source: " ++ Metadata.pageName (metadata (doc d))
                         ++ js "]")
                        (context ragContext).
Proof.
  unfold getRelevantContext. rewrite run_bind.
  destruct (run_searchDocuments_cases c vectorStore query 5 w)
    as (r & w' & reqs & E & Hreqs & Hidle & Hres).
  rewrite E. destruct r as [e|searchResults].
  - exists (inl e), w', reqs. split; [reflexivity|]. split; [exact Hreqs|].
    split; [|discriminate].
    intros [Hi|Hd].
    + destruct (Hidle Hi) as [_ C]. discriminate.
    + unfold searchDocuments in E. rewrite Hd, orb_true_r in E. discriminate.
  - cbn [run]. fold (contextOf searchResults). rewrite app_nil_r.
    exists (inr (contextOf searchResults)), w', reqs.
    split; [reflexivity|]. split; [exact Hreqs|]. split.
    + intros H.
      assert (E0 : searchDocuments vectorStore query 5 = Return []).
      { unfold searchDocuments. destruct H as [Hi|Hd].
        - unfold isInitialized in Hi. now rewrite Hi.
        - now rewrite Hd, orb_true_r. }
      rewrite E0 in E. cbn in E. injection E as <- _ <-. auto.
    + intros ragContext Ec. injection Ec as <-.
      destruct (Hres searchResults eq_refl) as [Hlen Hall].
      destruct (contextOf_sources searchResults Hlen Hall) as (H1 & H2 & H3 & H4).
      repeat (split; [assumption|]).
      exists searchResults. split; [reflexivity|].
      intros d Hd. cbn [contextOf context]. unfold buildContext.
      destruct searchResults as [|d0 l]; [contradiction|]. cbn [length Nat.eqb].
      assert (Hp : substring
                     (js "[Source: " ++ Metadata.pageName (metadata (doc d))
                      ++ js "]" ++ [newline] ++ text (doc d))
                     (join ([newline; newline] ++ js "---" ++ [newline; newline])
                        (map (fun d => js "[Source: "
                                       ++ Metadata.pageName (metadata (doc d))
                                       ++ js "]" ++ [newline] ++ text (doc d))
                           (d0 :: l)))).
      { apply join_substring.
        apply (in_map (fun d => js "[Source: "
                                ++ Metadata.pageName (metadata (doc d))
                                ++ js "]" ++ [newline] ++ text (doc d))).
        exact Hd. }
      destruct Hp as (a & b & Hp). rewrite Hp. split.
      * exists (a ++ js "[Source: " ++ Metadata.pageName (metadata (doc d))
                ++ js "]" ++ [newline]), b.
        now rewrite <- !app_assoc.
      * exists a, ([newline] ++ text (doc d) ++ b).
        now rewrite <- !app_assoc.
Qed.

(** X11.  What [getAgentResponse] asks of the client.  Against every
    client it makes at most one embedding request, for the query and
    before any other request, and then at most two chat requests, for the
    query and the history; a second chat request carries no context.
    With a store that is not initialized it makes no embedding request and
    at most one chat request. *)
Theorem getAgentResponse_requests {W : Type} (c : Client W)
    (toLowerCase : jsstring -> jsstring) (questions : list QA.t)
    (vectorStore : VectorStore) (userQuery : jsstring)
    (conversationHistory : list Message) (w : W) :
  exists outcome w' asked contexts,
    run c (getAgentResponse toLowerCase questions vectorStore userQuery
             conversationHistory) w
    = (outcome, w',
       map embeddingRequest asked
       ++ map (chatRequest userQuery conversationHistory) contexts)
    /\ (asked = [] \/ asked = [userQuery])
    /\ (contexts = [] \/ contexts = [None]
        \/ exists ragContext,
             contexts = [Some ragContext]
             \/ contexts = [Some ragContext; None])
    /\ (isInitialized vectorStore = false ->
        asked = [] /\ (contexts = [] \/ contexts = [None])).
Proof.
  assert (Hlater :
    exists outcome w' asked contexts,
      run c (laterTiers vectorStore userQuery conversationHistory) w
      = (outcome, w',
         map embeddingRequest asked
         ++ map (chatRequest userQuery conversationHistory) contexts)
      /\ (asked = [] \/ asked = [userQuery])
      /\ (contexts = [] \/ contexts = [None]
          \/ exists ragContext,
               contexts = [Some ragContext]
               \/ contexts = [Some ragContext; None])
      /\ (isInitialized vectorStore = false ->
          asked = [] /\ (contexts = [] \/ contexts = [None]))).
  { rewrite run_laterTiers. destruct (isInitialized vectorStore) eqn:Ei.
    - rewrite run_ragTier.
      destruct (run_searchDocuments_cases c vectorStore userQuery 5 w)
        as (r & w1 & reqs & E & Hreqs & _ & _).
      rewrite E.
      assert (Hasked : exists asked,
                reqs = map embeddingRequest asked
                /\ (asked = [] \/ asked = [userQuery])).
      { destruct Hreqs as [-> | ->]; [exists [] | exists [userQuery]]; auto. }
      destruct Hasked as (asked & -> & Hasked).
      destruct r as [e|searchResults].
      + destruct (createChatCompletion c _ w1) as [r2 w2].
        exists (fallbackAnswer r2), w2, asked, [None].
        split; [reflexivity|]. split; [exact Hasked|].
        split; [auto | discriminate].
      + destruct (createChatCompletion c
                    (chatMessages userQuery conversationHistory
                       (Some (contextOf searchResults))) w1) as [[e|content] w2];
          cbn [ragAnswer].
        * destruct (createChatCompletion c
                      (chatMessages userQuery conversationHistory None) w2)
            as [r3 w3].
          exists (fallbackAnswer r3), w3, asked,
            [Some (contextOf searchResults); None].
          split; [now rewrite <- app_assoc|]. split; [exact Hasked|].
          split; [eauto 6 | discriminate].
        * eexists _, w2, asked, [Some (contextOf searchResults)].
          split; [reflexivity|]. split; [exact Hasked|].
          split; [eauto 6 | discriminate].
    - destruct (createChatCompletion c _ w) as [r2 w2].
      exists (fallbackAnswer r2), w2, [], [None].
      split; [reflexivity|]. split; [auto|]. split; auto. }
  unfold getAgentResponse.
  destruct (findBestMatch toLowerCase questions userQuery) as [e|[m|]];
    [|destruct (Qlt_bool (6 # 10) (Match.confidence m))|];
    try exact Hlater.
  - exists (inl e), w, [], []. cbn. repeat split; auto.
  - eexists _, w, [], []. cbn. repeat split; auto.
Qed.

Section ResponseShape.

Lemma fallbackAnswer_shape (r : Error + jsstring) (response : Response.t) :
  fallbackAnswer r = inr response ->
  Response.source response = js "openai"
  /\ Response.confidence response = None
  /\ Response.matchedQuestion response = None
  /\ Response.ragSources response = None.
Proof.
  destruct r as [e|content]; cbn; [discriminate|].
  intros E. injection E as <-. auto.
Qed.

End ResponseShape.

(** X12.  What [getAgentResponse] resolves to.  A response is tagged
    ['predefined'], ['rag'] or ['openai'].  Tagged ['predefined'], it is
    the match of [findBestMatch], of confidence above [0.6], and no request
    was made.  Tagged ['rag'], it has at least one and at most five
    sources, each of relevance above [0.3], and its confidence is the
    relevance of one of them, which none of them exceeds.  Tagged
    ['openai'], it has no confidence, and no source. *)
Theorem getAgentResponse_response {W : Type} (c : Client W)
    (toLowerCase : jsstring -> jsstring) (questions : list QA.t)
    (vectorStore : VectorStore) (userQuery : jsstring)
    (conversationHistory : list Message) (w : W) :
  exists outcome w' reqs,
    run c (getAgentResponse toLowerCase questions vectorStore userQuery
             conversationHistory) w
    = (outcome, w', reqs)
    /\ forall response, outcome = inr response ->
         (Response.source response = js "predefined"
          /\ reqs = []
          /\ exists m,
               findBestMatch toLowerCase questions userQuery = inr (Some m)
               /\ (6 # 10 < Match.confidence m)%Q
               /\ Response.answer response = Match.answer m
               /\ Response.confidence response
                  = Some (ratio (Match.confidence m))
               /\ Response.matchedQuestion response
                  = Some (Match.matchedQuestion m)
               /\ Response.ragSources response = None)
         \/ (Response.source response = js "rag"
             /\ Response.matchedQuestion response = None
             /\ exists ragSources relevance,
                  Response.ragSources response = Some ragSources
                  /\ 1 <= length ragSources <= 5
                  /\ Forall (fun s => (0.3 <? Source.relevanceScore s)%float = true)
                       ragSources
                  /\ Response.confidence response = Some (double relevance)
                  /\ In relevance (map Source.relevanceScore ragSources)
                  /\ Forall (fun s =>
                               (Source.relevanceScore s <=? relevance)%float = true)
                       ragSources)
         \/ (Response.source response = js "openai"
             /\ Response.confidence response = None
             /\ Response.matchedQuestion response = None
             /\ (Response.ragSources response = None
                 \/ Response.ragSources response = Some [])).
Proof.
  assert (Hlater :
    exists outcome w' reqs,
      run c (laterTiers vectorStore userQuery conversationHistory) w
      = (outcome, w', reqs)
      /\ forall response, outcome = inr response ->
           (Response.source response = js "rag"
            /\ Response.matchedQuestion response = None
            /\ exists ragSources relevance,
                 Response.ragSources response = Some ragSources
                 /\ 1 <= length ragSources <= 5
                 /\ Forall (fun s => (0.3 <? Source.relevanceScore s)%float = true)
                      ragSources
                 /\ Response.confidence response = Some (double relevance)
                 /\ In relevance (map Source.relevanceScore ragSources)
                 /\ Forall (fun s =>
                              (Source.relevanceScore s <=? relevance)%float = true)
                      ragSources)
           \/ (Response.source response = js "openai"
               /\ Response.confidence response = None
               /\ Response.matchedQuestion response = None
               /\ (Response.ragSources response = None
                   \/ Response.ragSources response = Some []))).
  { rewrite run_laterTiers. destruct (isInitialized vectorStore).
    - rewrite run_ragTier.
      destruct (run_searchDocuments_cases c vectorStore userQuery 5 w)
        as (r & w1 & reqs & E & _ & _ & Hres).
      rewrite E. destruct r as [e|searchResults].
      + destruct (createChatCompletion c _ w1) as [r2 w2].
        eexists _, _, _. split; [reflexivity|].
        intros response Er. right.
        destruct (fallbackAnswer_shape r2 response Er) as (H1 & H2 & H3 & H4).
        auto.
      + destruct (Hres searchResults eq_refl) as [Hlen Hall].
        destruct (contextOf_sources searchResults Hlen Hall)
          as (S1 & S2 & S3 & S4).
        generalize dependent (contextOf searchResults).
        intros ragContext S1 S2 S3 S4.
        destruct (createChatCompletion c
                    (chatMessages userQuery conversationHistory
                       (Some ragContext)) w1) as [[e|content] w2];
          cbn [ragAnswer].
        * destruct (createChatCompletion c
                      (chatMessages userQuery conversationHistory None) w2)
            as [r3 w3].
          eexists _, _, _. split; [reflexivity|].
          intros response Er. right.
          destruct (fallbackAnswer_shape r3 response Er) as (H1 & H2 & H3 & H4).
          auto.
        * eexists _, _, _. split; [reflexivity|].
          intros response Er. injection Er as <-.
          cbn [Response.source Response.confidence Response.matchedQuestion
               Response.ragSources Response.answer].
          destruct (hasContext (ragContext)) eqn:Eh.
          -- left. split; [reflexivity|]. split; [reflexivity|].
             assert (Hne : sources (ragContext) <> [])
               by now apply S3.
             assert (Hscores : map Source.relevanceScore
                                 (sources (ragContext)) <> []).
             { intros C. apply map_eq_nil in C. contradiction. }
             destruct (mathMax_scores _ Hscores) as (M1 & M2 & M3).
             { apply Forall_map. exact S2. }
             eexists _, _. split; [reflexivity|]. split.
             { split; [|exact S1].
               destruct (sources (ragContext));
                 [contradiction | cbn; lia]. }
             split; [exact S2|]. split; [reflexivity|]. split; [exact M2|].
             now apply Forall_map in M3.
          -- right. split; [reflexivity|]. split; [reflexivity|].
             split; [reflexivity|]. right.
             destruct (sources ragContext) eqn:Es; [reflexivity|].
             exfalso. assert (H : false = true) by (apply S3; discriminate).
             discriminate.
    - destruct (createChatCompletion c _ w) as [r2 w2].
      eexists _, _, _. split; [reflexivity|].
      intros response Er. right.
      destruct (fallbackAnswer_shape r2 response Er) as (H1 & H2 & H3 & H4).
      auto. }
  unfold getAgentResponse.
  destruct (findBestMatch toLowerCase questions userQuery) as [e|[m|]] eqn:Ef;
    [|destruct (Qlt_bool (6 # 10) (Match.confidence m)) eqn:Elt|].
  - exists (inl e), w, []. split; [reflexivity | discriminate].
  - eexists _, w, []. split; [reflexivity|].
    intros response Er. injection Er as <-. left. cbn.
    split; [reflexivity|]. split; [reflexivity|].
    exists m. split; [reflexivity|]. split; [now apply Qlt_bool_iff|].
    auto.
  - destruct Hlater as (outcome & w' & reqs & E & H).
    exists outcome, w', reqs. split; [exact E|].
    intros response Er. right. now apply H.
  - destruct Hlater as (outcome & w' & reqs & E & H).
    exists outcome, w', reqs. split; [exact E|].
    intros response Er. right. now apply H.
Qed.

(** ** initializeKnowledgeBase, further *)

Section KnowledgeBaseFacts.

(** In every state the service reaches: the calls that wait, wait for the
    round in flight, which the last call of [performInitialization] made;
    with no round in flight no call waits; and every call made so far
    waits or is settled. *)
Lemma after_accounted (events : list Event) :
  length (waiting (after events)) + length (settled (after events))
     = length (callsOf events)
  /\ match initializationPromise (after events) with
     | Some p =>
         waiting (after events) <> []
         /\ Forall (fun x => snd x = p) (waiting (after events))
         /\ performed (after events) = S p
     | None => waiting (after events) = []
     end.
Proof.
  induction events as [|ev events IH] using rev_ind.
  - cbn. auto.
  - rewrite after_snoc. unfold callsOf. rewrite flat_map_app, length_app.
    fold (callsOf events). set (s := after events) in *.
    destruct IH as [Hcount Hwait].
    destruct ev as [caller force | r]; cbn [step flat_map app length].
    + unfold call.
      destruct (isInitialized (vectorStore s) && negb force).
      * cbn. rewrite length_app. cbn. split; [lia | exact Hwait].
      * destruct (initializationPromise s) as [p|] eqn:Ep; cbn.
        -- rewrite length_app. cbn. split; [lia|].
           destruct Hwait as (Hne & Hall & Hp). split; [|split].
           ++ intros C. apply app_eq_nil in C. destruct C; discriminate.
           ++ apply Forall_app. split; [exact Hall | now constructor].
           ++ exact Hp.
        -- rewrite Hwait. cbn. split; [rewrite Hwait in Hcount; cbn in *; lia|].
           split; [discriminate|]. split; [now constructor | reflexivity].
    + unfold finish. destruct (initializationPromise s) as [p|] eqn:Ep.
      * destruct Hwait as (Hne & Hall & Hp). cbn.
        assert (Hkeep : filter (fun w => snd w =? p) (waiting s) = waiting s).
        { apply forallb_filter_id, forallb_forall. intros x Hx.
          rewrite Forall_forall in Hall. apply Nat.eqb_eq. now apply Hall. }
        assert (Hdrop : filter (fun w => negb (snd w =? p)) (waiting s) = []).
        { pose proof (filter_split_length (fun w => snd w =? p) (waiting s)) as H.
          rewrite Hkeep in H.
          apply length_zero_iff_nil. lia. }
        rewrite Hkeep, Hdrop, length_app, length_map.
        cbn [length]. unfold Promise in *. split; [lia | reflexivity].
      * rewrite Ep. split; [cbn; lia | exact Hwait].
Qed.


Lemma callAll_initialized (callers : list nat) (s : State) :
  isInitialized (vectorStore s) = true ->
  vectorStore (callAll callers s) = vectorStore s
  /\ performed (callAll callers s) = performed s
  /\ initializationPromise (callAll callers s) = initializationPromise s
  /\ initializationError (callAll callers s) = initializationError s
  /\ waiting (callAll callers s) = waiting s
  /\ settled (callAll callers s)
     = settled s
       ++ map (fun caller =>
                 (caller, Fulfilled (AlreadyInitialized (getStatus (vectorStore s)))))
            callers.
Proof.
  intros Hi. unfold callAll. revert s Hi.
  induction callers as [|caller l IH]; intros s Hi; cbn [fold_left map].
  - rewrite app_nil_r. repeat split.
  - assert (E : call caller false s
                = {| vectorStore := vectorStore s;
                     initializationPromise := initializationPromise s;
                     initializationError := initializationError s;
                     performed := performed s;
                     waiting := waiting s;
                     settled := settled s
                       ++ [(caller, Fulfilled (AlreadyInitialized
                                                 (getStatus (vectorStore s))))] |}).
    { unfold call. now rewrite Hi. }
    destruct (IH (call caller false s)) as (H1 & H2 & H3 & H4 & H5 & H6).
    { now rewrite E. }
    rewrite H1, H2, H3, H4, H5, H6, E.
    cbn [vectorStore performed initializationPromise initializationError
         waiting settled].
    rewrite <- app_assoc. repeat split.
Qed.

End KnowledgeBaseFacts.

(** X13.  No call of [initializeKnowledgeBase] is lost.  In every state
    the service reaches, every call made so far waits for the round in
    flight or is settled; the calls that wait all wait for the one round
    in flight, and none waits when no round is in flight. *)
Theorem initializeKnowledgeBase_accounted (events : list Event) :
  length (waiting (after events)) + length (settled (after events))
  = length (callsOf events)
  /\ match initializationPromise (after events) with
     | Some p =>
         waiting (after events) <> []
         /\ Forall (fun x => snd x = p) (waiting (after events))
         /\ performed (after events) = S p
     | None => waiting (after events) = []
     end.
Proof. apply after_accounted. Qed.

(** X14.  After a round that scraped a page.  The knowledge base is
    ready, its status shows the documents ingested and no error, and no
    initialization in progress; from then on the calls
    [initializeKnowledgeBase()] start no round and wait for nothing: each
    is answered at once with the status of the store, which they leave as
    it is. *)
Theorem initializeKnowledgeBase_idempotent (events : list Event)
    (p : Promise) (r : Round) (callers : list nat) :
  initializationPromise (after events) = Some p ->
  scrapedContent r <> [] ->
  getKnowledgeBaseStatus (finish r (after events))
  = {| kb_initialized := true;
       kb_documentCount := length (ingestedDocuments r);
       kb_lastUpdated := Some (ingestedAt (ingestionResult r));
       kb_error := None;
       isInitializing := false |}
  /\ waiting (finish r (after events)) = []
  /\ performed (callAll callers (finish r (after events)))
     = performed (after events)
  /\ vectorStore (callAll callers (finish r (after events)))
     = vectorStore (finish r (after events))
  /\ initializationPromise (callAll callers (finish r (after events))) = None
  /\ waiting (callAll callers (finish r (after events))) = []
  /\ forall caller, In caller callers ->
       In (caller,
           Fulfilled (AlreadyInitialized
                        {| status_initialized := true;
                           documentCount := length (ingestedDocuments r);
                           status_lastUpdated :=
                             Some (ingestedAt (ingestionResult r)) |}))
          (settled (callAll callers (finish r (after events)))).
Proof.
  intros Hp Hr.
  pose proof (after_accounted (events ++ [Finish r])) as [_ Hidle].
  rewrite after_snoc in Hidle. cbn [step] in Hidle.
  set (s := after events) in *.
  assert (Hend : performInitializationEnd r
                 = Fulfilled (InitializedNow (elapsed r) (length (scrapedContent r))
                                (map Page.pageName (scrapedContent r))
                                (ingestionResult r))).
  { unfold performInitializationEnd.
    destruct (scrapedContent r); [contradiction | reflexivity]. }
  assert (Hstore : vectorStore (finish r s)
                   = {| documents := ingestedDocuments r;
                        embeddings := ingestedEmbeddings r;
                        initialized := true;
                        lastUpdated := Some (ingestedAt (ingestionResult r)) |}).
  { unfold finish. rewrite Hp, Hend. reflexivity. }
  assert (Hq : initializationPromise (finish r s) = None).
  { unfold finish. now rewrite Hp. }
  assert (He : initializationError (finish r s) = None).
  { unfold finish. now rewrite Hp, Hend. }
  assert (Hn : performed (finish r s) = performed s).
  { unfold finish. now rewrite Hp. }
  rewrite Hq in Hidle.
  destruct (callAll_initialized callers (finish r s))
    as (H1 & H2 & H3 & H4 & H5 & H6); [now rewrite Hstore|].
  split; [|split; [exact Hidle|]].
  - unfold getKnowledgeBaseStatus. now rewrite Hstore, Hq, He.
  - rewrite H1, H2, H3, H5, H6, Hstore. repeat split; try assumption.
    intros caller Hc. apply in_or_app. right.
    apply (in_map (fun caller =>
                     (caller, Fulfilled (AlreadyInitialized
                        (getStatus {| documents := ingestedDocuments r;
                                      embeddings := ingestedEmbeddings r;
                                      initialized := true;
                                      lastUpdated :=
                                        Some (ingestedAt (ingestionResult r)) |}))))
             callers caller Hc).
Qed.

Lemma initializeKnowledgeBase_idempotent_witness :
  getKnowledgeBaseStatus (finish exampleRound (after [Call 1 false]))
  = {| kb_initialized := true;
       kb_documentCount := 2;
       kb_lastUpdated := Some (js "2024-01-01T00:00:00.000Z");
       kb_error := None;
       isInitializing := false |}
  /\ performed (callAll [2; 3] (finish exampleRound (after [Call 1 false]))) = 1
  /\ initializationPromise
       (callAll [2; 3] (finish exampleRound (after [Call 1 false]))) = None.
Proof.
  destruct (initializeKnowledgeBase_idempotent [Call 1 false] 0 exampleRound
              [2; 3] eq_refl ltac:(discriminate))
    as (H1 & _ & H3 & _ & H5 & _).
  split; [exact H1|]. split; [exact H3 | exact H5].
Defined.

(** X15.  After a round that scraped no page.  Every call that waited is
    rejected with the error of the round, which the status records; the
    knowledge base is not ready, also when it was before a refresh, which
    has cleared it; and the next call, forced or not, starts a new
    round. *)
Theorem initializeKnowledgeBase_failure (events : list Event)
    (p : Promise) (r : Round) (caller : nat) (force : bool) :
  initializationPromise (after events) = Some p ->
  scrapedContent r = [] ->
  (forall waiter, In waiter (map fst (waiting (after events))) ->
     In (waiter,
         Rejected (mkError "No content was scraped from thoughtful.ai"))
        (settled (finish r (after events))))
  /\ kb_error (getKnowledgeBaseStatus (finish r (after events)))
     = Some "No content was scraped from thoughtful.ai"%string
  /\ kb_initialized (getKnowledgeBaseStatus (finish r (after events))) = false
  /\ isInitializing (getKnowledgeBaseStatus (finish r (after events))) = false
  /\ performed (call caller force (finish r (after events)))
     = S (performed (after events))
  /\ initializationPromise (call caller force (finish r (after events)))
     = Some (performed (after events))
  /\ In (caller, performed (after events))
       (waiting (call caller force (finish r (after events)))).
Proof.
  intros Hp Hr.
  pose proof (in_flight_uninitialized events p Hp) as Hi.
  pose proof (after_accounted events) as [_ Hwait]. rewrite Hp in Hwait.
  destruct Hwait as (_ & Hall & _).
  set (s := after events) in *.
  assert (Hend : performInitializationEnd r
                 = Rejected (mkError "No content was scraped from thoughtful.ai")).
  { unfold performInitializationEnd. now rewrite Hr. }
  assert (Hf : finish r s
               = {| vectorStore := vectorStore s;
                    initializationPromise := None;
                    initializationError :=
                      Some (mkError "No content was scraped from thoughtful.ai");
                    performed := performed s;
                    waiting := filter (fun w => negb (snd w =? p)) (waiting s);
                    settled :=
                      settled s
                      ++ map (fun w => (fst w,
                                Rejected (mkError "No content was scraped from thoughtful.ai")))
                           (filter (fun w => snd w =? p) (waiting s)) |}).
  { unfold finish. now rewrite Hp, Hend. }
  split.
  - intros waiter Hw. apply in_map_iff in Hw. destruct Hw as ([c q] & <- & Hw).
    rewrite <- Hend. apply finish_settles with p; [exact Hp|].
    rewrite Forall_forall in Hall. specialize (Hall _ Hw). cbn in Hall.
    now subst q.
  - rewrite Hf. unfold getKnowledgeBaseStatus, call.
    cbn [vectorStore initializationPromise initializationError performed
         waiting settled].
    rewrite Hi. cbn [andb]. unfold getStatus, isInitialized in *. rewrite Hi.
    cbn. repeat split. apply in_or_app. right. now left.
Qed.

Lemma initializeKnowledgeBase_failure_witness :
  kb_error (getKnowledgeBaseStatus
              (finish {| scrapedContent := [];
                         ingestedDocuments := [];
                         ingestedEmbeddings := [];
                         ingestionResult := ingestionResult exampleRound;
                         elapsed := 10 |}
                 (after [Call 1 true])))
  = Some "No content was scraped from thoughtful.ai"%string
  /\ performed
       (call 2 false
          (finish {| scrapedContent := [];
                     ingestedDocuments := [];
                     ingestedEmbeddings := [];
                     ingestionResult := ingestionResult exampleRound;
                     elapsed := 10 |}
             (after [Call 1 true]))) = 2.
Proof.
  destruct (initializeKnowledgeBase_failure [Call 1 true] 0
              {| scrapedContent := [];
                 ingestedDocuments := [];
                 ingestedEmbeddings := [];
                 ingestionResult := ingestionResult exampleRound;
                 elapsed := 10 |} 2 false eq_refl eq_refl)
    as (_ & H2 & _ & _ & H5 & _).
  split; [exact H2 | exact H5].
Defined.

(** ** The chat endpoint *)

Section ChatFacts.

Lemma blank_message (text : jsstring) :
  negb (truthy text) || negb (truthy (trim text)) = negb (truthy (trim text)).
Proof. destruct text as [|x t]; [reflexivity|]. reflexivity. Qed.

End ChatFacts.

(** X16.  The handler of [POST /api/chat] always answers, with one of four
    statuses.  503 with the status of the knowledge base when the store is
    not initialized, and 400 when the store is initialized and the message
    is not a string or is blank: in both cases nothing is asked of the
    OpenAI client.  Otherwise [getAgentResponse] runs once, on the trimmed
    message: 200 with its response, or 500 with a fixed body, which shows
    nothing of the error, when it is rejected. *)
Theorem postChat_responds {W : Type} (c : Client W)
    (toLowerCase : jsstring -> jsstring) (questions : list QA.t)
    (s : State) (message : Field) (conversationHistory : list Message) (w : W) :
  exists status reply w' reqs,
    run c (postChat toLowerCase questions s message conversationHistory) w
    = (inr (status, reply), w', reqs)
    /\ ((status = 503
         /\ isInitialized (vectorStore s) = false
         /\ reply = Unavailable (js "Service Unavailable")
                      (js "Knowledge base is still initializing. Please try again in a moment.")
                      (getKnowledgeBaseStatus s)
         /\ reqs = [] /\ w' = w)
        \/ (status = 400
            /\ isInitialized (vectorStore s) = true
            /\ (forall text, message = AString text -> trim text = [])
            /\ reply = Refused (js "Invalid input")
                         (js "Please provide a valid message")
            /\ reqs = [] /\ w' = w)
        \/ (exists text outcome,
              message = AString text
              /\ trim text <> []
              /\ isInitialized (vectorStore s) = true
              /\ run c (getAgentResponse toLowerCase questions (vectorStore s)
                          (trim text) conversationHistory) w
                 = (outcome, w', reqs)
              /\ match outcome with
                 | inr response =>
                     status = 200 /\ reply = Answered true response
                 | inl _ =>
                     status = 500
                     /\ reply = Refused (js "Internal server error")
                                  (js "Failed to process your request. Please try again.")
                 end)).
Proof.
  unfold postChat. rewrite run_tryCatch.
  destruct (isInitialized (vectorStore s)) eqn:Ei; cbn [negb].
  2:{ cbn [run]. eexists _, _, _, _. split; [reflexivity|].
      left. repeat split. }
  destruct message as [|text].
  { cbn [run]. eexists _, _, _, _. split; [reflexivity|].
    right. left. repeat split. discriminate. }
  rewrite blank_message.
  destruct (trim text) as [|x t] eqn:Et; cbn [truthy negb].
  { cbn [run]. eexists _, _, _, _. split; [reflexivity|].
    right. left. repeat split. intros text' E. injection E as <-. exact Et. }
  rewrite run_bind.
  destruct (run c (getAgentResponse toLowerCase questions (vectorStore s)
                     (x :: t) conversationHistory) w)
    as [[[e|response] w1] reqs] eqn:Er.
  - cbn [run]. eexists _, _, _, _. split; [reflexivity|].
    right. right. exists text, (inl e). rewrite Et, app_nil_r.
    repeat split; [discriminate | exact Er].
  - cbn [run]. eexists _, _, _, _. split; [reflexivity|].
    right. right. exists text, (inr response). rewrite Et, app_nil_r.
    repeat split; [discriminate | exact Er].
Qed.

(** X17.  While a round of initialization is in flight, the first one or
    one a refresh has started on a knowledge base that was ready, the chat
    endpoint answers every request with 503 and a status that shows the
    initialization in progress, and asks nothing of the OpenAI client. *)
Theorem postChat_while_initializing {W : Type} (c : Client W)
    (toLowerCase : jsstring -> jsstring) (questions : list QA.t)
    (events : list Event) (p : Promise)
    (message : Field) (conversationHistory : list Message) (w : W) :
  initializationPromise (after events) = Some p ->
  exists status,
    run c (postChat toLowerCase questions (after events) message
             conversationHistory) w
    = (inr (503,
            Unavailable (js "Service Unavailable")
              (js "Knowledge base is still initializing. Please try again in a moment.")
              status), w, [])
    /\ status = getKnowledgeBaseStatus (after events)
    /\ isInitializing status = true
    /\ kb_initialized status = false.
Proof.
  intros Hp. pose proof (in_flight_uninitialized events p Hp) as Hi.
  exists (getKnowledgeBaseStatus (after events)).
  unfold postChat. rewrite run_tryCatch, Hi. cbn [negb run].
  split; [reflexivity|]. split; [reflexivity|].
  unfold getKnowledgeBaseStatus. cbn. rewrite Hp.
  unfold isInitialized in Hi. now rewrite Hi.
Qed.

(** A refresh of a knowledge base that was ready: the question that was
    answered before is refused until the round ends. *)
Lemma postChat_while_initializing_witness :
  exists status,
    run steadyClient
      (postChat toLowerCaseASCII exampleCatalog
         (after [Call 1 false; Finish exampleRound; Call 2 true])
         (AString (js "What does EVA do?")) []) tt
    = (inr (503,
            Unavailable (js "Service Unavailable")
              (js "Knowledge base is still initializing. Please try again in a moment.")
              status), tt, [])
    /\ status = getKnowledgeBaseStatus
                  (after [Call 1 false; Finish exampleRound; Call 2 true])
    /\ isInitializing status = true
    /\ kb_initialized status = false.
Proof.
  apply (postChat_while_initializing steadyClient toLowerCaseASCII exampleCatalog
           [Call 1 false; Finish exampleRound; Call 2 true] 1).
  reflexivity.
Defined.

(** ** extractTextFromHtml, continued *)

Section ExtractorFacts.

Variable toLowerCase : jsstring -> jsstring.


Lemma trim_trim (s : jsstring) : trim (trim s) = trim s.
Proof.
  destruct (trim s) as [|x t] eqn:E; [reflexivity|].
  assert (Hne : x :: t <> []) by discriminate.
  destruct (nonempty_ends _ Hne) as (_ & (t2 & y & E2)).
  pose proof (trim_around [] [] (x :: t) x t t2 y eq_refl E2) as T.
  cbn [dropWhile rev app] in T. rewrite app_nil_r in T. rewrite T.
  - reflexivity.
  - exact (trim_first _ _ _ E).
  - rewrite E2 in E. exact (trim_last _ _ _ E).
Qed.

Lemma spaced_app (a b : list jsstring) : spaced (a ++ b) = spaced a ++ spaced b.
Proof. unfold spaced. apply flat_map_app. Qed.

Lemma contentTags_not_skipped (tag : jsstring) :
  arrayIncludes contentTags tag = true -> arrayIncludes tagsToSkip tag = false.
Proof.
  intros H. apply arrayIncludes_In in H. unfold contentTags in H.
  cbn [In] in H.
  repeat (destruct H as [<-|H]; [reflexivity|]). contradiction.
Qed.

(** A run of texts. *)
Lemma handle_texts (texts : list jsstring) (x : Extractor) :
  fold_left (handle toLowerCase) (map Text texts) x
  = if negb (skipContent x) && arrayIncludes contentTags (currentTag x) then
      {| textParts := textParts x;
         currentTag := currentTag x;
         skipContent := skipContent x;
         currentText := currentText x ++ spaced texts |}
    else x.
Proof.
  revert x. induction texts as [|t texts IH]; intros x; cbn [map fold_left].
  - unfold spaced. cbn [flat_map]. rewrite app_nil_r.
    destruct x; cbn. now destruct (negb _ && _).
  - rewrite IH. cbn [handle].
    unfold ontext.
    destruct (negb (skipContent x) && arrayIncludes contentTags (currentTag x))
      eqn:C; [|now rewrite C].
    change (spaced (t :: texts))
      with ((if truthy (trim t) then trim t ++ [space] else []) ++ spaced texts).
    destruct (truthy (trim t)); cbn [skipContent currentTag textParts currentText].
    + rewrite C. now rewrite <- !app_assoc.
    + now rewrite C.
Qed.

(** The parts only grow. *)
Lemma handle_keeps (x : Extractor) (ev : ParserEvent) (part : jsstring) :
  In part (textParts x) -> In part (textParts (handle toLowerCase x ev)).
Proof.
  intros H. destruct ev as [name|text|tagname]; cbn.
  - exact H.
  - unfold ontext. destruct (negb _ && _); [|exact H].
    now destruct (truthy (trim text)).
  - destruct (truthy _ && _); [|exact H]. apply in_or_app. now left.
Qed.

Lemma handle_all_keep (events : list ParserEvent) (x : Extractor)
    (part : jsstring) :
  In part (textParts x) -> In part (textParts (fold_left (handle toLowerCase) events x)).
Proof.
  revert x. induction events as [|ev events IH]; intros x H; [exact H|].
  cbn [fold_left]. apply IH. now apply handle_keeps.
Qed.

Lemma elementText_snoc (events : list ParserEvent) (ev : ParserEvent)
    (part : jsstring) :
  elementText toLowerCase events part ->
  elementText toLowerCase (events ++ [ev]) part.
Proof.
  intros (before & name & texts & tagname & rest & E & H).
  exists before, name, texts, tagname, (rest ++ [ev]). split; [|exact H].
  rewrite E. rewrite <- !app_assoc. cbn [app]. f_equal. f_equal.
  rewrite <- !app_assoc. reflexivity.
Qed.

(** The flag [skipContent] says whether the last of the tags to skip is an
    open tag. *)
Lemma skipContent_skipping (events : list ParserEvent) :
  skipContent (extractor toLowerCase events) = skipping toLowerCase events.
Proof.
  induction events as [|ev events IH] using rev_ind; [reflexivity|].
  unfold extractor, skipping in *. rewrite fold_left_app, rev_app_distr.
  cbn [fold_left rev app find].
  destruct ev as [name|text|tagname]; cbn [handle skippedTag].
  - cbn [onopentag skipContent].
    destruct (arrayIncludes tagsToSkip (toLowerCase name)); [reflexivity | exact IH].
  - unfold ontext.
    destruct (negb _ && arrayIncludes contentTags _); [|exact IH].
    destruct (truthy (trim text)); exact IH.
  - cbn [onclosetag skipContent].
    destruct (arrayIncludes tagsToSkip (toLowerCase tagname)); [reflexivity | exact IH].
Qed.

(** What the callbacks have seen when they have seen [events]: no element
    is open, or the last tag is an open tag and texts follow it. *)
Lemma extractor_invariant (events : list ParserEvent) :
  (forall part, In part (textParts (extractor toLowerCase events)) ->
     elementText toLowerCase events part)
  /\ ((currentTag (extractor toLowerCase events) = [] /\ currentText (extractor toLowerCase events) = [])
      \/ exists before name texts,
           events = before ++ OpenTag name :: map Text texts
           /\ currentTag (extractor toLowerCase events) = toLowerCase name
           /\ skipContent (extractor toLowerCase events)
              = (if arrayIncludes tagsToSkip (toLowerCase name) then true
                 else skipContent (extractor toLowerCase before))
           /\ currentText (extractor toLowerCase events)
              = if negb (skipContent (extractor toLowerCase events))
                   && arrayIncludes contentTags (currentTag (extractor toLowerCase events))
                then spaced texts else []).
Proof.
  induction events as [|ev events IH] using rev_ind.
  - split; [intros part []|]. left. split; reflexivity.
  - destruct IH as [Hparts Hopen].
    assert (Estep : extractor toLowerCase (events ++ [ev]) = handle toLowerCase (extractor toLowerCase events) ev).
    { unfold extractor. now rewrite fold_left_app. }
    rewrite Estep. set (x := extractor toLowerCase events) in *.
    destruct ev as [name|text|tagname].
    + split.
      * intros part Hp. apply elementText_snoc. now apply Hparts.
      * right. exists events, name, [].
        cbn [handle onopentag currentTag skipContent currentText map].
        split; [reflexivity|]. split; [reflexivity|]. split; [reflexivity|].
        match goal with |- _ = if ?c then _ else _ => destruct c end;
          reflexivity.
    + split.
      * intros part Hp. apply elementText_snoc. apply Hparts.
        revert Hp. cbn [handle]. unfold ontext.
        destruct (negb (skipContent x) && arrayIncludes contentTags (currentTag x));
          [|auto].
        now destruct (truthy (trim text)).
      * destruct Hopen as [[Ht Hc] | (before & name & texts & E & Ht & Hs & Hc)].
        -- left. cbn [handle]. unfold ontext. rewrite Ht.
           replace (arrayIncludes contentTags []) with false by reflexivity.
           rewrite andb_false_r. now split.
        -- right. exists before, name, (texts ++ [text]).
           split; [rewrite E, map_app, <- app_assoc; reflexivity|].
           cbn [handle]. unfold ontext.
           destruct (negb (skipContent x) && arrayIncludes contentTags (currentTag x))
             eqn:C.
           ++ rewrite spaced_app. unfold spaced at 2.
              cbn [flat_map]. rewrite app_nil_r.
              destruct (truthy (trim text));
                cbn [currentTag skipContent currentText]; rewrite ?C.
              ** repeat split; try assumption. now rewrite Hc.
              ** repeat split; try assumption. now rewrite app_nil_r.
           ++ rewrite C. repeat split; assumption.
    + split.
      * intros part Hp. cbn [handle onclosetag textParts] in Hp.
        destruct (truthy (trim (currentText x))
                  && ((if arrayIncludes [js "h1"; js "h2"; js "h3"; js "h4"]
                            (toLowerCase tagname) then 3 else 10)
                      <=? length (trim (currentText x)))) eqn:C.
        2:{ apply elementText_snoc. now apply Hparts. }
        apply in_app_or in Hp. destruct Hp as [Hp | [<- | []]].
        { apply elementText_snoc. now apply Hparts. }
        apply andb_prop in C. destruct C as [C1 C2].
        apply Nat.leb_le in C2.
        destruct Hopen as [[Ht Hc] | (before & name & texts & E & Ht & Hs & Hc)].
        { rewrite Hc in C1. discriminate. }
        destruct (negb (skipContent x) && arrayIncludes contentTags (currentTag x))
          eqn:C; [|rewrite Hc in C1; discriminate].
        apply andb_prop in C. destruct C as [Cs Cc].
        apply negb_true_iff in Cs. rewrite Ht in Cc.
        exists before, name, texts, tagname, [].
        split; [rewrite E, <- app_assoc; reflexivity|].
        rewrite Hc in *. repeat split; try assumption.
        rewrite <- skipContent_skipping.
        rewrite Cs, (contentTags_not_skipped _ Cc) in Hs. now symmetry.
      * left. cbn [handle onclosetag currentTag currentText]. now split.
Qed.

(** An element text is pushed when its end tag is read. *)
Lemma elementText_pushed (events : list ParserEvent) (part : jsstring) :
  elementText toLowerCase events part -> In part (textParts (extractor toLowerCase events)).
Proof.
  intros (before & name & texts & tagname & rest & E & Hs & Hc & Hp & Hlen).
  rewrite <- skipContent_skipping in Hs.
  unfold extractor. rewrite E, fold_left_app. cbn [fold_left].
  rewrite fold_left_app. cbn [fold_left]. apply handle_all_keep.
  rewrite handle_texts.
  fold (extractor toLowerCase before). set (x0 := extractor toLowerCase before) in *.
  cbn [handle onopentag skipContent currentTag].
  rewrite (contentTags_not_skipped _ Hc), Hs, Hc. cbn [negb andb].
  cbn [handle onclosetag textParts currentText app].
  change (currentText (onopentag toLowerCase name x0)) with (@nil char).
  cbn [app]. rewrite <- Hp.
  assert (T : truthy part = true).
  { destruct part; [|reflexivity].
    destruct (arrayIncludes _ (toLowerCase tagname)); cbn in Hlen; lia. }
  rewrite T. apply Nat.leb_le in Hlen. rewrite Hlen. cbn [andb].
  apply in_or_app. right. now left.
Qed.

End ExtractorFacts.

(** X18.  What [extractTextFromHtml] returns is its parts joined by blank
    lines, and the parts are the texts of the elements of the markup, each
    once.  A part is what the texts between the opening of a content tag
    and the next end tag, with no tag in between, come to, when the last
    of the tags to skip read before that opening, if there is one, is an
    end tag (which is so also inside an element to skip that is still
    open, once an element to skip inside it has ended), provided the part
    has three characters at the end of a heading and ten at another end
    tag.  A part has no whitespace at its ends. *)
Theorem extractTextFromHtml_parts (toLowerCase : jsstring -> jsstring)
    (events : list ParserEvent) :
  exists parts,
    extractTextFromHtml toLowerCase events = join [newline; newline] parts
    /\ NoDup parts
    /\ (forall part,
          In part parts <-> elementText toLowerCase events part)
    /\ (forall part, In part parts -> trim part = part /\ 3 <= length part).
Proof.
  exists (setOf (textParts (extractor toLowerCase events))).
  split; [reflexivity|]. split; [apply setOf_NoDup|].
  assert (Hiff : forall part,
            In part (setOf (textParts (extractor toLowerCase events)))
            <-> elementText toLowerCase events part).
  { intros part. rewrite setOf_In. split.
    - apply (proj1 (extractor_invariant toLowerCase events)).
    - apply elementText_pushed. }
  split; [exact Hiff|].
  intros part Hp. apply Hiff in Hp.
  destruct Hp as (before & name & texts & tagname & rest & _ & _ & _ & -> & Hlen).
  split; [apply trim_trim|].
  destruct (arrayIncludes _ (toLowerCase tagname)); lia.
Qed.

(** In [scriptInsideNavigation] the last tag to skip before the paragraph
    is the end of the script: the paragraph is a part, though the
    navigation around it is still open. *)
Example elementText_inside_navigation :
  skipping toLowerCaseASCII (firstn 4 scriptInsideNavigation) = false
  /\ elementText toLowerCaseASCII scriptInsideNavigation
       (js "Hidden navigation text").
Proof.
  split; [reflexivity|].
  exists (firstn 4 scriptInsideNavigation), (js "p"),
    [js "Hidden navigation text"], (js "p"), [CloseTag (js "nav")].
  repeat split.
  apply Nat.leb_le. vm_compute. reflexivity.
Qed.

(** X19.  The text of an element that comes before a child element, or
    after one, is not extracted: a text that follows an end tag is
    ignored, whatever element is still open, and a text is forgotten when
    a tag opens after it. *)
Theorem extractTextFromHtml_around_children (toLowerCase : jsstring -> jsstring)
    (events rest : list ParserEvent) (text name : jsstring) :
  extractTextFromHtml toLowerCase (events ++ CloseTag name :: Text text :: rest)
  = extractTextFromHtml toLowerCase (events ++ CloseTag name :: rest)
  /\ extractTextFromHtml toLowerCase (events ++ Text text :: OpenTag name :: rest)
     = extractTextFromHtml toLowerCase (events ++ OpenTag name :: rest).
Proof.
  unfold extractTextFromHtml. rewrite !fold_left_app. cbn [fold_left].
  set (x := fold_left (handle toLowerCase) events start).
  assert (E1 : handle toLowerCase (handle toLowerCase x (CloseTag name)) (Text text)
               = handle toLowerCase x (CloseTag name)).
  { cbn [handle]. unfold ontext.
    change (currentTag (onclosetag toLowerCase name x)) with (@nil char).
    replace (arrayIncludes contentTags []) with false by reflexivity.
    now rewrite andb_false_r. }
  assert (E2 : handle toLowerCase (handle toLowerCase x (Text text)) (OpenTag name)
               = handle toLowerCase x (OpenTag name)).
  { cbn [handle]. unfold ontext, onopentag.
    destruct (negb (skipContent x) && arrayIncludes contentTags (currentTag x));
      [|reflexivity].
    now destruct (truthy (trim text)). }
  now rewrite E1, E2.
Qed.

(** The paragraph of [<p>Our agents <b>automate</b> the revenue cycle.</p>]
    gives nothing, and neither does the element inside, which is no
    content tag. *)
Example extractTextFromHtml_mixed_content :
  extractTextFromHtml toLowerCaseASCII
    [OpenTag (js "p"); Text (js "Our agents ");
     OpenTag (js "b"); Text (js "automate"); CloseTag (js "b");
     Text (js " the revenue cycle."); CloseTag (js "p")]
  = [].
Proof. vm_compute. reflexivity. Qed.

(** ** parseContent *)

Section SplitStringFacts.

Lemma startsWith_prefix (t s : jsstring) :
  startsWith t s = true <-> exists rest, s = t ++ rest.
Proof.
  revert s. induction t as [|x t IH]; intros s; cbn.
  - split; [intros _; now exists s | reflexivity].
  - destruct s as [|y s].
    + split; [discriminate | intros (rest & E); discriminate].
    + unfold char_eqb. rewrite andb_true_iff, N.eqb_eq, IH. split.
      * intros (-> & rest & ->). now exists rest.
      * intros (rest & E). injection E as -> ->. split; [reflexivity | now exists rest].
Qed.

Lemma splitFrom_nonempty (separator : jsstring) (skip : nat) (s : jsstring) :
  splitFrom separator skip s <> [].
Proof.
  revert skip. induction s as [|c r IH]; intros skip; cbn; [discriminate|].
  destruct skip as [|k]; [|apply IH].
  destruct (startsWith separator (c :: r)); [discriminate|].
  specialize (IH 0). destruct (splitFrom separator 0 r); [contradiction|].
  discriminate.
Qed.

(** The characters of a separator are passed over. *)
Lemma splitFrom_skip (separator pre rest : jsstring) :
  splitFrom separator (length pre) (pre ++ rest) = splitFrom separator 0 rest.
Proof. induction pre as [|c pre IH]; [reflexivity | exact IH]. Qed.

Lemma join_consHead (sep : jsstring) (c : char) (ps : list jsstring) :
  ps <> [] -> join sep (consHead c ps) = c :: join sep ps.
Proof.
  destruct ps as [|p ps]; [contradiction|]. intros _.
  cbn [consHead]. now rewrite !join_cons.
Qed.

(** Splitting loses nothing: the pieces, joined by the separator, are the
    string. *)
Lemma join_splitString (separator s : jsstring) :
  separator <> [] -> join separator (splitString separator s) = s.
Proof.
  intros Hsep. unfold splitString.
  remember (length s) as n eqn:Hn. revert s Hn.
  induction n as [n IH] using lt_wf_ind. intros s Hn.
  destruct s as [|c r]; [reflexivity|]. cbn [splitFrom].
  destruct (startsWith separator (c :: r)) eqn:E.
  - apply startsWith_prefix in E. destruct E as (rest & E).
    destruct separator as [|x sep']; [contradiction|].
    cbn [app] in E. injection E as Hc Hr. subst c r.
    cbn [length Nat.sub]. rewrite Nat.sub_0_r, splitFrom_skip.
    rewrite join_cons, <- (join_cons (x :: sep') []).
    pose proof (splitFrom_nonempty (x :: sep') 0 rest) as Hne.
    destruct (splitFrom (x :: sep') 0 rest) as [|p ps] eqn:Es; [contradiction|].
    change (join (x :: sep') ([] :: p :: ps))
      with ([] ++ (x :: sep') ++ join (x :: sep') (p :: ps)).
    rewrite <- Es, (IH (length rest)); [reflexivity | | reflexivity].
    subst n. cbn [length]. rewrite length_app. lia.
  - rewrite join_consHead by apply splitFrom_nonempty.
    rewrite (IH (length r)); [reflexivity | subst n; cbn; lia | reflexivity].
Qed.

Lemma splitString_substring (separator s piece : jsstring) :
  separator <> [] -> In piece (splitString separator s) -> substring piece s.
Proof.
  intros Hsep Hin. rewrite <- (join_splitString separator s Hsep) at 1.
  now apply join_substring.
Qed.

(** The first piece is the start of the string, and no piece holds the
    separator. *)
Lemma splitString_pieces (separator s : jsstring) :
  separator <> [] ->
  (exists piece pieces rest,
     splitString separator s = piece :: pieces /\ s = piece ++ rest)
  /\ forall piece, In piece (splitString separator s) ->
       includes piece separator = false.
Proof.
  intros Hsep. unfold splitString.
  assert (Hnil : startsWith separator [] = false).
  { destruct separator; [contradiction | reflexivity]. }
  remember (length s) as n eqn:Hn. revert s Hn.
  induction n as [n IH] using lt_wf_ind. intros s Hn.
  destruct s as [|c r]; cbn [splitFrom].
  { split; [now exists [], [], []|].
    intros piece [<-|[]]. cbn [includes]. now rewrite Hnil. }
  destruct (startsWith separator (c :: r)) eqn:E.
  - split; [now exists [], (splitFrom separator (length separator - 1) r), (c :: r)|].
    pose proof E as E'. apply startsWith_prefix in E'. destruct E' as (rest & E').
    destruct separator as [|x sep']; [contradiction|].
    cbn [app] in E'. injection E' as Hc Hr. subst c r.
    cbn [length Nat.sub]. rewrite Nat.sub_0_r, splitFrom_skip.
    intros piece [<-|Hin].
    + cbn [includes]. now rewrite Hnil.
    + apply (IH (length rest)) with (s := rest); [|reflexivity | exact Hin].
      subst n. cbn [length]. rewrite length_app. lia.
  - destruct (IH (length r)) with (s := r) as [(p & ps & rest & Es & Er) Hall];
      [subst n; cbn; lia | reflexivity |].
    rewrite Es in *. cbn [consHead]. split.
    + exists (c :: p), ps, rest. split; [reflexivity|]. now rewrite Er.
    + intros piece [<-|Hin]; [|apply Hall; now right].
      cbn [includes]. rewrite (Hall p) by now left.
      rewrite orb_false_r.
      destruct (startsWith separator (c :: p)) eqn:E2; [|reflexivity].
      apply startsWith_prefix in E2. destruct E2 as (x & E2).
      assert (E3 : startsWith separator (c :: r) = true).
      { apply startsWith_prefix. exists (x ++ rest).
        rewrite Er, app_comm_cons, E2. now rewrite <- app_assoc. }
      congruence.
Qed.





End SplitStringFacts.

(** X20.  What [parseContent] keeps.  The full text is the content as it
    is.  The chunks are pieces of the content, in their order: each is a
    run of consecutive characters of the content with more than twenty
    characters between the whitespace at its ends and no blank line inside,
    and all the pieces, joined by blank lines, are the content.  A content
    of at most twenty characters, whitespace at the ends apart, gives no
    chunk. *)
Theorem parseContent_chunks (now content pageName url : jsstring) :
  Page.fullText (parseContent now content pageName url) = content
  /\ (exists pieces,
        join [newline; newline] pieces = content
        /\ Page.content (parseContent now content pageName url)
           = filter (fun chunk => 20 <? length (trim chunk)) pieces)
  /\ (forall chunk,
        In chunk (Page.content (parseContent now content pageName url)) ->
        20 < length (trim chunk)
        /\ substring chunk content
        /\ includes chunk [newline; newline] = false)
  /\ (length (trim content) <= 20 ->
      Page.content (parseContent now content pageName url) = []).
Proof.
  assert (Hsep : [newline; newline] <> []) by discriminate.
  assert (Hchunk : forall chunk,
            In chunk (Page.content (parseContent now content pageName url)) ->
            20 < length (trim chunk)
            /\ substring chunk content
            /\ includes chunk [newline; newline] = false).
  { intros chunk Hin. cbn [parseContent Page.content] in Hin.
    apply filter_In in Hin. destruct Hin as [Hin Hlen].
    apply Nat.ltb_lt in Hlen. split; [exact Hlen|]. split.
    - now apply splitString_substring with [newline; newline].
    - now apply (proj2 (splitString_pieces _ content Hsep)). }
  split; [reflexivity|]. split; [|split; [exact Hchunk|]].
  - exists (splitString [newline; newline] content).
    split; [now apply join_splitString | reflexivity].
  - intros Hshort.
    destruct (Page.content (parseContent now content pageName url))
      as [|chunk l] eqn:E; [reflexivity|].
    destruct (Hchunk chunk) as (Hlen & Hsub & _); [now left|].
    assert (Hne : trim chunk <> []).
    { intros E0. rewrite E0 in Hlen. cbn in Hlen. lia. }
    destruct (substring_trim _ _ Hsub Hne) as (a & b & Eab).
    rewrite Eab, !length_app in Hshort. lia.
Qed.



(** A part with a blank line inside is cut there. *)
Example parseContent_cuts_a_part :
  Page.content
    (parseContent (js "2024-01-01T00:00:00.000Z")
       (extractTextFromHtml toLowerCaseASCII
          [OpenTag (js "p");
           Text ((js "The first paragraph of the page.") ++ [newline; newline]
                 ++ js "And its second paragraph, after a blank line.");
           CloseTag (js "p")])
       (js "About") (js "https://www.thoughtful.ai/about"))
  = [js "The first paragraph of the page.";
     js "And its second paragraph, after a blank line."].
Proof. vm_compute. reflexivity. Qed.

(** ** scrapeAllPages and performInitialization *)

Section ScrapingFacts.

Context {W : Type} (web : Web W).

Variable toLowerCase : jsstring -> jsstring.
Variable parse : jsstring -> list ParserEvent.

Lemma Subsequence_length {A} (l1 l2 : list A) :
  Subsequence l1 l2 -> length l1 <= length l2.
Proof. induction 1; cbn; lia. Qed.

Lemma scrapePage_cases (url pageName : jsstring) (w : W) :
  (exists e w', get web url w = (inl e, w')
                /\ scrapePage toLowerCase parse web url pageName w = (inl e, w'))
  \/ (exists html w',
        get web url w = (inr html, w')
        /\ scrapePage toLowerCase parse web url pageName w
           = (inr (parseContent (toISOString web w')
                     (extractTextFromHtml toLowerCase (parse html)) pageName url),
              w')).
Proof.
  unfold scrapePage. destruct (get web url w) as [[e|html] w']; eauto.
Qed.

Lemma last_cons {A} (l : list A) (x d : A) : last (x :: l) d = last l x.
Proof.
  revert x d. induction l as [|y l IH]; intros x d; [reflexivity|].
  change (last (x :: y :: l) d) with (last (y :: l) d).
  now rewrite (IH y d), (IH y x).
Qed.

(** The loop of [scrapeAllPages], from any of its turns. *)
Lemma scrapePages_from (pages : list (jsstring * jsstring))
    (results : list Page.t) (w : W) (asked : list jsstring) :
  exists new w',
    fold_left (scrapeStep toLowerCase parse web) pages (results, w, asked)
    = (results ++ new, w', asked ++ map fst pages)
    /\ new = pagesOf toLowerCase parse web pages
               (answersTo web (map fst pages) w)
    /\ w' = last (map snd (answersTo web (map fst pages) w)) w
    /\ Subsequence (map entryOf new) pages
    /\ Forall (scrapedFrom toLowerCase parse web) new
    /\ ((forall url v, exists e v', get web url v = (inl e, v')) -> new = [])
    /\ ((forall url v, exists html v', get web url v = (inr html, v')) ->
        map entryOf new = pages).
Proof.
  revert results w asked.
  induction pages as [|[url name] pages IH]; intros results w asked.
  - exists [], w. cbn. rewrite !app_nil_r.
    repeat split; auto using Subsequence_nil.
  - cbn [fold_left scrapeStep fst snd map answersTo].
    destruct (scrapePage_cases url name w)
      as [(e & w1 & Eg & ->) | (html & w1 & Eg & ->)]; rewrite Eg.
    + destruct (IH results w1 (asked ++ [url]))
        as (new & w' & E & Ep & Ew & Hs & Hf & Hn & Ha).
      exists new, w'. rewrite E, <- app_assoc. split; [reflexivity|].
      split; [exact Ep|].
      split; [cbn [map snd]; now rewrite last_cons|].
      split; [now apply Subsequence_skip|]. split; [exact Hf|].
      split; [exact Hn|].
      intros Hall. destruct (Hall url w) as (html & v' & Eh). congruence.
    + set (page := parseContent (toISOString web w1)
                     (extractTextFromHtml toLowerCase (parse html)) name url).
      destruct (IH (results ++ [page]) w1 (asked ++ [url]))
        as (new & w' & E & Ep & Ew & Hs & Hf & Hn & Ha).
      exists (page :: new), w'. rewrite E, <- !app_assoc.
      split; [reflexivity|].
      split; [unfold pagesOf in *; cbn; now rewrite <- Ep|].
      split; [cbn [map snd]; now rewrite last_cons|].
      split; [now apply (Subsequence_keep (url, name))|].
      split; [constructor; [now exists w, html, w1 | exact Hf]|].
      split.
      * intros Hall. destruct (Hall url w) as (e & v' & Eh). congruence.
      * intros Hall. cbn [map]. now rewrite (Ha Hall).
Qed.

(** As many pages as answers that are no error. *)
Lemma pagesOf_length (pages : list (jsstring * jsstring)) (w : W) :
  length (pagesOf toLowerCase parse web pages (answersTo web (map fst pages) w))
  = length (filter (fun answer : (Error + jsstring) * W =>
                      match fst answer with
                      | inr _ => true
                      | inl _ => false
                      end)
              (answersTo web (map fst pages) w)).
Proof.
  revert w. induction pages as [|[url name] pages IH]; intros w;
    [reflexivity|].
  cbn [map fst answersTo]. destruct (get web url w) as [[e|html] w1];
    unfold pagesOf in *; cbn; now rewrite IH.
Qed.

Lemma scrapeAllPages_from_start (w : W) :
  exists results w',
    scrapeAllPages toLowerCase parse web w
    = (results, w', map fst PAGES_TO_SCRAPE).
Proof.
  destruct (scrapePages_from PAGES_TO_SCRAPE [] w []) as (new & w' & E & _).
  now exists new, w'.
Qed.

End ScrapingFacts.

(** X22.  [scrapeAllPages] asks for the six pages, in the order of
    [PAGES_TO_SCRAPE], whichever of the requests fail.  What it returns are
    the pages whose request was answered, all of them and in that order,
    each one made by [parseContent] of the text extracted from the answer,
    and as many as the answers that are no error: none when every request
    fails, and all six when every request is answered. *)
Theorem scrapeAllPages_results {W : Type} (web : Web W)
    (toLowerCase : jsstring -> jsstring) (parse : jsstring -> list ParserEvent)
    (w : W) :
  exists results w',
    scrapeAllPages toLowerCase parse web w
    = (results, w', map fst PAGES_TO_SCRAPE)
    /\ results
       = pagesOf toLowerCase parse web PAGES_TO_SCRAPE
           (answersTo web (map fst PAGES_TO_SCRAPE) w)
    /\ length results
       = length (filter (fun answer : (Error + jsstring) * W =>
                           match fst answer with
                           | inr _ => true
                           | inl _ => false
                           end)
                   (answersTo web (map fst PAGES_TO_SCRAPE) w))
    /\ w' = last (map snd (answersTo web (map fst PAGES_TO_SCRAPE) w)) w
    /\ Subsequence (map entryOf results) PAGES_TO_SCRAPE
    /\ length results <= 6
    /\ Forall (scrapedFrom toLowerCase parse web) results
    /\ ((forall url v, exists e v', get web url v = (inl e, v')) -> results = [])
    /\ ((forall url v, exists html v', get web url v = (inr html, v')) ->
        map entryOf results = PAGES_TO_SCRAPE).
Proof.
  destruct (scrapePages_from web toLowerCase parse PAGES_TO_SCRAPE [] w [])
    as (new & w' & E & Ep & Ew & Hs & Hf & Hn & Ha).
  exists new, w'. split; [exact E|]. split; [exact Ep|].
  split; [rewrite Ep; apply pagesOf_length|]. split; [exact Ew|].
  split; [exact Hs|]. split; [|auto].
  apply Subsequence_length in Hs. now rewrite length_map in Hs.
Qed.

(** X23.  One round of [performInitialization].  When no page was
    scraped the round fails with the error "No content was scraped from
    thoughtful.ai" and asks nothing of the OpenAI client; the store is as
    it was, or empty when the round was forced.  When a page was scraped
    the round succeeds, whatever the client answers: it asks an embedding
    for every chunk of twenty characters or more, in order, and leaves a
    store that is initialized, with as many embeddings as documents, the
    count the result shows. *)
Theorem performInitialization_outcome {W : Type} (web : Web W)
    (toLowerCase : jsstring -> jsstring) (parse : jsstring -> list ParserEvent)
    (client : Client W) (force : bool) (vectorStore : VectorStore) (w : W) :
  exists scrapedContent w1 outcome store w' requests,
    scrapeAllPages toLowerCase parse web w
    = (scrapedContent, w1, map fst PAGES_TO_SCRAPE)
    /\ performInitialization toLowerCase parse web client force vectorStore w
       = (outcome, store, w', requests)
    /\ match scrapedContent with
       | [] =>
           outcome = inl (mkError "No content was scraped from thoughtful.ai")
           /\ store = (if force then emptyStore else vectorStore)
           /\ w' = w1
           /\ requests = []
       | _ :: _ =>
           requests = map embeddingRequest (eligibleChunks scrapedContent)
           /\ isInitialized store = true
           /\ lastUpdated store = Some (toISOString web w')
           /\ length (embeddings store) = length (documents store)
           /\ length (documents store) <= length (eligibleChunks scrapedContent)
           /\ outcome
              = inr (InitializedNow (dateNow web w' - dateNow web w)
                       (length scrapedContent)
                       (map Page.pageName scrapedContent)
                       {| totalPages := length scrapedContent;
                          totalChunks := length (documents store);
                          ingestedAt := toISOString web w' |})
       end.
Proof.
  destruct (scrapeAllPages_from_start web toLowerCase parse w)
    as (pages & w1 & E).
  exists pages, w1. unfold performInitialization. rewrite E.
  destruct pages as [|page pages].
  - cbn [length Nat.eqb]. eexists _, _, _, _. split; [reflexivity|].
    split; [reflexivity|]. repeat split.
  - cbn [length Nat.eqb].
    destruct (run_ingestLoop client (page :: pages) w1) as (st & w2 & Er & Hinv).
    destruct (run_ingestLoop_count client (page :: pages) w1)
      as (st2 & w3 & r2 & E2 & Hn).
    rewrite Er in E2. injection E2 as <- _ _. rewrite Er.
    destruct st as [[documents embeddings] totalChunks].
    destruct Hinv as (Hd & He & _). cbn [ingested fst] in *.
    eexists _, _, w2, _. split; [reflexivity|]. split; [reflexivity|].
    cbn [isInitialized initialized lastUpdated RagService.embeddings
         RagService.documents length].
    rewrite Hd. repeat split; congruence.
Qed.

(** ** chunkText, continued *)

Section ChunkShape.

Variables maxChunkSize overlap : Z.

Lemma solid_app_r (a b : jsstring) : solid b = true -> solid (a ++ b) = true.
Proof. intros H. unfold solid. rewrite existsb_app, orb_true_iff. now right. Qed.

Lemma solid_app_l (a b : jsstring) : solid a = true -> solid (a ++ b) = true.
Proof. intros H. unfold solid. rewrite existsb_app, orb_true_iff. now left. Qed.

Lemma solid_trim (s : jsstring) : solid s = true -> trim s <> [].
Proof.
  unfold solid. rewrite existsb_exists. intros (c & Hc & Hn).
  apply trim_has_char with c; [exact Hc | now apply negb_true_iff].
Qed.

(** Every sentence but the last has a character that is not whitespace:
    the one the separator after it looks back at. *)
Lemma splitSentencesFrom_solid (s : jsstring) (st : splitState) :
  match splitSentencesFrom st s with
  | [] => False
  | p :: rest =>
      (rest <> [] -> st = InSentence true \/ solid p = true)
      /\ Forall (fun q => solid q = true) (removelast rest)
  end.
Proof.
  revert st. induction s as [|c r IH]; intros st.
  - cbn. split; [intros H; now elim H | constructor].
  - assert (Hcons :
      match consHead c (splitSentencesFrom (InSentence (isSentenceEnd c)) r) with
      | [] => False
      | p :: rest =>
          (rest <> [] -> solid p = true)
          /\ Forall (fun q => solid q = true) (removelast rest)
      end).
    { specialize (IH (InSentence (isSentenceEnd c))).
      destruct (splitSentencesFrom (InSentence (isSentenceEnd c)) r) as [|p rest];
        [contradiction|].
      cbn [consHead]. destruct IH as [Hh Hm]. split; [|exact Hm].
      intros Hne. unfold solid. cbn [existsb].
      destruct (Hh Hne) as [E | Hp].
      - injection E as E.
        destruct (isWhiteSpace c) eqn:Ew; [|reflexivity].
        apply whitespace_not_sentence_end in Ew. congruence.
      - unfold solid in Hp. rewrite Hp. apply orb_true_r. }
    assert (Hhead :
      match consHead c (splitSentencesFrom (InSentence (isSentenceEnd c)) r) with
      | [] => False
      | p :: rest =>
          (rest <> [] -> st = InSentence true \/ solid p = true)
          /\ Forall (fun q => solid q = true) (removelast rest)
      end).
    { destruct (consHead c (splitSentencesFrom (InSentence (isSentenceEnd c)) r))
        as [|p rest]; [contradiction|].
      destruct Hcons as [Hh Hm]. split; [|exact Hm]. intros Hne. right. auto. }
    destruct st as [|afterEnd]; cbn [splitSentencesFrom].
    + destruct (isWhiteSpace c) eqn:Ew; [|exact Hhead].
      specialize (IH InSeparator).
      destruct (splitSentencesFrom InSeparator r) as [|p rest]; [contradiction|].
      destruct IH as [Hh Hm]. split; [|exact Hm].
      intros Hne. destruct (Hh Hne) as [E|Hp]; [discriminate | now right].
    + destruct (afterEnd && isWhiteSpace c) eqn:Ea; [|exact Hhead].
      apply andb_prop in Ea. destruct Ea as [-> Ew].
      split; [now left|].
      specialize (IH InSeparator).
      destruct (splitSentencesFrom InSeparator r) as [|p rest]; [contradiction|].
      destruct IH as [Hh Hm]. cbn [removelast].
      destruct rest as [|q rest']; [constructor|].
      constructor; [|exact Hm].
      destruct Hh as [E|Hp]; [discriminate | discriminate | exact Hp].
Qed.

Lemma splitSentences_solid (text : jsstring) :
  exists init last,
    splitSentences text = init ++ [last]
    /\ Forall (fun q => solid q = true) init.
Proof.
  pose proof (splitSentencesFrom_solid text (InSentence false)) as H.
  fold (splitSentences text) in H.
  destruct (splitSentences text) as [|p rest]; [contradiction|].
  destruct H as [Hh Hm].
  destruct rest as [|q rest'].
  - exists [], p. split; [reflexivity | constructor].
  - exists (p :: removelast (q :: rest')), (last (q :: rest') []).
    split.
    + rewrite <- app_comm_cons. f_equal. apply app_removelast_last. discriminate.
    + constructor; [|exact Hm].
      destruct Hh as [E|Hp]; [discriminate | discriminate | exact Hp].
Qed.

(** What the loop keeps true while the sentences are solid: the chunks
    are trimmed and not empty, the buffer is empty or solid, and there are
    fewer chunks than sentences read, counting the buffer when it is not
    empty. *)
Lemma chunkStep_shape (st : list jsstring * jsstring) (sentence : jsstring)
    (n : nat) :
  Forall (fun c => c <> [] /\ trim c = c) (fst st) ->
  (snd st = [] \/ solid (snd st) = true) ->
  length (fst st) + (if truthy (snd st) then 1 else 0) <= n ->
  Forall (fun c => c <> [] /\ trim c = c)
    (fst (chunkStep maxChunkSize overlap st sentence))
  /\ (solid sentence = true ->
      solid (snd (chunkStep maxChunkSize overlap st sentence)) = true)
  /\ length (fst (chunkStep maxChunkSize overlap st sentence))
     + (if truthy (snd (chunkStep maxChunkSize overlap st sentence)) then 1 else 0)
     <= S n.
Proof.
  destruct st as [chunks cur]. cbn [fst snd]. intros Hgood Hcur Hn.
  unfold chunkStep.
  destruct ((Z.of_nat (length (cur ++ sentence)) >? maxChunkSize)%Z
            && (0 <? length cur)) eqn:C; cbn [fst snd].
  - apply andb_prop in C. destruct C as [_ C]. apply Nat.ltb_lt in C.
    destruct cur as [|x cur']; [cbn in C; lia|].
    destruct Hcur as [E|Hcur]; [discriminate|].
    cbn [truthy] in Hn. split; [|split].
    + apply Forall_app. split; [exact Hgood|].
      constructor; [|constructor].
      split; [now apply solid_trim | apply trim_trim].
    + intros Hs. apply solid_app_r. now apply solid_app_r.
    + rewrite length_app. cbn [length].
      destruct (truthy _); lia.
  - split; [exact Hgood|]. split.
    + intros Hs. apply solid_app_r. now apply solid_app_r.
    + destruct (truthy (cur ++ _)); destruct (truthy cur); lia.
Qed.

Lemma chunkLoop_shape (sentences : list jsstring)
    (st : list jsstring * jsstring) (n : nat) :
  Forall (fun q => solid q = true) sentences ->
  Forall (fun c => c <> [] /\ trim c = c) (fst st) ->
  (snd st = [] \/ solid (snd st) = true) ->
  length (fst st) + (if truthy (snd st) then 1 else 0) <= n ->
  Forall (fun c => c <> [] /\ trim c = c)
    (fst (chunkLoop maxChunkSize overlap sentences st))
  /\ (snd (chunkLoop maxChunkSize overlap sentences st) = []
      \/ solid (snd (chunkLoop maxChunkSize overlap sentences st)) = true)
  /\ length (fst (chunkLoop maxChunkSize overlap sentences st))
     + (if truthy (snd (chunkLoop maxChunkSize overlap sentences st)) then 1 else 0)
     <= n + length sentences.
Proof.
  revert st n. induction sentences as [|s l IH]; intros st n Hs Hgood Hcur Hn.
  - cbn. rewrite Nat.add_0_r. auto.
  - inversion Hs as [|? ? Hs1 Hs2]; subst.
    destruct (chunkStep_shape st s n Hgood Hcur Hn) as (G & C & N).
    unfold chunkLoop. cbn [fold_left]. fold (chunkLoop maxChunkSize overlap l).
    destruct (IH (chunkStep maxChunkSize overlap st s) (S n) Hs2 G
                (or_intror (C Hs1)) N) as (G' & C' & N').
    split; [exact G'|]. split; [exact C'|].
    cbn [length]. rewrite <- Nat.add_succ_comm. exact N'.
Qed.

End ChunkShape.

(** X24.  The chunks of [chunkText], for every text, size and overlap:
    no chunk is empty, none has whitespace at its ends, and there are at
    most as many chunks as the text has sentences. *)
Theorem chunkText_chunks (text : jsstring) (maxChunkSize overlap : Z) :
  Forall (fun chunk => chunk <> [] /\ trim chunk = chunk)
    (chunkText text maxChunkSize overlap)
  /\ length (chunkText text maxChunkSize overlap)
     <= length (splitSentences text).
Proof.
  destruct (splitSentences_solid text) as (init & last & E & Hinit).
  unfold chunkText. rewrite E.
  unfold chunkLoop. rewrite fold_left_app. cbn [fold_left].
  fold (chunkLoop maxChunkSize overlap init ([], [])).
  destruct (chunkLoop_shape maxChunkSize overlap init ([], []) 0 Hinit)
    as (G & C & N); [constructor | now left | cbn; lia |].
  destruct (chunkStep_shape maxChunkSize overlap _ last _ G C N) as (G' & _ & N').
  destruct (chunkStep maxChunkSize overlap
              (chunkLoop maxChunkSize overlap init ([], [])) last)
    as [chunks cur].
  cbn [fst snd] in *. rewrite length_app. cbn [length].
  destruct (truthy (trim cur)) eqn:T.
  - split.
    + apply Forall_app. split; [exact G'|]. constructor; [|constructor].
      split; [now apply truthy_true | apply trim_trim].
    + rewrite length_app. cbn [length].
      assert (Hc : truthy cur = true).
      { destruct cur; [discriminate | reflexivity]. }
      rewrite Hc in N'. lia.
  - split; [exact G'|]. destruct (truthy cur); lia.
Qed.

(** ** The identifiers of the documents *)

Section DocumentIds.

Lemma little_succ_not_nil (d : Decimal.uint) : Decimal.Little.succ d <> Decimal.Nil.
Proof. destruct d; discriminate. Qed.

Lemma to_little_uint_not_nil (n : nat) (acc : Decimal.uint) :
  acc <> Decimal.Nil -> Nat.to_little_uint n acc <> Decimal.Nil.
Proof.
  revert acc. induction n as [|n IH]; intros acc H; cbn; [exact H|].
  apply IH. apply little_succ_not_nil.
Qed.

Lemma to_uint_not_nil (n : nat) : Nat.to_uint n <> Decimal.Nil.
Proof.
  unfold Nat.to_uint. intros E. apply DecimalFacts.rev_nil_inv in E.
  now apply (to_little_uint_not_nil n Decimal.zero).
Qed.

Lemma string_of_uint_inj (d1 d2 : Decimal.uint) :
  NilEmpty.string_of_uint d1 = NilEmpty.string_of_uint d2 -> d1 = d2.
Proof.
  revert d2. induction d1 as [|d1 IH|d1 IH|d1 IH|d1 IH|d1 IH|d1 IH|d1 IH|d1 IH|d1 IH|d1 IH];
    intros d2; destruct d2; cbn; intros E; try discriminate;
    try reflexivity; injection E as E; f_equal; now apply IH.
Qed.

Lemma js_inj (a b : string) : js a = js b -> a = b.
Proof.
  unfold js. intros E.
  apply (f_equal (map ascii_of_N)) in E. rewrite !map_map in E.
  rewrite !(map_ext _ (fun a => a) ascii_N_embedding), !map_id in E.
  apply (f_equal string_of_list_ascii) in E.
  now rewrite !string_of_list_ascii_of_string in E.
Qed.

Lemma numberToString_inj (m n : nat) :
  numberToString m = numberToString n -> m = n.
Proof.
  unfold numberToString. intros E. apply js_inj in E.
  apply DecimalNat.Unsigned.to_uint_inj.
  pose proof (to_uint_not_nil m) as Hm. pose proof (to_uint_not_nil n) as Hn.
  unfold NilZero.string_of_uint in E.
  destruct (Nat.to_uint m) eqn:Em; [contradiction|..];
    destruct (Nat.to_uint n) eqn:En; try contradiction;
    now apply string_of_uint_inj.
Qed.

(** The digits of a count hold no hyphen. *)
Lemma string_of_uint_digits (d : Decimal.uint) :
  ~ In 45%N (js (NilEmpty.string_of_uint d)).
Proof.
  induction d; cbn; intros H;
    try (destruct H as [H|H]; [discriminate | now apply IHd]); exact H.
Qed.

Lemma numberToString_digits (n : nat) : ~ In 45%N (numberToString n).
Proof.
  unfold numberToString, NilZero.string_of_uint.
  destruct (Nat.to_uint n) eqn:E;
    try (rewrite <- E; apply string_of_uint_digits).
  cbn. intros [H|[]]. discriminate.
Qed.

(** What follows the last occurrence of a character. *)
Lemma after_last (x : char) (a1 a2 d1 d2 : jsstring) :
  ~ In x d1 -> ~ In x d2 ->
  a1 ++ [x] ++ d1 = a2 ++ [x] ++ d2 -> d1 = d2.
Proof.
  intros H1 H2 E.
  assert (R : forall l1 l2 r1 r2 : jsstring,
            ~ In x l1 -> ~ In x l2 ->
            l1 ++ x :: r1 = l2 ++ x :: r2 -> l1 = l2).
  { induction l1 as [|y l1 IH]; intros [|z l2] r1 r2 N1 N2 Eq; cbn in *.
    - reflexivity.
    - injection Eq as -> _. now elim N2; left.
    - injection Eq as -> _. now elim N1; left.
    - injection Eq as -> Eq. f_equal.
      apply (IH l2 r1 r2); [intros H; apply N1; now right
                           |intros H; apply N2; now right | exact Eq]. }
  apply (f_equal (@rev char)) in E.
  rewrite !rev_app_distr in E. cbn [rev app] in E.
  rewrite <- !app_assoc in E. cbn [app] in E.
  apply R in E; [|now rewrite <- in_rev..].
  apply (f_equal (@rev char)) in E. now rewrite !rev_involutive in E.
Qed.

Lemma documentOf_ids (scrapedPages : list Page.t) (i j : nat) (d1 d2 : Document) :
  documentOf scrapedPages i d1 -> documentOf scrapedPages j d2 ->
  id d1 = id d2 -> i = j.
Proof.
  intros (p1 & _ & _ & _ & _ & _ & E1 & _) (p2 & _ & _ & _ & _ & _ & E2 & _) E.
  rewrite E1, E2 in E. apply numberToString_inj.
  apply (after_last 45%N (Page.pageName p1) (Page.pageName p2));
    [apply numberToString_digits.. | exact E].
Qed.

End DocumentIds.

(** X25.  The documents [ingestContent] stores have identifiers that are
    pairwise distinct, whatever the names of the pages: an identifier ends
    with the digits of the rank of its document in the store, after its
    last hyphen. *)
Theorem ingestContent_ids {W : Type} (c : Client W) (now : jsstring)
    (scrapedPages : list Page.t) (w : W) :
  exists store stats w' reqs,
    run c (ingestContent now scrapedPages) w = (inr (store, stats), w', reqs)
    /\ NoDup (map id (documents store)).
Proof.
  destruct (run_ingestLoop c scrapedPages w) as (st & w' & E & Hinv).
  unfold ingestContent. rewrite run_bind, E. cbn [run].
  destruct st as [[documents embeddings] totalChunks].
  destruct Hinv as (_ & _ & Hdocs). cbn [ingested].
  eexists _, _, w', _. split; [reflexivity|]. cbn [RagService.documents].
  apply NoDup_nth_error. intros i j Hi Eij.
  rewrite length_map in Hi. rewrite !nth_error_map in Eij.
  destruct (nth_error documents i) as [d1|] eqn:E1;
    [|apply nth_error_None in E1; lia].
  destruct (nth_error documents j) as [d2|] eqn:E2; [|discriminate].
  cbn in Eij. injection Eij as Eij.
  apply (documentOf_ids scrapedPages i j d1 d2);
    [now apply Hdocs | now apply Hdocs | exact Eij].
Qed.

(** The page whose request fails is left out, and the pages after it are
    still asked for. *)
Example scrapeAllPages_skips_a_failure :
  let '(results, _, asked) :=
    scrapeAllPages toLowerCaseASCII paragraphOf aboutMissing tt in
  map Page.pageName results
  = [js "Home"; js "Prior Authorization"; js "Accounts Receivable";
     js "Payment Posting"; js "Trust and Security"]
  /\ asked = map fst PAGES_TO_SCRAPE.
Proof. vm_compute. split; reflexivity. Qed.

(** ** searchDocuments: the best results *)

Section TopResults.






End TopResults.


(** ** chunkText: an overlap below ten *)

Section SmallOverlap.

Variables maxChunkSize overlap : Z.

Hypothesis small : (0 <= overlap < 10)%Z.

Lemma splitChar_nonempty (sep : char) (s : jsstring) : splitChar sep s <> [].
Proof.
  induction s as [|c r IH]; cbn; [discriminate|].
  destruct (char_eqb c sep); [discriminate|].
  destruct (splitChar sep r); [contradiction | discriminate].
Qed.

Lemma join_splitChar (sep : char) (s : jsstring) :
  join [sep] (splitChar sep s) = s.
Proof.
  induction s as [|c r IH]; [reflexivity|]. cbn [splitChar].
  destruct (char_eqb c sep) eqn:E.
  - unfold char_eqb in E. apply N.eqb_eq in E. subst c.
    pose proof (splitChar_nonempty sep r) as Hne.
    destruct (splitChar sep r) as [|p ps] eqn:Es; [contradiction|].
    change (join [sep] ([] :: p :: ps)) with ([] ++ [sep] ++ join [sep] (p :: ps)).
    now rewrite IH.
  - rewrite join_consHead by apply splitChar_nonempty. now rewrite IH.
Qed.

(** [words.slice(-0)] is all the words: the seed is the buffer. *)
Lemma overlapSeed_small (currentChunk : jsstring) :
  overlapSeed overlap currentChunk = currentChunk.
Proof.
  unfold overlapSeed, sliceFrom.
  rewrite (Z.div_small overlap 10) by exact small.
  cbn [Z.opp Z.ltb Z.compare].
  rewrite Z.min_l by lia. cbn [Z.to_nat skipn].
  apply join_splitChar.
Qed.

Lemma join_snoc (sep : jsstring) (pre : list jsstring) (x : jsstring) :
  pre <> [] -> join sep (pre ++ [x]) = join sep pre ++ sep ++ x.
Proof.
  destruct pre as [|p pre]; [contradiction|]. intros _.
  rewrite <- app_comm_cons, !join_cons, map_app, concat_app. cbn.
  now rewrite app_nil_r, <- !app_assoc.
Qed.

Lemma join_head_nonempty (sep p : jsstring) (pre : list jsstring) :
  p <> [] -> join sep (p :: pre) <> [].
Proof. rewrite join_cons. destruct p; [contradiction | discriminate]. Qed.

(** The buffer is never cut: it is all the sentences read, and a chunk is
    the buffer as it was when a sentence did not fit. *)
Lemma chunkLoop_small (p : jsstring) (l pre : list jsstring)
    (all chunks : list jsstring) :
  p <> [] -> all = (p :: pre) ++ l ->
  Forall (fun c => exists k, 0 < k < length all
                             /\ c = trim (join [space] (firstn k all))) chunks ->
  exists chunks',
    chunkLoop maxChunkSize overlap l (chunks, join [space] (p :: pre))
    = (chunks', join [space] all)
    /\ Forall (fun c => exists k, 0 < k < length all
                                  /\ c = trim (join [space] (firstn k all))) chunks'.
Proof.
  intros Hp. revert pre chunks.
  induction l as [|x l IH]; intros pre chunks Hall Hc.
  - exists chunks. rewrite app_nil_r in Hall. subst all. now split.
  - unfold chunkLoop. cbn [fold_left]. fold (chunkLoop maxChunkSize overlap l).
    assert (Hcur : join [space] (p :: pre) <> []) by now apply join_head_nonempty.
    assert (Hnext : join [space] (p :: pre) ++ [space] ++ x
                    = join [space] (p :: (pre ++ [x]))).
    { rewrite app_comm_cons, join_snoc by discriminate. reflexivity. }
    assert (Hall' : all = (p :: (pre ++ [x])) ++ l).
    { rewrite Hall. cbn. now rewrite <- app_assoc. }
    unfold chunkStep.
    destruct ((Z.of_nat (length (join [space] (p :: pre) ++ x)) >? maxChunkSize)%Z
              && (0 <? length (join [space] (p :: pre)))).
    + rewrite overlapSeed_small, Hnext.
      apply IH; [exact Hall'|].
      apply Forall_app. split; [exact Hc|]. constructor; [|constructor].
      exists (length (p :: pre)). split.
      * rewrite Hall, length_app. cbn [length]. lia.
      * rewrite Hall, firstn_app, Nat.sub_diag, firstn_all. cbn [firstn].
        now rewrite app_nil_r.
    + apply truthy_true in Hcur. rewrite Hcur, Hnext.
      now apply IH.
Qed.

End SmallOverlap.

(** X27.  An overlap below ten keeps the whole buffer.  [overlap / 10]
    rounds down to [0] and [words.slice(-0)] is every word, so the buffer
    is never cut: a chunk is all the sentences read so far, joined by
    single spaces and trimmed, and the last chunk is all the sentences of
    the text, whatever [maxChunkSize]. *)
Theorem chunkText_small_overlap (text : jsstring) (maxChunkSize overlap : Z) :
  (0 <= overlap < 10)%Z ->
  trim text <> [] ->
  exists chunks,
    chunkText text maxChunkSize overlap
    = chunks ++ [trim (join [space] (splitSentences text))]
    /\ Forall (fun c =>
                 exists k, 0 < k < length (splitSentences text)
                           /\ c = trim (join [space]
                                          (firstn k (splitSentences text))))
         chunks.
Proof.
  intros Hsmall Hne.
  assert (Hchar : exists x, In x text /\ isWhiteSpace x = false).
  { destruct (forallb isWhiteSpace text) eqn:F.
    - apply trim_nil in F. contradiction.
    - assert (E : existsb (fun x => negb (isWhiteSpace x)) text = true).
      { clear -F. induction text as [|c r IH]; simpl in *; [discriminate|].
        destruct (isWhiteSpace c); simpl in *; auto. }
      apply existsb_exists in E. destruct E as (x & Hx & Hn).
      exists x. split; [exact Hx | now apply negb_true_iff]. }
  destruct Hchar as (x & Hx & Hnw).
  destruct (splitSentencesFrom_keeps (InSentence false) text x Hx Hnw)
    as (p & Hp & Hxp).
  fold (splitSentences text) in Hp.
  assert (Hjoin : trim (join [space] (splitSentences text)) <> []).
  { apply trim_has_char with x; [|exact Hnw]. now apply join_keeps with p. }
  unfold chunkText.
  destruct (splitSentences text) as [|s0 l] eqn:Esplit; [now elim Hp|].
  assert (Hs0 : s0 <> []).
  { intros ->. apply splitSentences_head_empty in Esplit. subst text.
    now apply Hne. }
  unfold chunkLoop. cbn [fold_left]. fold (chunkLoop maxChunkSize overlap l).
  unfold chunkStep at 2. cbn [length Nat.ltb Nat.leb]. rewrite andb_false_r.
  cbn [truthy app].
  destruct (chunkLoop_small maxChunkSize overlap Hsmall s0 l [] (s0 :: l) [] Hs0 eq_refl)
    as (chunks & E & Hchunks); [constructor|].
  change (fold_left (chunkStep maxChunkSize overlap) l ([], s0))
    with (chunkLoop maxChunkSize overlap l ([], join [space] [s0])).
  rewrite E. apply truthy_true in Hjoin. rewrite Hjoin.
  exists chunks. split; [reflexivity | exact Hchunks].
Qed.

(** Three sentences of six characters and a size of eight: the chunks
    grow to the whole text. *)
Lemma chunkText_small_overlap_witness :
  exists chunks,
    chunkText (js "Aa bb. Cc dd. Ee ff.") 8 5
    = chunks ++ [trim (join [space] (splitSentences (js "Aa bb. Cc dd. Ee ff.")))]
    /\ Forall (fun c =>
                 exists k,
                   0 < k < length (splitSentences (js "Aa bb. Cc dd. Ee ff."))
                   /\ c = trim (join [space]
                                  (firstn k (splitSentences
                                               (js "Aa bb. Cc dd. Ee ff.")))))
         chunks.
Proof.
  apply (chunkText_small_overlap (js "Aa bb. Cc dd. Ee ff.") 8 5).
  - lia.
  - vm_compute. discriminate.
Defined.

Example chunkText_overlap_below_ten :
  chunkText (js "Aa bb. Cc dd. Ee ff.") 8 5
  = [js "Aa bb."; js "Aa bb. Cc dd."; js "Aa bb. Cc dd. Ee ff."].
Proof. vm_compute. reflexivity. Qed.
